(** * nestjs-paginate-client: filter tokens, query parameters, query strings

    A shallow embedding of the library core (src/lib/filter.ts,
    src/lib/query-string.ts, src/lib/builder.ts, src/lib/parse.ts), of the
    factory [createPaginateParams] and of the usage examples
    (example/index.ts, example/angular/user-paginate.service.ts), with the
    properties of the serialise / parse pair and of the code around it.

    Conventions.
    - A JavaScript string is represented by the bytes of its UTF-8 encoding
      (a Rocq [string]).  Every separator the library looks for ([&], [=],
      [?], [:], [,], [%]) is an ASCII character, and an ASCII byte never
      occurs inside a multi-byte UTF-8 sequence, so searching and slicing on
      bytes agrees with searching and slicing on UTF-16 code units.  A
      surrogate code unit outside a pair is represented by the three bytes
      of its generalised UTF-8 encoding ([ED A0..BF 80..BF]); such a string
      is not well formed ([JS.well_formed]), and on it [encodeURIComponent]
      throws: module [Throwing] is [toQueryString] with that error path,
      and [QueryString.toQueryString] is its result on well-formed text.
    - A JavaScript number that reaches the builder is represented by a
      mathematical integer ([Z]); this is exact for the safe integers
      ([safe_integer]: magnitude below 2^53), which a double holds exactly
      and [String] prints digit for digit.  Statements that print or parse
      a number carry that restriction.
    - An object used as a dictionary ([Record<string, V>]) is an association
      list of its own properties in insertion order ([Dict]).  An object
      literal does two things more: a read of a name it has no own property
      for finds the member of [Object.prototype] of that name
      ([constructor], [toString], [__proto__], ...), and its own properties
      are enumerated with the canonical array indices first.  Module [Obj]
      models both for the filter dictionary of the builder; [Dict] agrees
      with it on lookups for every column that is not such a member, and
      entry for entry when the column is not an array index either
      ([filter_refines_lookup], [filter_refines]).  Statements about
      [filter] carry the restriction they need.  In the parser the read of
      an inherited member is modelled where it happens ([push_filter]). *)

From Stdlib Require Import ZArith NArith String Ascii List Bool Lia.
From Stdlib Require Import DecimalString DecimalPos.
From stdpp Require Import base option list strings.

Local Open Scope N_scope.

(** ** JavaScript built-ins used by the library *)

Module JS.

(** [s.indexOf(c)] for a one-character needle; [None] stands for [-1]. *)
Fixpoint indexOf (c : ascii) (s : string) : option nat :=
  match s with
  | EmptyString => None
  | String a r =>
      if Ascii.eqb a c then Some 0%nat
      else match indexOf c r with
           | Some i => Some (S i)
           | None => None
           end
  end.

(** [s.lastIndexOf(c)]; [None] stands for [-1]. *)
Fixpoint lastIndexOf (c : ascii) (s : string) : option nat :=
  match s with
  | EmptyString => None
  | String a r =>
      match lastIndexOf c r with
      | Some i => Some (S i)
      | None => if Ascii.eqb a c then Some 0%nat else None
      end
  end.

(** [s.slice(0, n)] and [s.slice(n)] for [0 <= n]. *)
Fixpoint slice_to (n : nat) (s : string) : string :=
  match n, s with
  | S n', String a r => String a (slice_to n' r)
  | _, _ => EmptyString
  end.

Fixpoint slice_from (n : nat) (s : string) : string :=
  match n, s with
  | S n', String _ r => slice_from n' r
  | _, _ => s
  end.

Definition startsWith (p s : string) : bool := String.prefix p s.

(** [s.split(sep)] for a one-character separator: never the empty list. *)
Fixpoint split (sep : ascii) (s : string) : list string :=
  match s with
  | EmptyString => [EmptyString]
  | String a r =>
      if Ascii.eqb a sep then EmptyString :: split sep r
      else match split sep r with
           | x :: xs => String a x :: xs
           | [] => [String a EmptyString]
           end
  end.

(** [l.join(sep)]. *)
Fixpoint join (sep : string) (l : list string) : string :=
  match l with
  | [] => EmptyString
  | [x] => x
  | x :: xs => x +:+ sep +:+ join sep xs
  end.

(** *** Numbers *)

(** [String(n)] for an integer [n]: the decimal digits, which is what
    JavaScript prints for a safe integer (from 1e21 on it prints an
    exponent). *)
Definition String_ (n : Z) : string :=
  match n with
  | Z0 => "0"
  | Zpos p => NilEmpty.string_of_uint (Pos.to_uint p)
  | Zneg p => String "-" (NilEmpty.string_of_uint (Pos.to_uint p))
  end.

Definition digit_value (c : ascii) : option N :=
  let n := N_of_ascii c in
  if (48 <=? n) && (n <=? 57) then Some (n - 48) else None.

(** The value of the longest prefix of decimal digits; [acc] is [None] until
    a digit has been read. *)
Fixpoint scan_digits (acc : option N) (s : string) : option N :=
  match s with
  | EmptyString => acc
  | String c r =>
      match digit_value c with
      | Some d => scan_digits (Some (10 * default 0 acc + d)) r
      | None => acc
      end
  end.

(** White space and line terminators skipped by [parseInt] (ECMAScript
    StrWhiteSpaceChar), as UTF-8 byte sequences: the function returns the
    number of bytes of the white-space character at the head of [s]. *)
Definition white_space_width (s : string) : option nat :=
  match s with
  | EmptyString => None
  | String a r =>
      let n := N_of_ascii a in
      if ((9 <=? n) && (n <=? 13)) || (n =? 32) then Some 1%nat
      else match r with
           | EmptyString => None
           | String b r' =>
               let m := N_of_ascii b in
               if (n =? 194) && (m =? 160) then Some 2%nat          (* U+00A0 *)
               else match r' with
                    | EmptyString => None
                    | String c _ =>
                        let k := N_of_ascii c in
                        if (n =? 225) && (m =? 154) && (k =? 128) then Some 3%nat (* U+1680 *)
                        else if (n =? 226) && (m =? 128)
                                && ((128 <=? k) && (k <=? 138)      (* U+2000..U+200A *)
                                    || (k =? 168) || (k =? 169)     (* U+2028, U+2029 *)
                                    || (k =? 175))                  (* U+202F *)
                             then Some 3%nat
                        else if (n =? 226) && (m =? 129) && (k =? 159) then Some 3%nat (* U+205F *)
                        else if (n =? 227) && (m =? 128) && (k =? 128) then Some 3%nat (* U+3000 *)
                        else if (n =? 239) && (m =? 187) && (k =? 191) then Some 3%nat (* U+FEFF *)
                        else None
                    end
           end
  end.

Fixpoint skip_white_space (fuel : nat) (s : string) : string :=
  match fuel with
  | O => s
  | S fuel' =>
      match white_space_width s with
      | Some w => skip_white_space fuel' (slice_from w s)
      | None => s
      end
  end.

(** [parseInt(s, 10)]; [None] stands for [NaN].  The value is the integer
    the digits spell, which is the number JavaScript returns whenever that
    integer is a safe integer (beyond 2^53 it returns the nearest
    double). *)
Definition parseInt (s : string) : option Z :=
  let t := skip_white_space (String.length s) s in
  let '(negative, u) :=
    match t with
    | String c r =>
        if Ascii.eqb c "-" then (true, r)
        else if Ascii.eqb c "+" then (false, r)
        else (false, t)
    | EmptyString => (false, t)
    end in
  match scan_digits None u with
  | Some m => Some (if negative then Z.opp (Z.of_N m) else Z.of_N m)
  | None => None
  end.

(** *** URI component coding *)

(** The characters [encodeURIComponent] leaves alone. *)
Definition unreserved (c : ascii) : bool :=
  let n := N_of_ascii c in
  ((65 <=? n) && (n <=? 90)) || ((97 <=? n) && (n <=? 122))
  || ((48 <=? n) && (n <=? 57))
  || existsb (Ascii.eqb c) ["-"; "_"; "."; "!"; "~"; "*"; "'"; "("; ")"]%char.

Definition hex_digit (n : N) : ascii :=
  ascii_of_N (if n <? 10 then 48 + n else 55 + n).

Definition escape (c : ascii) : string :=
  String "%" (String (hex_digit (N_of_ascii c / 16))
             (String (hex_digit (N_of_ascii c mod 16)) EmptyString)).

(** [encodeURIComponent(s)] on well-formed text: each byte of the UTF-8
    encoding that is not an unreserved character becomes [%XX].  (On a lone
    surrogate it throws: [Throwing.encodeURIComponent] below.) *)
Fixpoint encodeURIComponent (s : string) : string :=
  match s with
  | EmptyString => EmptyString
  | String c r =>
      (if unreserved c then String c EmptyString else escape c)
      +:+ encodeURIComponent r
  end.

Definition hex_value (c : ascii) : option N :=
  let n := N_of_ascii c in
  if (48 <=? n) && (n <=? 57) then Some (n - 48)
  else if (65 <=? n) && (n <=? 70) then Some (n - 55)
  else if (97 <=? n) && (n <=? 102) then Some (n - 87)
  else None.

(** Progress through one UTF-8 sequence of escaped octets: [Need n lo hi]
    expects [n] more continuation octets, the next one within [lo..hi]. *)
Inductive utf8_state : Type :=
  | Start
  | Need (n : nat) (lo hi : N).

Definition utf8_lead (b : N) : option utf8_state :=
  if b <? 128 then Some Start
  else if (194 <=? b) && (b <=? 223) then Some (Need 1 128 191)
  else if b =? 224 then Some (Need 2 160 191)
  else if (225 <=? b) && (b <=? 236) then Some (Need 2 128 191)
  else if b =? 237 then Some (Need 2 128 159)
  else if (238 <=? b) && (b <=? 239) then Some (Need 2 128 191)
  else if b =? 240 then Some (Need 3 144 191)
  else if (241 <=? b) && (b <=? 243) then Some (Need 3 128 191)
  else if b =? 244 then Some (Need 3 128 143)
  else None.

Definition utf8_step (st : utf8_state) (b : N) : option utf8_state :=
  match st with
  | Start => utf8_lead b
  | Need n lo hi =>
      if (lo <=? b) && (b <=? hi)
      then Some (match n with
                 | S (S n') => Need (S n') 128 191
                 | _ => Start
                 end)
      else None
  end.

(** [decodeURIComponent(s)]; [None] stands for the URIError thrown on a
    [%] not followed by two hex digits, or on escaped octets that are not
    the UTF-8 encoding of a code point. *)
Fixpoint decode (st : utf8_state) (s : string) : option string :=
  match s with
  | EmptyString => match st with Start => Some EmptyString | Need _ _ _ => None end
  | String c r =>
      if Ascii.eqb c "%" then
        match r with
        | String h (String l r') =>
            match hex_value h, hex_value l with
            | Some a, Some b =>
                match utf8_step st (16 * a + b) with
                | Some st' =>
                    match decode st' r' with
                    | Some t => Some (String (ascii_of_N (16 * a + b)) t)
                    | None => None
                    end
                | None => None
                end
            | _, _ => None
            end
        | _ => None
        end
      else
        match st with
        | Start =>
            match decode Start r with
            | Some t => Some (String c t)
            | None => None
            end
        | Need _ _ _ => None
        end
  end.

Definition decodeURIComponent (s : string) : option string := decode Start s.

(** Well-formed text: the bytes are the UTF-8 encoding of a sequence of
    code points. *)
Fixpoint utf8_run (st : utf8_state) (s : string) : bool :=
  match s with
  | EmptyString => match st with Start => true | Need _ _ _ => false end
  | String c r =>
      match utf8_step st (N_of_ascii c) with
      | Some st' => utf8_run st' r
      | None => false
      end
  end.

Definition well_formed (s : string) : bool := utf8_run Start s.

End JS.

(** ** src/lib/types.ts *)

Module FilterOperator.
Inductive t : Type :=
  EQ | GT | GTE | IN | NULL | LT | LTE | BTW | ILIKE | SW | CONTAINS.

(** The string each enum member stands for at run time. *)
Definition to_string (o : t) : string :=
  match o with
  | EQ => "$eq" | GT => "$gt" | GTE => "$gte" | IN => "$in"
  | NULL => "$null" | LT => "$lt" | LTE => "$lte" | BTW => "$btw"
  | ILIKE => "$ilike" | SW => "$sw" | CONTAINS => "$contains"
  end.

Definition is_NULL (o : t) : bool :=
  match o with NULL => true | _ => false end.
End FilterOperator.

Module FilterSuffix.
Inductive t : Type := NOT.
Definition to_string (s : t) : string := match s with NOT => "$not" end.
End FilterSuffix.

Module FilterComparator.
Inductive t : Type := AND | OR.
Definition to_string (c : t) : string :=
  match c with AND => "$and" | OR => "$or" end.
Definition is_AND (c : t) : bool := match c with AND => true | OR => false end.
End FilterComparator.

(** [string | string[]], the value type of [PaginateParamsRaw] and of the
    builder's filter dictionary. *)
Inductive param_value : Type :=
  | Single (s : string)
  | Many (l : list string).

(** ** Objects used as dictionaries *)

Module Dict.
Section Dict.
Context {V : Type}.

(** [o[k]] restricted to own properties (the inherited ones are in
    [Obj.read] below). *)
Fixpoint get (k : string) (o : list (string * V)) : option V :=
  match o with
  | [] => None
  | (k', v) :: r => if String.eqb k' k then Some v else get k r
  end.

(** [o[k] = v]: an existing property keeps its place, a new one goes
    last.  This is the enumeration order of an object for every key that
    is not an array index; [Obj.set] below places those as well. *)
Fixpoint set (k : string) (v : V) (o : list (string * V)) : list (string * V) :=
  match o with
  | [] => [(k, v)]
  | (k', v') :: r =>
      if String.eqb k' k then (k, v) :: r else (k', v') :: set k v r
  end.

Definition keys (o : list (string * V)) : list string := map fst o.
End Dict.

(** Names every object literal inherits from [Object.prototype]: reading
    [o[k]] for one of them yields the inherited member when [o] has no own
    property [k]. *)
Definition inherited (k : string) : bool :=
  existsb (String.eqb k)
    ["constructor"; "__proto__"; "hasOwnProperty"; "isPrototypeOf";
     "propertyIsEnumerable"; "toLocaleString"; "toString"; "valueOf";
     "__defineGetter__"; "__defineSetter__"; "__lookupGetter__";
     "__lookupSetter__"].
End Dict.

(** [PaginateParamsRaw = Record<string, string | string[]>]. *)
Definition PaginateParamsRaw : Type := list (string * param_value).

(** ** src/lib/filter.ts *)

Module Filter.

(** A [string | number] argument. *)
Inductive scalar : Type :=
  | Str (s : string)
  | Num (n : Z).

Definition String_ (x : scalar) : string :=
  match x with
  | Str s => s
  | Num n => JS.String_ n
  end.

(** The [value] field of the options: a scalar or an array. *)
Inductive token_value : Type :=
  | Scalar (x : scalar)
  | Array (xs : list scalar).

Record FilterTokenOptions : Type := {
  comparator : option FilterComparator.t;
  suffix : option FilterSuffix.t;
  operator : FilterOperator.t;
  value : option token_value   (* [None]: undefined or null *)
}.

Definition SEP : string := ":".

Definition buildFilterToken (options : FilterTokenOptions) : string :=
  let parts : list string := [] in
  let parts :=
    match comparator options with
    | Some c =>
        if negb (FilterComparator.is_AND c)
        then parts ++ [FilterComparator.to_string c] else parts
    | None => parts
    end in
  let parts :=
    match suffix options with
    | Some s => parts ++ [FilterSuffix.to_string s]
    | None => parts
    end in
  let parts := parts ++ [FilterOperator.to_string (operator options)] in
  if FilterOperator.is_NULL (operator options) then JS.join SEP parts
  else
    match value options with
    | Some (Array xs) => JS.join SEP (parts ++ [JS.join "," (map String_ xs)])
    | Some (Scalar x) => JS.join SEP (parts ++ [String_ x])
    | None => JS.join SEP parts
    end.

Definition simple (op : FilterOperator.t) (v : option token_value) : FilterTokenOptions :=
  {| comparator := None; suffix := None; operator := op; value := v |}.

Definition eq (v : scalar) : string :=
  buildFilterToken (simple FilterOperator.EQ (Some (Scalar v))).
Definition gt (v : Z) : string :=
  buildFilterToken (simple FilterOperator.GT (Some (Scalar (Num v)))).
Definition gte (v : Z) : string :=
  buildFilterToken (simple FilterOperator.GTE (Some (Scalar (Num v)))).
Definition lt (v : Z) : string :=
  buildFilterToken (simple FilterOperator.LT (Some (Scalar (Num v)))).
Definition lte (v : Z) : string :=
  buildFilterToken (simple FilterOperator.LTE (Some (Scalar (Num v)))).
Definition inOp (values : list scalar) : string :=
  buildFilterToken
    (simple FilterOperator.IN (Some (Scalar (Str (JS.join "," (map String_ values)))))).
Definition nullOp : string :=
  buildFilterToken (simple FilterOperator.NULL None).
Definition btw (min max : Z) : string :=
  buildFilterToken (simple FilterOperator.BTW (Some (Array [Num min; Num max]))).
Definition ilike (v : string) : string :=
  buildFilterToken (simple FilterOperator.ILIKE (Some (Scalar (Str v)))).
Definition sw (v : string) : string :=
  buildFilterToken (simple FilterOperator.SW (Some (Scalar (Str v)))).
Definition contains (values : list scalar) : string :=
  buildFilterToken
    (simple FilterOperator.CONTAINS (Some (Scalar (Str (JS.join "," (map String_ values)))))).
Definition not (token : string) : string :=
  FilterSuffix.to_string FilterSuffix.NOT +:+ SEP +:+ token.
Definition or (token : string) : string :=
  FilterComparator.to_string FilterComparator.OR +:+ SEP +:+ token.

End Filter.

(** ** src/lib/query-string.ts *)

(** [s !== ''] *)
Definition nonempty (s : string) : bool := negb (String.eqb s "").

Module QueryString.

Definition query_pair (key v : string) : string :=
  JS.encodeURIComponent key +:+ "=" +:+ JS.encodeURIComponent v.

(** The body of the outer [for] loop: [pairs] after the entry [(key, val)]. *)
Definition push_entry (pairs : list string) (entry : string * param_value) : list string :=
  let '(key, val) := entry in
  match val with
  | Many vs =>
      fold_left (fun pairs v => if nonempty v then pairs ++ [query_pair key v] else pairs)
                vs pairs
  | Single v => if nonempty v then pairs ++ [query_pair key v] else pairs
  end.

(** [toQueryString(params)]; the entries of [params] are strings or arrays
    of strings, so the tests against [undefined] and [null] never fire. *)
Definition toQueryString (params : PaginateParamsRaw) : string :=
  let pairs := fold_left push_entry params [] in
  match pairs with
  | [] => ""
  | _ :: _ => "?" +:+ JS.join "&" pairs
  end.

End QueryString.

(** ** src/lib/builder.ts *)

(** [SortDirection] is ['ASC' | 'DESC'] for the type checker and a string at
    run time ([fromQueryString] stores whatever follows the last colon). *)
Definition SortDirection : Type := string.
Definition ASC : SortDirection := "ASC".
Definition DESC : SortDirection := "DESC".

Module PaginateQueryBuilder.

(** The private fields; an absent optional field is [None]. *)
Record t : Type := mk {
  _page : option Z;
  _limit : option Z;
  _sortBy : list (string * SortDirection);
  _search : option string;
  _searchBy : list string;
  _select : list string;
  _filter : list (string * param_value);
  _cursor : option string;
  _withDeleted : option bool
}.

(** [new PaginateQueryBuilder()]. *)
Definition new : t :=
  mk None None [] None [] [] [] None None.

Definition page (n : Z) (b : t) : t :=
  mk (Some n) (_limit b) (_sortBy b) (_search b) (_searchBy b) (_select b)
     (_filter b) (_cursor b) (_withDeleted b).

Definition limit (n : Z) (b : t) : t :=
  mk (_page b) (Some n) (_sortBy b) (_search b) (_searchBy b) (_select b)
     (_filter b) (_cursor b) (_withDeleted b).

Definition sortBy (column : string) (direction : SortDirection) (b : t) : t :=
  mk (_page b) (_limit b) (_sortBy b ++ [(column, direction)]) (_search b)
     (_searchBy b) (_select b) (_filter b) (_cursor b) (_withDeleted b).

Definition search (term : string) (b : t) : t :=
  mk (_page b) (_limit b) (_sortBy b) (Some term) (_searchBy b) (_select b)
     (_filter b) (_cursor b) (_withDeleted b).

Definition searchBy (columns : list string) (b : t) : t :=
  mk (_page b) (_limit b) (_sortBy b) (_search b) columns (_select b)
     (_filter b) (_cursor b) (_withDeleted b).

Definition select (columns : list string) (b : t) : t :=
  mk (_page b) (_limit b) (_sortBy b) (_search b) (_searchBy b) columns
     (_filter b) (_cursor b) (_withDeleted b).

(** Truthiness of [this._filter[key]]: [undefined] and the empty string
    are falsy, every array is truthy. *)
Definition truthy (existing : option param_value) : bool :=
  match existing with
  | None => false
  | Some (Single s) => nonempty s
  | Some (Many _) => true
  end.

(** [Array.isArray(x) ? x : [x]]. *)
Definition as_array (x : param_value) : list string :=
  match x with
  | Many l => l
  | Single s => [s]
  end.

(** The value [filter] stores under the column.  [existing] is the own
    property, which is what [this._filter[key]] finds for every column that
    is not named like a member of [Object.prototype]; for those names see
    [Obj.filter] below. *)
Definition filter_entry (existing : option param_value) (token : param_value) : param_value :=
  let next := as_array token in
  match existing with
  | Some e =>
      if truthy existing then Many (as_array e ++ next)
      else match next with
           | [x] => Single x
           | _ => Many next
           end
  | None =>
      match next with
      | [x] => Single x
      | _ => Many next
      end
  end.

Definition filter (column : string) (token : param_value) (b : t) : t :=
  let key := column in
  let existing := Dict.get key (_filter b) in
  mk (_page b) (_limit b) (_sortBy b) (_search b) (_searchBy b) (_select b)
     (Dict.set key (filter_entry existing token) (_filter b))
     (_cursor b) (_withDeleted b).

Definition cursor (c : string) (b : t) : t :=
  mk (_page b) (_limit b) (_sortBy b) (_search b) (_searchBy b) (_select b)
     (_filter b) (Some c) (_withDeleted b).

Definition withDeleted (value : bool) (b : t) : t :=
  mk (_page b) (_limit b) (_sortBy b) (_search b) (_searchBy b) (_select b)
     (_filter b) (_cursor b) (Some value).

(** [clone()], on values: every container is rebuilt element by element.
    The reference-level account of [clone] is in module [Heap] below. *)
Definition clone (b : t) : t :=
  mk (_page b) (_limit b) (map (fun '(col, dir) => (col, dir)) (_sortBy b))
     (_search b) (_searchBy b) (_select b)
     (map (fun '(k, v) => (k, match v with Many l => Many l | Single s => Single s end))
          (_filter b))
     (_cursor b) (_withDeleted b).

Definition sort_rule_string (rule : string * SortDirection) : string :=
  let '(col, dir) := rule in col +:+ ":" +:+ dir.

Definition set_filters (raw : PaginateParamsRaw) (filters : list (string * param_value))
  : PaginateParamsRaw :=
  fold_left (fun raw '(column, value) => Dict.set ("filter." +:+ column) value raw)
            filters raw.

Definition toParams (b : t) : PaginateParamsRaw :=
  let raw : PaginateParamsRaw := [] in
  let raw := match _page b with
             | Some n => Dict.set "page" (Single (JS.String_ n)) raw
             | None => raw
             end in
  let raw := match _limit b with
             | Some n => Dict.set "limit" (Single (JS.String_ n)) raw
             | None => raw
             end in
  let raw := match _sortBy b with
             | [] => raw
             | _ :: _ => Dict.set "sortBy" (Many (map sort_rule_string (_sortBy b))) raw
             end in
  let raw := match _search b with
             | Some s => if nonempty s then Dict.set "search" (Single s) raw else raw
             | None => raw
             end in
  let raw := match _searchBy b with
             | [] => raw
             | _ :: _ => Dict.set "searchBy" (Many (_searchBy b)) raw
             end in
  let raw := match _select b with
             | [] => raw
             | _ :: _ => Dict.set "select" (Single (JS.join "," (_select b))) raw
             end in
  let raw := match _cursor b with
             | Some c => Dict.set "cursor" (Single c) raw
             | None => raw
             end in
  let raw := match _withDeleted b with
             | Some true => Dict.set "withDeleted" (Single "true") raw
             | _ => raw
             end in
  set_filters raw (_filter b).

(** [URLSearchParams]: an ordered list of name/value pairs; [append] adds
    one at the end. *)
Definition URLSearchParams : Type := list (string * string).

Definition append_entry (usp : URLSearchParams) (entry : string * param_value)
  : URLSearchParams :=
  let '(key, val) := entry in
  match val with
  | Many vs => fold_left (fun usp v => usp ++ [(key, v)]) vs usp
  | Single v => usp ++ [(key, v)]
  end.

Definition toURLSearchParams (b : t) : URLSearchParams :=
  fold_left append_entry (toParams b) [].

Definition toQueryString (b : t) : string :=
  QueryString.toQueryString (toParams b).

(** [createPaginateParams()] without an input object. *)
Definition createPaginateParams : t := new.

End PaginateQueryBuilder.

Module B := PaginateQueryBuilder.

(** The public mutators, as calls. *)
Inductive mutation : Type :=
  | Page (n : Z)
  | Limit (n : Z)
  | SortBy (column : string) (direction : SortDirection)
  | Search (term : string)
  | SearchBy (columns : list string)
  | Select (columns : list string)
  | Filter (column : string) (token : param_value)
  | Cursor (c : string)
  | WithDeleted (value : bool).

Definition apply (m : mutation) (b : B.t) : B.t :=
  match m with
  | Page n => B.page n b
  | Limit n => B.limit n b
  | SortBy c d => B.sortBy c d b
  | Search t => B.search t b
  | SearchBy cs => B.searchBy cs b
  | Select cs => B.select cs b
  | Filter c t => B.filter c t b
  | Cursor c => B.cursor c b
  | WithDeleted v => B.withDeleted v b
  end.

(** The state reached from [b] by a chain of calls. *)
Definition run (ms : list mutation) (b : B.t) : B.t :=
  fold_left (fun b m => apply m b) ms b.

(** The revision of [toParams] in src/lib/builder.ts, which differs in the
    [withDeleted] line only: it serialises the flag whenever it is
    defined. *)
Module Legacy.
Import PaginateQueryBuilder.

Definition String_bool (v : bool) : string := if v then "true" else "false".

Definition toParams (b : t) : PaginateParamsRaw :=
  let raw : PaginateParamsRaw := [] in
  let raw := match _page b with
             | Some n => Dict.set "page" (Single (JS.String_ n)) raw
             | None => raw
             end in
  let raw := match _limit b with
             | Some n => Dict.set "limit" (Single (JS.String_ n)) raw
             | None => raw
             end in
  let raw := match _sortBy b with
             | [] => raw
             | _ :: _ => Dict.set "sortBy" (Many (map sort_rule_string (_sortBy b))) raw
             end in
  let raw := match _search b with
             | Some s => if nonempty s then Dict.set "search" (Single s) raw else raw
             | None => raw
             end in
  let raw := match _searchBy b with
             | [] => raw
             | _ :: _ => Dict.set "searchBy" (Many (_searchBy b)) raw
             end in
  let raw := match _select b with
             | [] => raw
             | _ :: _ => Dict.set "select" (Single (JS.join "," (_select b))) raw
             end in
  let raw := match _cursor b with
             | Some c => Dict.set "cursor" (Single c) raw
             | None => raw
             end in
  let raw := match _withDeleted b with
             | Some v => Dict.set "withDeleted" (Single (String_bool v)) raw
             | None => raw
             end in
  set_filters raw (_filter b).
End Legacy.

(** ** src/lib/parse.ts *)

Inductive error : Type :=
  | URIError    (* thrown by [decodeURIComponent] *)
  | TypeError.  (* calling a member that is not a function *)

Inductive result (A : Type) : Type :=
  | Ok (a : A)
  | Throw (e : error).
Arguments Ok {A} a.
Arguments Throw {A} e.

#[global] Instance result_bind : MBind result :=
  fun A B (k : A -> result B) (r : result A) =>
    match r with
    | Ok a => k a
    | Throw e => Throw e
    end.

Module Parse.
Import PaginateQueryBuilder.

(** The variables the loop of [fromQueryString] updates. *)
Record state : Type := mk_state {
  builder : t;
  searchByValues : list string;
  filterMap : list (string * list string)
}.

Definition with_builder (f : t -> t) (st : state) : state :=
  mk_state (f (builder st)) (searchByValues st) (filterMap st).

Definition decodeURIComponent (s : string) : result string :=
  match JS.decodeURIComponent s with
  | Some t => Ok t
  | None => Throw URIError
  end.

(** [if (!filterMap[col]) filterMap[col] = []; filterMap[col].push(val)].
    [filterMap] is an object literal: for a column named like a member of
    [Object.prototype] the read finds that member, nothing is assigned,
    and calling its [push] throws. *)
Definition push_filter (col val : string) (st : state) : result state :=
  match Dict.get col (filterMap st) with
  | Some vs =>
      Ok (mk_state (builder st) (searchByValues st)
                   (Dict.set col (vs ++ [val]) (filterMap st)))
  | None =>
      if Dict.inherited col then Throw TypeError
      else Ok (mk_state (builder st) (searchByValues st)
                        (Dict.set col ([] ++ [val]) (filterMap st)))
  end.

(** The dispatch on a decoded key. *)
Definition dispatch (key val : string) (st : state) : result state :=
  if String.eqb key "page" then
    match JS.parseInt val with
    | Some n => Ok (with_builder (page n) st)
    | None => Ok st
    end
  else if String.eqb key "limit" then
    match JS.parseInt val with
    | Some n => Ok (with_builder (limit n) st)
    | None => Ok st
    end
  else if String.eqb key "sortBy" then
    match JS.lastIndexOf ":" val with
    | Some colonIdx =>
        let col := JS.slice_to colonIdx val in
        let dir := JS.slice_from (S colonIdx) val in
        Ok (with_builder (sortBy col dir) st)
    | None => Ok st
    end
  else if String.eqb key "search" then Ok (with_builder (search val) st)
  else if String.eqb key "searchBy" then
    Ok (mk_state (builder st) (searchByValues st ++ [val]) (filterMap st))
  else if String.eqb key "select" then
    Ok (with_builder (select (JS.split "," val)) st)
  else if String.eqb key "cursor" then Ok (with_builder (cursor val) st)
  else if String.eqb key "withDeleted" then
    Ok (with_builder (withDeleted (String.eqb val "true")) st)
  else if JS.startsWith "filter." key then
    let col := JS.slice_from (String.length "filter.") key in
    push_filter col val st
  else Ok st.

(** One iteration of the loop over [queryStr.split('&')]. *)
Definition step (st : state) (pair : string) : result state :=
  if negb (nonempty pair) then Ok st
  else
    match JS.indexOf "=" pair with
    | None => Ok st
    | Some eqIdx =>
        key ← decodeURIComponent (JS.slice_to eqIdx pair);
        val ← decodeURIComponent (JS.slice_from (S eqIdx) pair);
        dispatch key val st
    end.

Fixpoint loop (st : state) (pairs : list string) : result state :=
  match pairs with
  | [] => Ok st
  | p :: rest => st' ← step st p; loop st' rest
  end.

(** What follows the loop: the collected [searchBy] values, then one
    [filter] call per collected column. *)
Definition finish (st : state) : t :=
  let b := builder st in
  let b := match searchByValues st with
           | [] => b
           | _ :: _ => searchBy (searchByValues st) b
           end in
  fold_left (fun b '(col, values) => filter col (Many values) b) (filterMap st) b.

Definition fromQueryString (qs : string) : result t :=
  let builder := new in
  let queryStr := if JS.startsWith "?" qs then JS.slice_from 1 qs else qs in
  if negb (nonempty queryStr) then Ok builder
  else
    st ← loop (mk_state builder [] []) (JS.split "&" queryStr);
    Ok (finish st).

End Parse.

Definition fromQueryString : string -> result PaginateQueryBuilder.t :=
  Parse.fromQueryString.

(** ** src/lib/query-string.ts, with its error path

    [encodeURIComponent] throws a URIError when its argument holds a
    surrogate code unit outside a pair; [toQueryString] has no handler, so
    the error leaves it.  Among the byte strings that represent a
    JavaScript string those are exactly the ones that are not well-formed
    UTF-8. *)

Module Throwing.

Definition encodeURIComponent (s : string) : result string :=
  if JS.well_formed s then Ok (JS.encodeURIComponent s) else Throw URIError.

(** The template literal: the key is encoded first. *)
Definition query_pair (key v : string) : result string :=
  k ← encodeURIComponent key;
  e ← encodeURIComponent v;
  Ok (k +:+ "=" +:+ e).

(** The inner loop, over the elements of an array value. *)
Fixpoint push_values (key : string) (vs pairs : list string) : result (list string) :=
  match vs with
  | [] => Ok pairs
  | v :: rest =>
      if nonempty v then p ← query_pair key v; push_values key rest (pairs ++ [p])
      else push_values key rest pairs
  end.

Definition push_entry (pairs : list string) (entry : string * param_value)
  : result (list string) :=
  let '(key, val) := entry in
  match val with
  | Many vs => push_values key vs pairs
  | Single v => if nonempty v then p ← query_pair key v; Ok (pairs ++ [p]) else Ok pairs
  end.

(** The outer loop, over the entries of the param map. *)
Fixpoint push_entries (params : PaginateParamsRaw) (pairs : list string)
  : result (list string) :=
  match params with
  | [] => Ok pairs
  | entry :: rest => pairs ← push_entry pairs entry; push_entries rest pairs
  end.

Definition toQueryString (params : PaginateParamsRaw) : result string :=
  pairs ← push_entries params [];
  Ok match pairs with
     | [] => ""
     | _ :: _ => "?" +:+ JS.join "&" pairs
     end.

End Throwing.

(** ** The filter dictionary as the object it is

    [this._filter] is an object literal.  [this._filter[key]] finds an own
    property or, when there is none, the member of [Object.prototype] named
    [key], which is a function or, for [__proto__], the prototype object:
    truthy, and no array.  [this._filter[key] = v] creates or overwrites an
    own property, except for [__proto__], whose setter makes an object [v]
    the prototype and ignores a string.  [Object.entries] lists the own
    properties with the array indices first, in ascending order, then the
    other keys in the order they were created. *)

Module Obj.

(** [k] as an array index: the decimal spelling, without sign or leading
    zero, of an integer below 2^32 - 1. *)
Definition array_index (k : string) : option N :=
  match JS.scan_digits None k with
  | Some n =>
      if String.eqb k (JS.String_ (Z.of_N n)) && (n <? 4294967295) then Some n else None
  | None => None
  end.

(** [k] is enumerated before [k'] whenever both are own properties. *)
Definition before (k k' : string) : bool :=
  match array_index k, array_index k' with
  | Some i, Some j => i <? j
  | Some _, None => true
  | None, _ => false
  end.

Section Keys.
Context {V : Type}.

(** A new own property, at its place in the enumeration order. *)
Fixpoint insert (k : string) (v : V) (o : list (string * V)) : list (string * V) :=
  match o with
  | [] => [(k, v)]
  | (k', v') :: r => if before k k' then (k, v) :: o else (k', v') :: insert k v r
  end.

(** [o[k] = v] for a key without a setter. *)
Definition set (k : string) (v : V) (o : list (string * V)) : list (string * V) :=
  match Dict.get k o with
  | Some _ => Dict.set k v o
  | None => insert k v o
  end.
End Keys.

(** What an array stored by [filter] holds: tokens and, after the read of
    an inherited name, the member of [Object.prototype] of that name. *)
Inductive element : Type :=
  | Token (s : string)
  | Member (name : string).

Inductive value : Type :=
  | Text (s : string)
  | Elements (l : list element).

(** The own properties in enumeration order, and whether the prototype is
    still [Object.prototype]. *)
Record t : Type := mk {
  own : list (string * value);
  plain : bool
}.

(** [{}] *)
Definition empty : t := mk [] true.

Inductive found : Type :=
  | Undefined
  | Own (v : value)
  | Inherited (name : string).

(** [o[k]].  Once an array has become the prototype, what a read of a name
    that is no own property finds depends on the members of
    [Array.prototype]; the model stops there ([None]). *)
Definition read (k : string) (o : t) : option found :=
  match Dict.get k (own o) with
  | Some v => Some (Own v)
  | None =>
      if plain o then Some (if Dict.inherited k then Inherited k else Undefined)
      else None
  end.

(** [o[k] = v] *)
Definition write (k : string) (v : value) (o : t) : t :=
  if String.eqb k "__proto__" then
    match v with
    | Elements _ => mk (own o) false
    | Text _ => o
    end
  else mk (set k v (own o)) (plain o).

(** The value [filter] assigns: [existing ? [...(Array.isArray(existing) ?
    existing : [existing]), ...next] : next.length === 1 ? next[0] : next]. *)
Definition filter_entry (existing : found) (token : param_value) : value :=
  let next := map Token (PaginateQueryBuilder.as_array token) in
  let fresh := match PaginateQueryBuilder.as_array token with
               | [x] => Text x
               | _ => Elements next
               end in
  match existing with
  | Own (Elements l) => Elements (l ++ next)
  | Own (Text s) => if nonempty s then Elements ([Token s] ++ next) else fresh
  | Inherited name => Elements ([Member name] ++ next)
  | Undefined => fresh
  end.

(** [filter(column, token)], on the filter dictionary. *)
Definition filter (column : string) (token : param_value) (o : t) : option t :=
  let key := column in
  existing ← read key o;
  Some (write key (filter_entry existing token) o).

(** A value-level entry and a value-level dictionary, as objects. *)
Definition of_value (v : param_value) : value :=
  match v with
  | Single s => Text s
  | Many l => Elements (map Token l)
  end.

Definition of_dict (fs : list (string * param_value)) : t :=
  mk (map (fun e => (fst e, of_value (snd e))) fs) true.

(** [toParams()] of a builder whose filter dictionary is [o] and whose other
    fields are those of [b]: the eight assignments, then the loop over
    [Object.entries(this._filter)]. *)
Definition toParams (b : PaginateQueryBuilder.t) (o : t) : list (string * value) :=
  let raw :=
    map (fun e => (fst e, of_value (snd e)))
        (PaginateQueryBuilder.toParams
           (PaginateQueryBuilder.mk
              (PaginateQueryBuilder._page b) (PaginateQueryBuilder._limit b)
              (PaginateQueryBuilder._sortBy b) (PaginateQueryBuilder._search b)
              (PaginateQueryBuilder._searchBy b) (PaginateQueryBuilder._select b) []
              (PaginateQueryBuilder._cursor b) (PaginateQueryBuilder._withDeleted b))) in
  fold_left (fun raw '(column, v) => set ("filter." +:+ column) v raw) (own o) raw.


End Obj.

(** ** Numbers the representation is exact for *)

(** [Number.isSafeInteger(n)], for an integer [n]. *)
Definition safe_integer (n : Z) : bool := (Z.abs n <=? 9007199254740991)%Z.

(** ** Builders as objects: [clone]

    Everything above treats a builder as a value.  [clone] is about
    identity: the builder itself, its sort-rule array, its filter object
    and the string arrays it holds are objects, [sortBy] pushes onto the
    array in place, [filter] assigns a property of the filter object in
    place and may keep the very array it was handed.  This module puts
    those objects in a store and gives each method as a store
    transformer. *)

Module Heap.

Abbreviation loc := nat.

(** An entry of the filter object: a string, or a reference to an array
    of strings. *)
Inductive fvalue : Type :=
  | FStr (s : string)
  | FRef (r : loc).

(** The fields of a builder object; the four containers are references. *)
Record fields : Type := mk_fields {
  _page : option Z;
  _limit : option Z;
  _sortBy : loc;
  _search : option string;
  _searchBy : loc;
  _select : loc;
  _filter : loc;
  _cursor : option string;
  _withDeleted : option bool
}.

Inductive cell : Type :=
  | Builder (f : fields)
  | SortRules (rules : list (string * SortDirection))
  | Strings (l : list string)
  | Filters (entries : list (string * fvalue)).

Abbreviation heap := (list cell).

(** A fresh object. *)
Definition alloc (c : cell) (h : heap) : loc * heap := (length h, h ++ [c]).

Definition read_builder (h : heap) (l : loc) : option fields :=
  match h !! l with Some (Builder f) => Some f | _ => None end.
Definition read_rules (h : heap) (l : loc) : option (list (string * SortDirection)) :=
  match h !! l with Some (SortRules rs) => Some rs | _ => None end.
Definition read_strings (h : heap) (l : loc) : option (list string) :=
  match h !! l with Some (Strings ss) => Some ss | _ => None end.
Definition read_filters (h : heap) (l : loc) : option (list (string * fvalue)) :=
  match h !! l with Some (Filters es) => Some es | _ => None end.

(** [new PaginateQueryBuilder()]: the field initialisers allocate the
    three arrays and the filter object. *)
Definition new (h : heap) : loc * heap :=
  let '(s, h) := alloc (SortRules []) h in
  let '(sb, h) := alloc (Strings []) h in
  let '(sel, h) := alloc (Strings []) h in
  let '(fl, h) := alloc (Filters []) h in
  alloc (Builder (mk_fields None None s None sb sel fl None None)) h.

Definition set_page (v : option Z) (f : fields) : fields :=
  mk_fields v (_limit f) (_sortBy f) (_search f) (_searchBy f) (_select f)
            (_filter f) (_cursor f) (_withDeleted f).
Definition set_limit (v : option Z) (f : fields) : fields :=
  mk_fields (_page f) v (_sortBy f) (_search f) (_searchBy f) (_select f)
            (_filter f) (_cursor f) (_withDeleted f).
Definition set_search (v : option string) (f : fields) : fields :=
  mk_fields (_page f) (_limit f) (_sortBy f) v (_searchBy f) (_select f)
            (_filter f) (_cursor f) (_withDeleted f).
Definition set_searchBy (r : loc) (f : fields) : fields :=
  mk_fields (_page f) (_limit f) (_sortBy f) (_search f) r (_select f)
            (_filter f) (_cursor f) (_withDeleted f).
Definition set_select (r : loc) (f : fields) : fields :=
  mk_fields (_page f) (_limit f) (_sortBy f) (_search f) (_searchBy f) r
            (_filter f) (_cursor f) (_withDeleted f).
Definition set_cursor (v : option string) (f : fields) : fields :=
  mk_fields (_page f) (_limit f) (_sortBy f) (_search f) (_searchBy f) (_select f)
            (_filter f) v (_withDeleted f).
Definition set_withDeleted (v : option bool) (f : fields) : fields :=
  mk_fields (_page f) (_limit f) (_sortBy f) (_search f) (_searchBy f) (_select f)
            (_filter f) (_cursor f) v.

(** [this._x = v] *)
Definition assign (g : fields -> fields) (this : loc) (h : heap) : option heap :=
  f ← read_builder h this;
  Some (<[this := Builder (g f)]> h).

Definition page (n : Z) := assign (set_page (Some n)).
Definition limit (n : Z) := assign (set_limit (Some n)).
Definition search (term : string) := assign (set_search (Some term)).
Definition cursor (c : string) := assign (set_cursor (Some c)).
Definition withDeleted (value : bool) := assign (set_withDeleted (Some value)).

(** [this._sortBy.push([column, direction])] *)
Definition sortBy (column : string) (direction : SortDirection) (this : loc) (h : heap)
  : option heap :=
  f ← read_builder h this;
  rs ← read_rules h (_sortBy f);
  Some (<[_sortBy f := SortRules (rs ++ [(column, direction)])]> h).

(** [this._searchBy = columns.slice()]: [columns] is the caller's array. *)
Definition searchBy (columns : loc) (this : loc) (h : heap) : option heap :=
  f ← read_builder h this;
  l ← read_strings h columns;
  let '(r, h) := alloc (Strings l) h in
  Some (<[this := Builder (set_searchBy r f)]> h).

Definition select (columns : loc) (this : loc) (h : heap) : option heap :=
  f ← read_builder h this;
  l ← read_strings h columns;
  let '(r, h) := alloc (Strings l) h in
  Some (<[this := Builder (set_select r f)]> h).

(** The [token] argument of [filter]: a string or the caller's array. *)
Inductive token : Type :=
  | TStr (s : string)
  | TRef (r : loc).

Definition truthy (v : fvalue) : bool :=
  match v with
  | FStr s => nonempty s
  | FRef _ => true
  end.

Definition as_array (h : heap) (v : fvalue) : option (list string) :=
  match v with
  | FStr s => Some [s]
  | FRef r => read_strings h r
  end.

(** [next.length === 1 ? next[0] : next], where [next] is the token array
    itself when an array was passed. *)
Definition single_or_same (tok : token) (next : list string) : fvalue :=
  match next with
  | [x] => FStr x
  | _ => match tok with
         | TRef r => FRef r
         | TStr s => FStr s
         end
  end.

(** [filter(column, token)], for a column that is not named like a member
    of [Object.prototype] (as [PaginateQueryBuilder.filter] above). *)
Definition filter (column : string) (tok : token) (this : loc) (h : heap) : option heap :=
  f ← read_builder h this;
  es ← read_filters h (_filter f);
  next ← match tok with
          | TStr s => Some [s]
          | TRef r => read_strings h r
          end;
  match Dict.get column es with
  | Some e =>
      if truthy e then
        ex ← as_array h e;
        let '(r, h) := alloc (Strings (ex ++ next)) h in
        Some (<[_filter f := Filters (Dict.set column (FRef r) es)]> h)
      else
        Some (<[_filter f := Filters (Dict.set column (single_or_same tok next) es)]> h)
  | None =>
      Some (<[_filter f := Filters (Dict.set column (single_or_same tok next) es)]> h)
  end.

(** [Object.entries(this._filter).map(([k, v]) => [k, Array.isArray(v) ? [...v] : v])] *)
Fixpoint copy_entries (es : list (string * fvalue)) (h : heap)
  : option (list (string * fvalue) * heap) :=
  match es with
  | [] => Some ([], h)
  | (k, FStr s) :: rest =>
      '(rest', h) ← copy_entries rest h;
      Some ((k, FStr s) :: rest', h)
  | (k, FRef r) :: rest =>
      l ← read_strings h r;
      let '(r', h) := alloc (Strings l) h in
      '(rest', h) ← copy_entries rest h;
      Some ((k, FRef r') :: rest', h)
  end.

(** [clone()]; the nine assignments to the fresh object are one store. *)
Definition clone (this : loc) (h : heap) : option (loc * heap) :=
  f ← read_builder h this;
  let '(copy, h) := new h in
  rs ← read_rules h (_sortBy f);
  let '(r1, h) := alloc (SortRules (map (fun '(col, dir) => (col, dir)) rs)) h in
  sb ← read_strings h (_searchBy f);
  let '(r2, h) := alloc (Strings sb) h in
  sel ← read_strings h (_select f);
  let '(r3, h) := alloc (Strings sel) h in
  es ← read_filters h (_filter f);
  '(es', h) ← copy_entries es h;
  let '(r4, h) := alloc (Filters es') h in
  Some (copy,
        <[copy := Builder (mk_fields (_page f) (_limit f) r1 (_search f) r2 r3 r4
                                     (_cursor f) (_withDeleted f))]> h).

(** The value a builder object stands for: every reference followed. *)
Definition deref_value (h : heap) (v : fvalue) : option param_value :=
  match v with
  | FStr s => Some (Single s)
  | FRef r => l ← read_strings h r; Some (Many l)
  end.

Fixpoint deref_entries (h : heap) (es : list (string * fvalue))
  : option (list (string * param_value)) :=
  match es with
  | [] => Some []
  | (k, v) :: rest =>
      pv ← deref_value h v;
      rest' ← deref_entries h rest;
      Some ((k, pv) :: rest')
  end.

Definition value_of (h : heap) (this : loc) : option PaginateQueryBuilder.t :=
  f ← read_builder h this;
  rs ← read_rules h (_sortBy f);
  sb ← read_strings h (_searchBy f);
  sel ← read_strings h (_select f);
  es ← read_filters h (_filter f);
  fl ← deref_entries h es;
  Some (PaginateQueryBuilder.mk (_page f) (_limit f) rs (_search f) sb sel fl
                                (_cursor f) (_withDeleted f)).

(** [toParams()], as the param map with its arrays read out. *)
Definition toParams (this : loc) (h : heap) : option PaginateParamsRaw :=
  b ← value_of h this; Some (PaginateQueryBuilder.toParams b).

(** A call of a public mutator. *)
Inductive call : Type :=
  | Page (n : Z)
  | Limit (n : Z)
  | SortBy (column : string) (direction : SortDirection)
  | Search (term : string)
  | SearchBy (columns : loc)
  | Select (columns : loc)
  | Filter (column : string) (tok : token)
  | Cursor (c : string)
  | WithDeleted (value : bool).

Definition step (m : call) (this : loc) (h : heap) : option heap :=
  match m with
  | Page n => page n this h
  | Limit n => limit n this h
  | SortBy c d => sortBy c d this h
  | Search t => search t this h
  | SearchBy cs => searchBy cs this h
  | Select cs => select cs this h
  | Filter c t => filter c t this h
  | Cursor c => cursor c this h
  | WithDeleted v => withDeleted v this h
  end.

(** A run of calls, each on the builder it names. *)
Fixpoint run (calls : list (loc * call)) (h : heap) : option heap :=
  match calls with
  | [] => Some h
  | (this, m) :: rest => h' ← step m this h; run rest h'
  end.

End Heap.

(** ** [createPaginateParams(input)]

    The factory of the current revision takes an optional
    [PaginateParamsInput] (src/lib/types.ts) and replays it on a fresh
    builder. *)

(** The [sortBy] field of the input: an array of rules, or one rule given
    as a bare two-element tuple.  The factory tells them apart by
    [Array.isArray(input.sortBy[0])]. *)
Inductive sort_input : Type :=
  | Rules (entries : list (string * SortDirection))
  | Rule (col : string) (dir : SortDirection).

Module PaginateParamsInput.
Record t : Type := mk {
  page : option Z;
  limit : option Z;
  sortBy : option sort_input;
  search : option string;
  searchBy : option (list string);
  select : option (list string);
  filter : option (list (string * param_value));
  cursor : option string;
  withDeleted : option bool
}.
End PaginateParamsInput.

Definition createPaginateParams (input : option PaginateParamsInput.t) : B.t :=
  let builder := B.new in
  match input with
  | None => builder
  | Some input =>
      let builder := match PaginateParamsInput.page input with
                     | Some n => B.page n builder
                     | None => builder
                     end in
      let builder := match PaginateParamsInput.limit input with
                     | Some n => B.limit n builder
                     | None => builder
                     end in
      let builder := match PaginateParamsInput.sortBy input with
                     | Some (Rules ((_ :: _) as entries)) =>
                         fold_left (fun b entry => B.sortBy (fst entry) (snd entry) b)
                                   entries builder
                     | Some (Rule col dir) => B.sortBy col dir builder
                     | Some (Rules []) | None => builder
                     end in
      let builder := match PaginateParamsInput.search input with
                     | Some s => B.search s builder
                     | None => builder
                     end in
      let builder := match PaginateParamsInput.searchBy input with
                     | Some cols => B.searchBy cols builder
                     | None => builder
                     end in
      let builder := match PaginateParamsInput.select input with
                     | Some cols => B.select cols builder
                     | None => builder
                     end in
      let builder := match PaginateParamsInput.cursor input with
                     | Some c => B.cursor c builder
                     | None => builder
                     end in
      let builder := match PaginateParamsInput.withDeleted input with
                     | Some v => B.withDeleted v builder
                     | None => builder
                     end in
      match PaginateParamsInput.filter input with
      | Some entries =>
          fold_left (fun b entry => B.filter (fst entry) (snd entry) b) entries builder
      | None => builder
      end
  end.

(** ** The caller's side of the store: [arr.push(x)] on an array of strings *)

Definition array_push (arr : Heap.loc) (x : string) (h : Heap.heap) : option Heap.heap :=
  l ← Heap.read_strings h arr;
  Some (<[arr := Heap.Strings (l ++ [x])]> h).

(** ** example/index.ts

    The usage example that ships with the library: a parameter builder for
    a user list and the URL its fetch goes to. *)

Module Example.

(** [s.trim()]: white space and line terminators removed at both ends. *)
Definition trimStart (s : string) : string := JS.skip_white_space (String.length s) s.

Fixpoint trimEnd (s : string) : string :=
  match s with
  | EmptyString => EmptyString
  | String c r =>
      if negb (nonempty (trimStart s)) then EmptyString else String c (trimEnd r)
  end.

Definition trim (s : string) : string := trimEnd (trimStart s).

(** [s.replace(/\/$/, '')]: one slash at the very end is dropped. *)
Fixpoint strip_final_slash (s : string) : string :=
  match s with
  | EmptyString => EmptyString
  | String c r =>
      if Ascii.eqb c "/" && negb (nonempty r) then EmptyString
      else String c (strip_final_slash r)
  end.

(** The options object of [buildUserListParams]. *)
Record options : Type := mk_options {
  page : option Z;
  limit : option Z;
  search : option string;
  sortBy : option string;
  sortDir : option SortDirection;
  role : option string;
  roleIn : option (list string)
}.

(** [x ?? d] *)
Definition or_else {A : Type} (x : option A) (d : A) : A :=
  match x with Some a => a | None => d end.

Definition buildUserListParams (options : options) : B.t :=
  let builder :=
    B.sortBy (or_else (sortBy options) "name") (or_else (sortDir options) ASC)
      (B.limit (or_else (limit options) 10%Z)
         (B.page (or_else (page options) 1%Z) B.createPaginateParams)) in
  let builder :=
    match search options with
    | Some s =>
        if nonempty (trim s)
        then B.searchBy ["name"; "email"] (B.search (trim s) builder)
        else builder
    | None => builder
    end in
  let builder :=
    match role options with
    | Some r =>
        if nonempty r then B.filter "role" (Single (Filter.eq (Filter.Str r))) builder
        else builder
    | None => builder
    end in
  let builder :=
    match roleIn options with
    | Some ((_ :: _) as roles) =>
        B.filter "role" (Single (Filter.inOp (map Filter.Str roles))) builder
    | Some [] | None => builder
    end in
  builder.

(** The [url] that [fetchUsers] requests. *)
Definition fetchUsers_url (baseUrl : string) (options : options) : string :=
  let params := buildUserListParams options in
  let queryString := B.toQueryString params in
  strip_final_slash baseUrl +:+ "/users"
  +:+ (if nonempty queryString then "?" +:+ JS.slice_from 1 queryString else "").

End Example.

(** ** example/angular/user-paginate.service.ts

    The service of the Angular example: the same parameters as the core
    example, once as a param map and once as a query string, and the URL
    it loads. *)

Module UserPaginateService.

Record UserListState : Type := mk_state {
  page : option Z;
  limit : option Z;
  search : option string;
  sortBy : option string;
  sortDir : option SortDirection;
  role : option string;
  roles : option (list string)
}.

(** The service object: its one field. *)
Record t : Type := mk { baseUrl : string }.

Definition new : t := mk "".

Definition setBaseUrl (url : string) (this : t) : t :=
  mk (Example.strip_final_slash url).

Definition getQueryParams (state : UserListState) : PaginateParamsRaw :=
  let sortBy := Example.or_else (sortBy state) "name" in
  let sortDir := Example.or_else (sortDir state) ASC in
  let builder :=
    B.sortBy sortBy sortDir
      (B.limit (Example.or_else (limit state) 10%Z)
         (B.page (Example.or_else (page state) 1%Z) B.createPaginateParams)) in
  let builder :=
    match search state with
    | Some s =>
        if nonempty (Example.trim s)
        then B.searchBy ["name"; "email"] (B.search (Example.trim s) builder)
        else builder
    | None => builder
    end in
  let builder :=
    match role state with
    | Some r =>
        if nonempty r then B.filter "role" (Single (Filter.eq (Filter.Str r))) builder
        else builder
    | None => builder
    end in
  let builder :=
    match roles state with
    | Some ((_ :: _) as roles) =>
        B.filter "role" (Single (Filter.inOp (map Filter.Str roles))) builder
    | Some [] | None => builder
    end in
  B.toParams builder.

Definition getQueryString (state : UserListState) : string :=
  let sortBy := Example.or_else (sortBy state) "name" in
  let sortDir := Example.or_else (sortDir state) ASC in
  let builder :=
    B.sortBy sortBy sortDir
      (B.limit (Example.or_else (limit state) 10%Z)
         (B.page (Example.or_else (page state) 1%Z) B.createPaginateParams)) in
  let builder :=
    match search state with
    | Some s =>
        if nonempty (Example.trim s)
        then B.searchBy ["name"; "email"] (B.search (Example.trim s) builder)
        else builder
    | None => builder
    end in
  let builder :=
    match role state with
    | Some r =>
        if nonempty r then B.filter "role" (Single (Filter.eq (Filter.Str r))) builder
        else builder
    | None => builder
    end in
  let builder :=
    match roles state with
    | Some ((_ :: _) as roles) =>
        B.filter "role" (Single (Filter.inOp (map Filter.Str roles))) builder
    | Some [] | None => builder
    end in
  B.toQueryString builder.

(** The [url] that [loadUsers] requests. *)
Definition loadUsers_url (this : t) (state : UserListState) : string :=
  let queryString := getQueryString state in
  baseUrl this +:+ "/users" +:+ (if nonempty queryString then queryString else "").

End UserPaginateService.

(** * Properties *)


(** ** The embedding on cases of the test suites *)

Example parseInt_ex1 : JS.parseInt "  -42px" = Some (-42)%Z.
Proof. reflexivity. Qed.

Example encode_ex1 : JS.encodeURIComponent "$eq:John Doe" = "%24eq%3AJohn%20Doe".
Proof. reflexivity. Qed.

Example decode_ex1 : JS.decodeURIComponent "%24eq%3AJohn%20Doe" = Some "$eq:John Doe".
Proof. reflexivity. Qed.

Example decode_ex2 : JS.decodeURIComponent "%E2%82%AC" = Some (String (ascii_of_N 226) (String (ascii_of_N 130) (String (ascii_of_N 172) EmptyString))).
Proof. reflexivity. Qed.

Example decode_ex3 : JS.decodeURIComponent "%C0%80" = None.
Proof. reflexivity. Qed.

Example eq_John : Filter.eq (Filter.Str "John") = "$eq:John".
Proof. reflexivity. Qed.

Example btw_4_5 : Filter.btw 4 5 = "$btw:4,5".
Proof. reflexivity. Qed.

Example or_eq_foo : Filter.or (Filter.eq (Filter.Str "foo")) = "$or:$eq:foo".
Proof. reflexivity. Qed.

Example parse_page_limit :
  fromQueryString "?page=2&limit=5"
  = Ok (PaginateQueryBuilder.limit 5 (PaginateQueryBuilder.page 2 PaginateQueryBuilder.new)).
Proof. reflexivity. Qed.

Example parse_filters :
  match fromQueryString "?filter.name=%24or%3A%24eq%3AA&filter.name=%24or%3A%24eq%3AB&sortBy=name%3AASC" with
  | Ok b => PaginateQueryBuilder.toParams b
  | Throw _ => []
  end
  = [("sortBy", Many ["name:ASC"]); ("filter.name", Many ["$or:$eq:A"; "$or:$eq:B"])].
Proof. reflexivity. Qed.

(** The test 'clone() produces independent copy' of builder.spec.ts, with
    a sort rule pushed on the original as well. *)
Example clone_scenario :
  let '(original, h) := Heap.new [] in
  (h ← Heap.page 1 original h;
   h ← Heap.filter "name" (Heap.TStr "$eq:Alice") original h;
   '(clone, h) ← Heap.clone original h;
   h ← Heap.page 2 clone h;
   h ← Heap.filter "name" (Heap.TStr "$eq:Bob") clone h;
   h ← Heap.sortBy "name" ASC original h;
   o ← Heap.toParams original h;
   c ← Heap.toParams clone h;
   Some (o, c))
  = Some ([("page", Single "1"); ("sortBy", Many ["name:ASC"]);
           ("filter.name", Single "$eq:Alice")],
          [("page", Single "2"); ("filter.name", Many ["$eq:Alice"; "$eq:Bob"])]).
Proof. reflexivity. Qed.

(** ** Dictionaries *)

Section DictFacts.
Context {V : Type}.
Implicit Types (o : list (string * V)) (k : string) (v : V).

Lemma get_set_eq k v o : Dict.get k (Dict.set k v o) = Some v.
Proof.
  induction o as [|[k' v'] o IH]; simpl.
  - now rewrite String.eqb_refl.
  - destruct (String.eqb k' k) eqn:E; simpl.
    + now rewrite String.eqb_refl.
    + now rewrite E.
Qed.

Lemma get_set_ne k k' v o : k' <> k -> Dict.get k (Dict.set k' v o) = Dict.get k o.
Proof.
  intros Hne. induction o as [|[k0 v0] o IH]; simpl.
  - apply String.eqb_neq in Hne. now rewrite Hne.
  - destruct (String.eqb k0 k') eqn:E; simpl.
    + apply String.eqb_eq in E. subst k0.
      apply String.eqb_neq in Hne. now rewrite Hne.
    + now rewrite IH.
Qed.

Lemma get_None_keys k o : Dict.get k o = None <-> ~ In k (Dict.keys o).
Proof.
  induction o as [|[k0 v0] o IH]; simpl.
  - tauto.
  - destruct (String.eqb k0 k) eqn:E.
    + apply String.eqb_eq in E. split; [discriminate | intros H; exfalso; auto].
    + apply String.eqb_neq in E. rewrite IH. tauto.
Qed.

Lemma set_fresh k v o : ~ In k (Dict.keys o) -> Dict.set k v o = o ++ [(k, v)].
Proof.
  induction o as [|[k0 v0] o IH]; simpl; intros H; [reflexivity|].
  destruct (String.eqb k0 k) eqn:E.
  - apply String.eqb_eq in E. tauto.
  - f_equal. apply IH. tauto.
Qed.

Lemma keys_set k v o :
  Dict.keys (Dict.set k v o)
  = if existsb (String.eqb k) (Dict.keys o) then Dict.keys o else Dict.keys o ++ [k].
Proof.
  induction o as [|[k0 v0] o IH]; simpl; [reflexivity|].
  rewrite (String.eqb_sym k k0).
  destruct (String.eqb k0 k) eqn:E; simpl.
  - apply String.eqb_eq in E. now subst.
  - rewrite IH. now destruct (existsb _ _).
Qed.


Lemma NoDup_keys_set k v o : NoDup (Dict.keys o) -> NoDup (Dict.keys (Dict.set k v o)).
Proof.
  intros H. rewrite keys_set. destruct (existsb _ _) eqn:E; [assumption|].
  apply NoDup_app. split; [assumption|]. split.
  - intros x Hx Hk. apply list_elem_of_In in Hx, Hk. destruct Hk as [<-|[]].
    assert (existsb (String.eqb k) (Dict.keys o) = true); [|congruence].
    apply existsb_exists. exists k. split; [assumption | apply String.eqb_refl].
  - apply NoDup_singleton.
Qed.
End DictFacts.

(** ** Filter tokens *)

(** The segments that precede the value: comparator (unless [$and]), suffix,
    operator. *)
Definition token_head (c : option FilterComparator.t) (s : option FilterSuffix.t)
    (op : FilterOperator.t) : list string :=
  match c with Some FilterComparator.OR => ["$or"] | _ => [] end
  ++ match s with Some FilterSuffix.NOT => ["$not"] | None => [] end
  ++ [FilterOperator.to_string op].

Lemma buildFilterToken_null_head c s v :
  Filter.buildFilterToken (Filter.Build_FilterTokenOptions c s FilterOperator.NULL v)
  = JS.join ":" (token_head c s FilterOperator.NULL).
Proof. destruct c as [[]|], s as [[]|]; reflexivity. Qed.

(** C6: with operator [$null], no comparator and no suffix, [buildFilterToken]
    returns exactly ["$null"] whatever value is supplied (absent, string,
    number or array): no value segment is appended.  With a comparator or a
    suffix the value is ignored in the same way. *)
Theorem buildFilterToken_null_ignores_value (v : option Filter.token_value) :
  Filter.buildFilterToken
    {| Filter.comparator := None; Filter.suffix := None;
       Filter.operator := FilterOperator.NULL; Filter.value := v |}
  = "$null"
  /\ forall c s,
       Filter.buildFilterToken (Filter.Build_FilterTokenOptions c s FilterOperator.NULL v)
       = Filter.buildFilterToken (Filter.Build_FilterTokenOptions c s FilterOperator.NULL None).
Proof.
  split; [reflexivity|].
  intros c s. now rewrite !buildFilterToken_null_head.
Qed.

Example buildFilterToken_null_with_array :
  Filter.buildFilterToken
    (Filter.simple FilterOperator.NULL (Some (Filter.Array [Filter.Num 1; Filter.Str "x"])))
  = "$null".
Proof. reflexivity. Qed.

(** C2: what the code in src/lib/filter.ts does when no value is supplied:
    for every operator, comparator and suffix it returns the token made of
    the leading segments only.  No error is raised; the value segment is
    left out. *)
Theorem buildFilterToken_missing_value_omitted
    (c : option FilterComparator.t) (s : option FilterSuffix.t) (op : FilterOperator.t) :
  Filter.buildFilterToken (Filter.Build_FilterTokenOptions c s op None)
  = JS.join ":" (token_head c s op).
Proof. destruct c as [[]|], s as [[]|], op; reflexivity. Qed.

Example buildFilterToken_eq_no_value :
  Filter.buildFilterToken (Filter.simple FilterOperator.EQ None) = "$eq".
Proof. reflexivity. Qed.

(** ** The [withDeleted] key *)

Lemma prefix_app (p s : string) : String.prefix p (p +:+ s) = true.
Proof.
  induction p as [|a p IH]; simpl; [now destruct s|].
  destruct (ascii_dec a a); [assumption | congruence].
Qed.

Lemma append_inj_l (p s t : string) : p +:+ s = p +:+ t -> s = t.
Proof. induction p; simpl; intros H; [assumption | injection H; auto]. Qed.

Lemma get_set_filters_other (raw : PaginateParamsRaw) fs k :
  JS.startsWith "filter." k = false ->
  Dict.get k (B.set_filters raw fs) = Dict.get k raw.
Proof.
  intros Hk. unfold B.set_filters. revert raw.
  induction fs as [|[c v] fs IH]; intros raw; simpl; [reflexivity|].
  rewrite IH. apply get_set_ne. intros E.
  change (String "f" (String "i" (String "l" (String "t" (String "e" (String "r" (String "." c)))))))
    with ("filter." +:+ c) in E.
  subst k. unfold JS.startsWith in Hk. now rewrite prefix_app in Hk.
Qed.

(** The current revision of [toParams] (the builder that has [clone]): the
    param map has the key [withDeleted] exactly when the flag is [true],
    and its value is then the string ["true"]; with the flag unset or set
    to [false] the key is absent. *)
Lemma toParams_withDeleted (b : B.t) :
  Dict.get "withDeleted" (B.toParams b)
  = match B._withDeleted b with
    | Some true => Some (Single "true")
    | _ => None
    end.
Proof.
  unfold B.toParams. rewrite get_set_filters_other by reflexivity.
  destruct b as [pg lm sb se sby sel fl cu wd]; cbn [B._page B._limit B._sortBy
    B._search B._searchBy B._select B._cursor B._withDeleted].
  destruct wd as [[]|]; [apply get_set_eq | |];
    destruct cu, sel, sby, se as [se|], sb, lm, pg;
    try destruct (nonempty se); reflexivity.
Qed.

Example toParams_withDeleted_false :
  B.toParams (B.withDeleted false B.new) = [].
Proof. reflexivity. Qed.

(** C3 on the revision of [toParams] in src/lib/builder.ts: the key
    [withDeleted] is present whenever the flag is defined, with the flag
    printed as its value, so [withDeleted(false)] is serialised as
    ["false"] where the claim wants the key absent. *)
Theorem legacy_toParams_withDeleted (b : B.t) :
  Dict.get "withDeleted" (Legacy.toParams b)
  = match B._withDeleted b with
    | Some v => Some (Single (Legacy.String_bool v))
    | None => None
    end
  /\ Legacy.toParams (B.withDeleted false B.new) = [("withDeleted", Single "false")].
Proof.
  split; [|reflexivity].
  unfold Legacy.toParams. rewrite get_set_filters_other by reflexivity.
  destruct b as [pg lm sb se sby sel fl cu wd]; cbn [B._page B._limit B._sortBy
    B._search B._searchBy B._select B._cursor B._withDeleted].
  destruct wd as [v|]; [apply get_set_eq |];
    destruct cu, sel, sby, se as [se|], sb, lm, pg;
    try destruct (nonempty se); reflexivity.
Qed.

(** ** The filter dictionary as an object

    [Dict] against [Obj]: what the value-level [filter] leaves out, and
    where the two agree. *)

(** On a name inherited from [Object.prototype] the read finds the
    member, which is truthy: [filter] stores an array that begins with it,
    and for [__proto__] stores nothing (the array becomes the prototype).
    An array index is enumerated before the keys created earlier. *)
Example filter_on_inherited_names :
  Obj.filter "constructor" (Single "$eq:A") Obj.empty
    = Some (Obj.mk [("constructor",
                     Obj.Elements [Obj.Member "constructor"; Obj.Token "$eq:A"])] true)
  /\ Obj.filter "__proto__" (Single "$eq:A") Obj.empty = Some (Obj.mk [] false)
  /\ (o ← Obj.filter "b" (Single "x") Obj.empty;
      o ← Obj.filter "10" (Single "y") o;
      o ← Obj.filter "9" (Single "z") o;
      o ← Obj.filter "01" (Single "w") o;
      Some (Dict.keys (Obj.own o)))
     = Some ["9"; "10"; "b"; "01"].
Proof. repeat split; reflexivity. Qed.

Section ObjFacts.
Context {V : Type}.
Implicit Types (o : list (string * V)) (k : string) (v : V).





Lemma insert_last k v o : Obj.array_index k = None -> Obj.insert k v o = o ++ [(k, v)].
Proof.
  intros Hk. induction o as [|[k0 v0] o IH]; cbn [Obj.insert]; [reflexivity|].
  unfold Obj.before. rewrite Hk. cbn [app]. now rewrite IH.
Qed.

Lemma oset_plain k v o : Obj.array_index k = None -> Obj.set k v o = Dict.set k v o.
Proof.
  intros Hk. unfold Obj.set. destruct (Dict.get k o) eqn:E; [reflexivity|].
  rewrite insert_last by assumption. symmetry. apply set_fresh. now apply get_None_keys.
Qed.
End ObjFacts.

Definition embed (e : string * param_value) : string * Obj.value :=
  (fst e, Obj.of_value (snd e)).

Lemma get_embed (k : string) (fs : list (string * param_value)) :
  Dict.get k (map embed fs) = option_map Obj.of_value (Dict.get k fs).
Proof.
  induction fs as [|[k0 v0] fs IH]; [reflexivity|].
  cbn [map embed fst snd Dict.get]. now destruct (String.eqb k0 k).
Qed.

Lemma set_embed (k : string) (v : param_value) (fs : list (string * param_value)) :
  Dict.set k (Obj.of_value v) (map embed fs) = map embed (Dict.set k v fs).
Proof.
  induction fs as [|[k0 v0] fs IH]; [reflexivity|].
  cbn [map embed fst snd Dict.set]. destruct (String.eqb k0 k); [reflexivity|].
  cbn [map embed fst snd]. now rewrite IH.
Qed.

(** What the read of a column finds, for a column that is no member of
    [Object.prototype]. *)
Definition found_own (existing : option param_value) : Obj.found :=
  match existing with
  | Some v => Obj.Own (Obj.of_value v)
  | None => Obj.Undefined
  end.

Lemma filter_entry_embed (existing : option param_value) (token : param_value) :
  Obj.filter_entry (found_own existing) token = Obj.of_value (B.filter_entry existing token).
Proof.
  unfold Obj.filter_entry, B.filter_entry.
  destruct existing as [[s|l]|]; cbn [found_own Obj.of_value B.truthy B.as_array].
  - destruct (nonempty s); [cbn [Obj.of_value]; now rewrite map_app|].
    now destruct (B.as_array token) as [|x [|y l]].
  - cbn [Obj.of_value]. now rewrite map_app.
  - now destruct (B.as_array token) as [|x [|y l]].
Qed.

Lemma not_inherited_proto (c : string) : Dict.inherited c = false -> String.eqb c "__proto__" = false.
Proof.
  intros H. destruct (String.eqb c "__proto__") eqn:E; [|reflexivity].
  apply String.eqb_eq in E. subst c. discriminate.
Qed.

(** The value-level dictionary and the object agree on every lookup. *)
Definition represents (fs : list (string * param_value)) (o : Obj.t) : Prop :=
  Obj.plain o = true
  /\ forall k, Dict.get k (Obj.own o) = option_map Obj.of_value (Dict.get k fs).

(** Every dictionary is represented by an object: the one with the same
    own properties. *)
Lemma represents_of_dict (fs : list (string * param_value)) : represents fs (Obj.of_dict fs).
Proof. split; [reflexivity|]. intros k. apply get_embed. Qed.


(** For a column that is no array index either, the object is the
    dictionary, entry for entry and in the same order. *)
Lemma filter_refines (c : string) (token : param_value) (fs : list (string * param_value)) :
  Dict.inherited c = false -> Obj.array_index c = None ->
  Obj.filter c token (Obj.of_dict fs)
  = Some (Obj.of_dict (Dict.set c (B.filter_entry (Dict.get c fs) token) fs)).
Proof.
  intros Hc Hi. unfold Obj.filter, Obj.read, Obj.of_dict. cbn [Obj.own Obj.plain].
  fold embed. rewrite get_embed, Hc.
  assert (E : match option_map Obj.of_value (Dict.get c fs) with
              | Some v => Some (Obj.Own v)
              | None => Some Obj.Undefined
              end = Some (found_own (Dict.get c fs))) by now destruct (Dict.get c fs).
  rewrite E. cbn [mbind option_bind]. unfold Obj.write.
  rewrite (not_inherited_proto c Hc), filter_entry_embed. cbn [Obj.own Obj.plain].
  now rewrite oset_plain, set_embed by assumption.
Qed.

(** ** Accumulating filters *)

(** The tokens stored for a column, as a sequence. *)
Definition tokens_of (b : B.t) (c : string) : list string :=
  match Dict.get c (B._filter b) with
  | Some v => B.as_array v
  | None => []
  end.

Lemma as_array_filter_entry_fresh (t : param_value) :
  B.as_array (match B.as_array t with [x] => Single x | _ => Many (B.as_array t) end)
  = B.as_array t.
Proof. destruct (B.as_array t) as [|x [|y l]]; reflexivity. Qed.

Lemma filter_entry_tokens (existing : option param_value) (t : param_value) :
  existing <> Some (Single "") ->
  B.as_array (B.filter_entry existing t)
  = match existing with Some v => B.as_array v | None => [] end ++ B.as_array t.
Proof.
  intros Hne. destruct existing as [[s|l]|]; simpl.
  - unfold nonempty. destruct (String.eqb s "") eqn:E; simpl.
    + apply String.eqb_eq in E. subst s. congruence.
    + reflexivity.
  - reflexivity.
  - apply as_array_filter_entry_fresh.
Qed.

Lemma filter_entry_not_blank (existing : option param_value) (t : param_value) :
  existing <> Some (Single "") -> B.as_array t <> [""] ->
  B.filter_entry existing t <> Single "".
Proof.
  intros He Ht. destruct existing as [[s|l]|]; simpl.
  - unfold nonempty. destruct (String.eqb s "") eqn:E; simpl; [|discriminate].
    apply String.eqb_eq in E. subst s. congruence.
  - discriminate.
  - destruct (B.as_array t) as [|x [|y l]]; try discriminate.
    intros [= ->]. congruence.
Qed.





(** The same over a run of calls on one column. *)
Corollary filter_run_appends (c : string) (ts : list param_value) (b : B.t) :
  Dict.inherited c = false ->
  Dict.get c (B._filter b) <> Some (Single "") ->
  Forall (fun t => B.as_array t <> [""]) ts ->
  tokens_of (fold_left (fun b t => B.filter c t b) ts b) c
  = tokens_of b c ++ concat (map B.as_array ts).
Proof.
  intros _. revert b. induction ts as [|t ts IH]; intros b Hb Hts; simpl.
  - now rewrite app_nil_r.
  - inversion Hts as [|? ? Ht Hts']; subst.
    rewrite IH; [| |assumption].
    + unfold tokens_of at 1. simpl. rewrite get_set_eq.
      rewrite filter_entry_tokens by assumption.
      unfold tokens_of. now rewrite <- app_assoc.
    + simpl. rewrite get_set_eq. intros [= E]. revert E.
      now apply filter_entry_not_blank.
Qed.

(** ** The shape of the param map *)

(** The entries [toParams] writes before the filters. *)
Definition fixed_params (b : B.t) : PaginateParamsRaw :=
  match B._page b with Some n => [("page", Single (JS.String_ n))] | None => [] end
  ++ match B._limit b with Some n => [("limit", Single (JS.String_ n))] | None => [] end
  ++ match B._sortBy b with
     | [] => []
     | _ :: _ => [("sortBy", Many (map B.sort_rule_string (B._sortBy b)))]
     end
  ++ match B._search b with
     | Some s => if nonempty s then [("search", Single s)] else []
     | None => []
     end
  ++ match B._searchBy b with [] => [] | _ :: _ => [("searchBy", Many (B._searchBy b))] end
  ++ match B._select b with
     | [] => []
     | _ :: _ => [("select", Single (JS.join "," (B._select b)))]
     end
  ++ match B._cursor b with Some c => [("cursor", Single c)] | None => [] end
  ++ match B._withDeleted b with
     | Some true => [("withDeleted", Single "true")]
     | _ => []
     end.

Definition filter_params (fs : list (string * param_value)) : PaginateParamsRaw :=
  map (fun '(c, v) => ("filter." +:+ c, v)) fs.

Lemma toParams_fixed (b : B.t) :
  B.toParams b = B.set_filters (fixed_params b) (B._filter b).
Proof.
  unfold B.toParams, fixed_params.
  destruct b as [pg lm sb se sby sel fl cu wd];
    cbn [B._page B._limit B._sortBy B._search B._searchBy B._select B._cursor
         B._withDeleted B._filter].
  f_equal.
  destruct wd as [[]|], cu, sel, sby, se as [se|], sb, lm, pg;
    try destruct (nonempty se); reflexivity.
Qed.

Lemma fixed_params_keys (b : B.t) :
  Forall (fun k => JS.startsWith "filter." k = false) (Dict.keys (fixed_params b)).
Proof.
  unfold fixed_params.
  destruct b as [pg lm sb se sby sel fl cu wd];
    cbn [B._page B._limit B._sortBy B._search B._searchBy B._select B._cursor
         B._withDeleted B._filter].
  destruct wd as [[]|], cu, sel, sby, se as [se|], sb, lm, pg;
    try destruct (nonempty se); simpl; repeat constructor.
Qed.

Lemma filter_key_spelled (c : string) :
  String "f" (String "i" (String "l" (String "t" (String "e" (String "r" (String "." c))))))
  = "filter." +:+ c.
Proof. reflexivity. Qed.

Lemma keys_filter_params fs : Dict.keys (filter_params fs) = map (String.append "filter.") (Dict.keys fs).
Proof.
  unfold filter_params, Dict.keys. rewrite !map_map. apply map_ext. now intros [c v].
Qed.

Lemma set_filters_app (raw : PaginateParamsRaw) fs :
  Forall (fun k => JS.startsWith "filter." k = false) (Dict.keys raw) ->
  NoDup (Dict.keys fs) ->
  B.set_filters raw fs = raw ++ filter_params fs.
Proof.
  intros Hraw Hnd.
  assert (G : forall done todo, NoDup (Dict.keys (done ++ todo)) ->
           B.set_filters (raw ++ filter_params done) todo
           = raw ++ filter_params (done ++ todo)).
  { intros done todo. revert done.
    induction todo as [|[c v] todo IH]; intros done Hd.
    - now rewrite app_nil_r.
    - unfold B.set_filters. simpl. fold (B.set_filters).
      rewrite set_fresh.
      + rewrite <- app_assoc.
        change (filter_params done ++ [("filter." +:+ c, v)])
          with (filter_params done ++ filter_params [(c, v)]).
        unfold filter_params at 1 2. rewrite <- map_app. fold (filter_params (done ++ [(c, v)])).
        unfold B.set_filters in IH. rewrite IH.
        * now rewrite <- app_assoc.
        * now rewrite <- app_assoc.
      + unfold Dict.keys in *. rewrite map_app. intros Hin.
        apply in_app_or in Hin as [Hin|Hin].
        * rewrite List.Forall_forall in Hraw. apply Hraw in Hin.
          unfold JS.startsWith in Hin. rewrite filter_key_spelled in Hin.
          now rewrite prefix_app in Hin.
        * fold (Dict.keys (filter_params done)) in Hin.
          rewrite keys_filter_params in Hin. apply in_map_iff in Hin as (c0 & E & Hc0).
          rewrite filter_key_spelled in E. apply append_inj_l in E. subst c0.
          rewrite map_app in Hd. simpl in Hd.
          apply NoDup_app in Hd as (_ & Hd & _).
          apply (Hd c); [now apply list_elem_of_In | left]. }
  specialize (G [] fs Hnd). simpl in G. now rewrite app_nil_r in G.
Qed.

Lemma toParams_app (b : B.t) :
  NoDup (Dict.keys (B._filter b)) ->
  B.toParams b = fixed_params b ++ filter_params (B._filter b).
Proof.
  intros H. rewrite toParams_fixed. apply set_filters_app; [apply fixed_params_keys | assumption].
Qed.

(** The param map of the object is the param map of the dictionary. *)
Lemma filter_key_no_index (c : string) : Obj.array_index ("filter." +:+ c) = None.
Proof. reflexivity. Qed.

Lemma toParams_refines (b : B.t) :
  Obj.toParams b (Obj.of_dict (B._filter b)) = map embed (B.toParams b).
Proof.
  unfold Obj.toParams, Obj.of_dict. cbn [Obj.own]. fold embed.
  rewrite (toParams_fixed b), (toParams_fixed (B.mk _ _ _ _ _ _ _ _ _)).
  change (fixed_params (B.mk _ _ _ _ _ _ _ _ _)) with (fixed_params b).
  cbn [B._filter B.set_filters fold_left].
  unfold B.set_filters. generalize (fixed_params b) as raw.
  induction (B._filter b) as [|[c v] fs IH]; intros raw; [reflexivity|].
  cbn [map fold_left embed fst snd].
  rewrite oset_plain by apply filter_key_no_index.
  rewrite set_embed. apply IH.
Qed.

(** ** Serialising a param map *)

(** The values under a key, a scalar counting as a one-element sequence. *)
Definition values_of (v : param_value) : list string :=
  match v with
  | Single s => [s]
  | Many l => l
  end.

(** The loops of [toQueryString] as one expression: the pairs pushed for
    the entries, in order, and the string made of them. *)
Definition specified_pairs (params : PaginateParamsRaw) : list string :=
  flat_map (fun '(key, val) =>
              map (QueryString.query_pair key) (List.filter nonempty (values_of val)))
           params.

Definition specified_query_string (params : PaginateParamsRaw) : string :=
  match specified_pairs params with
  | [] => ""
  | ps => "?" +:+ JS.join "&" ps
  end.

Lemma push_values (key : string) (vs : list string) (pairs : list string) :
  fold_left (fun pairs v =>
               if nonempty v then pairs ++ [QueryString.query_pair key v] else pairs)
            vs pairs
  = pairs ++ map (QueryString.query_pair key) (List.filter nonempty vs).
Proof.
  revert pairs. induction vs as [|v vs IH]; intros pairs; simpl.
  - now rewrite app_nil_r.
  - rewrite IH. destruct (nonempty v); simpl; [now rewrite <- app_assoc | reflexivity].
Qed.

Lemma push_entry_pairs (pairs : list string) (entry : string * param_value) :
  QueryString.push_entry pairs entry = pairs ++ specified_pairs [entry].
Proof.
  destruct entry as [key [v|vs]]; unfold specified_pairs; simpl; rewrite app_nil_r.
  - destruct (nonempty v); simpl; [reflexivity | now rewrite app_nil_r].
  - apply push_values.
Qed.

Lemma specified_pairs_app (p q : PaginateParamsRaw) :
  specified_pairs (p ++ q) = specified_pairs p ++ specified_pairs q.
Proof. unfold specified_pairs. apply flat_map_app. Qed.

Lemma fold_push_entry (params : PaginateParamsRaw) (pairs : list string) :
  fold_left QueryString.push_entry params pairs = pairs ++ specified_pairs params.
Proof.
  revert pairs. induction params as [|e params IH]; intros pairs.
  - simpl. now rewrite app_nil_r.
  - cbn [fold_left]. rewrite IH, push_entry_pairs, <- app_assoc. f_equal.
    symmetry. apply (specified_pairs_app [e] params).
Qed.

Lemma toQueryString_pairs (params : PaginateParamsRaw) :
  QueryString.toQueryString params = specified_query_string params.
Proof.
  unfold QueryString.toQueryString, specified_query_string.
  rewrite fold_push_entry. simpl. now destruct (specified_pairs params).
Qed.

Example toQueryString_repeats_keys :
  QueryString.toQueryString
    [("sortBy", Many ["name:ASC"; "email:DESC"]); ("search", Single ""); ("limit", Single "5")]
  = "?sortBy=name%3AASC&sortBy=email%3ADESC&limit=5".
Proof. reflexivity. Qed.

(** ** A new entry at the end of the param map *)






Lemma get_snoc {V : Type} (o : list (string * V)) (k : string) (v : V) :
  ~ In k (Dict.keys o) -> Dict.get k (o ++ [(k, v)]) = Some v.
Proof.
  induction o as [|[k0 v0] o IH]; simpl; intros H.
  - now rewrite String.eqb_refl.
  - destruct (String.eqb k0 k) eqn:E.
    + apply String.eqb_eq in E. tauto.
    + apply IH. tauto.
Qed.

(** ** Strings: searching, slicing, splitting *)

Fixpoint all_chars (P : ascii -> bool) (s : string) : bool :=
  match s with
  | EmptyString => true
  | String c r => P c && all_chars P r
  end.

Definition differs (sep : ascii) (c : ascii) : bool := negb (Ascii.eqb c sep).

Lemma all_chars_app P (s t : string) :
  all_chars P (s +:+ t) = all_chars P s && all_chars P t.
Proof. induction s as [|c s IH]; simpl; [reflexivity|]. now rewrite IH, andb_assoc. Qed.

Lemma all_chars_weaken (P Q : ascii -> bool) (s : string) :
  (forall c, P c = true -> Q c = true) -> all_chars P s = true -> all_chars Q s = true.
Proof.
  intros HPQ. induction s as [|c s IH]; simpl; [reflexivity|].
  intros H. apply andb_true_iff in H as [Hc Hs]. now rewrite (HPQ c Hc), IH.
Qed.

Section Separator.
Variable sep : ascii.

Lemma indexOf_first (x y : string) :
  all_chars (differs sep) x = true ->
  JS.indexOf sep (x +:+ String sep y) = Some (String.length x).
Proof.
  induction x as [|c x IH]; simpl; intros H.
  - now rewrite Ascii.eqb_refl.
  - apply andb_true_iff in H as [Hc Hx]. unfold differs in Hc.
    apply negb_true_iff in Hc. now rewrite Hc, IH.
Qed.

Lemma indexOf_none (x : string) :
  all_chars (differs sep) x = true -> JS.indexOf sep x = None.
Proof.
  induction x as [|c x IH]; simpl; intros H; [reflexivity|].
  apply andb_true_iff in H as [Hc Hx]. unfold differs in Hc.
  apply negb_true_iff in Hc. now rewrite Hc, IH.
Qed.

Lemma slice_to_app (x y : string) : JS.slice_to (String.length x) (x +:+ y) = x.
Proof. induction x as [|c x IH]; simpl; [now destruct y | now rewrite IH]. Qed.

Lemma slice_from_app (x y : string) (c : ascii) :
  JS.slice_from (S (String.length x)) (x +:+ String c y) = y.
Proof. induction x as [|a x IH]; simpl; [reflexivity | exact IH]. Qed.

Lemma lastIndexOf_slices (s : string) (i : nat) :
  JS.lastIndexOf sep s = Some i ->
  JS.slice_to i s +:+ String sep (JS.slice_from (S i) s) = s.
Proof.
  revert i. induction s as [|c s IH]; simpl; intros i H; [discriminate|].
  destruct (JS.lastIndexOf sep s) as [j|] eqn:E.
  - injection H as <-.
    change (JS.slice_from (S (S j)) (String c s)) with (JS.slice_from (S j) s).
    change (String c (JS.slice_to j s +:+ String sep (JS.slice_from (S j) s)) = String c s).
    f_equal. now apply IH.
  - destruct (Ascii.eqb c sep) eqn:Ec; [|discriminate].
    injection H as <-. apply Ascii.eqb_eq in Ec. subst c. simpl. now destruct s.
Qed.

Lemma lastIndexOf_found (x y : string) :
  JS.lastIndexOf sep (x +:+ String sep y) <> None.
Proof.
  induction x as [|c x IH]; simpl.
  - destruct (JS.lastIndexOf sep y); [discriminate|]. now rewrite Ascii.eqb_refl.
  - destruct (JS.lastIndexOf sep (x +:+ String sep y)); [discriminate | contradiction].
Qed.

Lemma split_nonempty (s : string) : JS.split sep s <> [].
Proof.
  induction s as [|c s IH]; simpl; [discriminate|].
  destruct (Ascii.eqb c sep); [discriminate|]. now destruct (JS.split sep s).
Qed.

Lemma split_whole (x : string) :
  all_chars (differs sep) x = true -> JS.split sep x = [x].
Proof.
  induction x as [|c x IH]; simpl; intros H; [reflexivity|].
  apply andb_true_iff in H as [Hc Hx]. unfold differs in Hc.
  apply negb_true_iff in Hc. now rewrite Hc, IH.
Qed.

Lemma split_app (x rest : string) :
  all_chars (differs sep) x = true ->
  JS.split sep (x +:+ String sep rest) = x :: JS.split sep rest.
Proof.
  induction x as [|c x IH]; simpl; intros H.
  - now rewrite Ascii.eqb_refl.
  - apply andb_true_iff in H as [Hc Hx]. unfold differs in Hc.
    apply negb_true_iff in Hc. now rewrite Hc, IH.
Qed.

Lemma split_join (ps : list string) :
  ps <> [] ->
  Forall (fun p => all_chars (differs sep) p = true) ps ->
  JS.split sep (JS.join (String sep EmptyString) ps) = ps.
Proof.
  induction ps as [|p ps IH]; intros Hne Hall; [congruence|].
  inversion Hall as [|? ? Hp Hps]; subst.
  destruct ps as [|q ps].
  - simpl. now apply split_whole.
  - change (JS.join (String sep EmptyString) (p :: q :: ps))
      with (p +:+ String sep (JS.join (String sep EmptyString) (q :: ps))).
    rewrite split_app by assumption. f_equal. apply IH; [discriminate | assumption].
Qed.

Lemma join_split (s : string) : JS.join (String sep EmptyString) (JS.split sep s) = s.
Proof.
  induction s as [|c s IH]; simpl; [reflexivity|].
  destruct (Ascii.eqb c sep) eqn:E.
  - apply Ascii.eqb_eq in E. subst c.
    pose proof (split_nonempty s) as Hne.
    destruct (JS.split sep s) as [|x xs]; [congruence|].
    change (JS.join (String sep EmptyString) (EmptyString :: x :: xs))
      with (String sep (JS.join (String sep EmptyString) (x :: xs))).
    now rewrite IH.
  - pose proof (split_nonempty s) as Hne.
    destruct (JS.split sep s) as [|x [|y xs]]; [congruence| |].
    + simpl in *. now rewrite IH.
    + change (JS.join (String sep EmptyString) (String c x :: y :: xs))
        with (String c (JS.join (String sep EmptyString) (x :: y :: xs))).
      now rewrite IH.
Qed.
End Separator.

(** ** Numbers: [parseInt] reads back what [String] prints *)

Definition decimal_or_minus (c : ascii) : bool :=
  match JS.digit_value c with
  | Some _ => true
  | None => Ascii.eqb c "-"
  end.

Lemma no_white_space_before_number (c : ascii) (r : string) :
  decimal_or_minus c = true -> JS.white_space_width (String c r) = None.
Proof.
  destruct c as [[] [] [] [] [] [] [] []]; try discriminate; intros _;
    destruct r as [|b [|k r']]; reflexivity.
Qed.

Lemma skip_white_space_number (fuel : nat) (c : ascii) (r : string) :
  decimal_or_minus c = true -> JS.skip_white_space fuel (String c r) = String c r.
Proof.
  intros H. destruct fuel; cbn [JS.skip_white_space]; [reflexivity|].
  now rewrite no_white_space_before_number.
Qed.

Lemma scan_digits_acc (d : Decimal.uint) (a : positive) :
  JS.scan_digits (Some (Npos a)) (NilEmpty.string_of_uint d)
  = Some (Npos (Pos.of_uint_acc d a)).
Proof.
  revert a. induction d; intros a; simpl; [reflexivity|..];
    (etransitivity; [|apply IHd]); f_equal; f_equal; lia.
Qed.

Lemma scan_digits_zero (d : Decimal.uint) :
  JS.scan_digits (Some 0) (NilEmpty.string_of_uint d) = Some (Pos.of_uint d).
Proof.
  induction d; simpl; [reflexivity | exact IHd | ..]; apply scan_digits_acc.
Qed.

Lemma scan_digits_uint (d : Decimal.uint) :
  d <> Decimal.Nil ->
  JS.scan_digits None (NilEmpty.string_of_uint d) = Some (Pos.of_uint d).
Proof.
  intros Hd. pose proof (scan_digits_zero d) as H.
  destruct d; [congruence|..]; exact H.
Qed.

Lemma string_of_uint_head (d : Decimal.uint) :
  d <> Decimal.Nil ->
  exists c r, NilEmpty.string_of_uint d = String c r
              /\ JS.digit_value c <> None.
Proof. intros Hd. destruct d; [congruence|..]; simpl; eexists _, _; split; try reflexivity; discriminate. Qed.

Lemma parseInt_String (n : Z) : JS.parseInt (JS.String_ n) = Some n.
Proof.
  destruct n as [|p|p]; [reflexivity|..].
  - unfold JS.parseInt, JS.String_.
    pose proof (Unsigned.to_uint_nonnil p) as Hnil.
    destruct (string_of_uint_head _ Hnil) as (c & r & E & Hc).
    rewrite E, skip_white_space_number
      by (unfold decimal_or_minus; now destruct (JS.digit_value c)).
    assert (Hm : Ascii.eqb c "-" = false).
    { destruct (Ascii.eqb c "-") eqn:Em; [|reflexivity].
      apply Ascii.eqb_eq in Em. subst c. now elim Hc. }
    assert (Hp : Ascii.eqb c "+" = false).
    { destruct (Ascii.eqb c "+") eqn:Em; [|reflexivity].
      apply Ascii.eqb_eq in Em. subst c. now elim Hc. }
    rewrite Hm, Hp, <- E, scan_digits_uint by assumption.
    now rewrite Unsigned.of_to.
  - unfold JS.parseInt, JS.String_.
    rewrite skip_white_space_number by reflexivity.
    rewrite Ascii.eqb_refl.
    rewrite scan_digits_uint by apply Unsigned.to_uint_nonnil.
    now rewrite Unsigned.of_to.
Qed.

(** ** URI component coding *)

Definition uri_char (c : ascii) : bool := JS.unreserved c || Ascii.eqb c "%".

Lemma encoded_unit_chars (c : ascii) :
  all_chars uri_char (if JS.unreserved c then String c EmptyString else JS.escape c) = true.
Proof. destruct c as [[] [] [] [] [] [] [] []]; vm_compute; reflexivity. Qed.

Lemma encode_chars (s : string) : all_chars uri_char (JS.encodeURIComponent s) = true.
Proof.
  induction s as [|c s IH]; [reflexivity|].
  cbn [JS.encodeURIComponent]. now rewrite all_chars_app, encoded_unit_chars, IH.
Qed.

Lemma encode_avoids (sep : ascii) (s : string) :
  uri_char sep = false -> all_chars (differs sep) (JS.encodeURIComponent s) = true.
Proof.
  intros Hsep. apply (all_chars_weaken uri_char); [|apply encode_chars].
  intros c Hc. unfold differs. apply negb_true_iff.
  destruct (Ascii.eqb c sep) eqn:E; [|reflexivity].
  apply Ascii.eqb_eq in E. congruence.
Qed.

Lemma encode_empty (s : string) : JS.encodeURIComponent s = "" -> s = "".
Proof.
  destruct s as [|c s]; [reflexivity|]. cbn [JS.encodeURIComponent].
  destruct (JS.unreserved c); discriminate.
Qed.

Lemma decode_escape (st : JS.utf8_state) (h l : ascii) (r : string) :
  JS.decode st (String "%" (String h (String l r)))
  = match JS.hex_value h, JS.hex_value l with
    | Some a, Some b =>
        match JS.utf8_step st (16 * a + b) with
        | Some st' =>
            match JS.decode st' r with
            | Some t => Some (String (ascii_of_N (16 * a + b)) t)
            | None => None
            end
        | None => None
        end
    | _, _ => None
    end.
Proof. reflexivity. Qed.

Lemma decode_plain (st : JS.utf8_state) (c : ascii) (r : string) :
  Ascii.eqb c "%" = false ->
  JS.decode st (String c r)
  = match st with
    | JS.Start =>
        match JS.decode JS.Start r with
        | Some t => Some (String c t)
        | None => None
        end
    | JS.Need _ _ _ => None
    end.
Proof. intros H. cbn [JS.decode]. now rewrite H. Qed.

Lemma unreserved_ascii (c : ascii) :
  JS.unreserved c = true -> N_of_ascii c < 128 /\ Ascii.eqb c "%" = false.
Proof.
  destruct c as [[] [] [] [] [] [] [] []]; vm_compute; try discriminate; intros _;
    split; reflexivity.
Qed.

Lemma escape_reads_back (c : ascii) :
  JS.hex_value (JS.hex_digit (N_of_ascii c / 16)) = Some (N_of_ascii c / 16)
  /\ JS.hex_value (JS.hex_digit (N_of_ascii c mod 16)) = Some (N_of_ascii c mod 16)
  /\ 16 * (N_of_ascii c / 16) + N_of_ascii c mod 16 = N_of_ascii c.
Proof. destruct c as [[] [] [] [] [] [] [] []]; vm_compute; repeat split; reflexivity. Qed.

(** States in which only an escaped octet can come next. *)
Definition continuation_state (st : JS.utf8_state) : Prop :=
  match st with
  | JS.Start => True
  | JS.Need _ lo _ => 128 <= lo
  end.

Lemma utf8_step_continuation (st st' : JS.utf8_state) (b : N) :
  continuation_state st -> JS.utf8_step st b = Some st' -> continuation_state st'.
Proof.
  destruct st as [|n lo hi]; simpl; intros Hst H.
  - unfold JS.utf8_lead in H.
    repeat match type of H with
           | (if ?x then _ else _) = _ => destruct x
           end; inversion H; subst; simpl; lia.
  - destruct ((lo <=? b) && (b <=? hi)); [|discriminate].
    inversion H. destruct n as [|[|n]]; simpl; lia.
Qed.

Lemma decode_encode_from (st : JS.utf8_state) (s : string) :
  continuation_state st -> JS.utf8_run st s = true ->
  JS.decode st (JS.encodeURIComponent s) = Some s.
Proof.
  revert st. induction s as [|c s IH]; intros st Hst Hrun.
  - destruct st; [reflexivity | discriminate].
  - cbn [JS.utf8_run] in Hrun. cbn [JS.encodeURIComponent].
    destruct (JS.utf8_step st (N_of_ascii c)) as [st'|] eqn:Estep; [|discriminate].
    pose proof (utf8_step_continuation _ _ _ Hst Estep) as Hst'.
    destruct (JS.unreserved c) eqn:Eu.
    + apply unreserved_ascii in Eu as [Hlt Hpc].
      change (String c "" +:+ JS.encodeURIComponent s) with (String c (JS.encodeURIComponent s)).
      rewrite decode_plain by assumption.
      destruct st as [|n lo hi].
      * simpl in Estep. unfold JS.utf8_lead in Estep.
        apply N.ltb_lt in Hlt. rewrite Hlt in Estep. inversion Estep; subst st'.
        now rewrite IH.
      * simpl in Estep, Hst.
        destruct (lo <=? N_of_ascii c) eqn:El; [|discriminate].
        apply N.leb_le in El. lia.
    + unfold JS.escape.
      change (String "%" (String ?h (String ?l "")) +:+ ?r)
        with (String "%" (String h (String l r))).
      rewrite decode_escape.
      destruct (escape_reads_back c) as (-> & -> & ->).
      rewrite Estep, IH by assumption.
      now rewrite ascii_N_embedding.
Qed.

Lemma decode_encode (s : string) :
  JS.well_formed s = true -> JS.decodeURIComponent (JS.encodeURIComponent s) = Some s.
Proof. intros H. now apply decode_encode_from. Qed.

(** ** Reading a query string back *)

(** The decoded key and value of one [key=value] piece. *)
Definition decode_pair (p : string) : option (string * string) :=
  match JS.indexOf "=" p with
  | Some i =>
      match JS.decodeURIComponent (JS.slice_to i p),
            JS.decodeURIComponent (JS.slice_from (S i) p) with
      | Some k, Some v => Some (k, v)
      | _, _ => None
      end
  | None => None
  end.

Fixpoint decode_pairs (ps : list string) : option (list (string * string)) :=
  match ps with
  | [] => Some []
  | p :: rest =>
      match decode_pair p, decode_pairs rest with
      | Some kv, Some kvs => Some (kv :: kvs)
      | _, _ => None
      end
  end.

(** The sequence of pairs a query string carries, percent-decoded. *)
Definition decoded_pairs (qs : string) : option (list (string * string)) :=
  let body := if JS.startsWith "?" qs then JS.slice_from 1 qs else qs in
  if nonempty body then decode_pairs (JS.split "&" body) else Some [].

Definition well_formed_pair (kv : string * string) : bool :=
  JS.well_formed (fst kv) && JS.well_formed (snd kv).

Definition encode_pair (kv : string * string) : string :=
  QueryString.query_pair (fst kv) (snd kv).

(** The query string made of the given pairs. *)
Definition query_of (kvs : list (string * string)) : string :=
  match kvs with
  | [] => ""
  | _ :: _ => "?" +:+ JS.join "&" (map encode_pair kvs)
  end.

Lemma query_pair_split (k v : string) :
  JS.indexOf "=" (QueryString.query_pair k v)
    = Some (String.length (JS.encodeURIComponent k))
  /\ JS.slice_to (String.length (JS.encodeURIComponent k)) (QueryString.query_pair k v)
     = JS.encodeURIComponent k
  /\ JS.slice_from (S (String.length (JS.encodeURIComponent k))) (QueryString.query_pair k v)
     = JS.encodeURIComponent v.
Proof.
  unfold QueryString.query_pair.
  change ("=" +:+ JS.encodeURIComponent v) with (String "=" (JS.encodeURIComponent v)).
  split; [|split].
  - apply indexOf_first. now apply encode_avoids.
  - apply slice_to_app.
  - apply slice_from_app.
Qed.

Lemma decode_pair_encode (kv : string * string) :
  well_formed_pair kv = true -> decode_pair (encode_pair kv) = Some kv.
Proof.
  destruct kv as [k v]. unfold well_formed_pair, encode_pair, decode_pair. cbn [fst snd].
  intros H. apply andb_true_iff in H as [Hk Hv].
  destruct (query_pair_split k v) as (E1 & E2 & E3).
  rewrite E1, E2, E3. now rewrite !decode_encode.
Qed.

Lemma nonempty_app_cons (x y : string) (c : ascii) : nonempty (x +:+ String c y) = true.
Proof. now destruct x. Qed.

Lemma encode_pair_nonempty (kv : string * string) : nonempty (encode_pair kv) = true.
Proof.
  unfold encode_pair, QueryString.query_pair.
  change ("=" +:+ JS.encodeURIComponent (snd kv)) with (String "=" (JS.encodeURIComponent (snd kv))).
  apply nonempty_app_cons.
Qed.

Lemma encode_pair_no_amp (kv : string * string) :
  all_chars (differs "&") (encode_pair kv) = true.
Proof.
  unfold encode_pair, QueryString.query_pair.
  rewrite !all_chars_app, !encode_avoids by reflexivity. reflexivity.
Qed.

Lemma join_pairs_nonempty (kv : string * string) (kvs : list (string * string)) :
  nonempty (JS.join "&" (map encode_pair (kv :: kvs))) = true.
Proof.
  destruct kvs as [|kv' kvs]; [apply encode_pair_nonempty|].
  change (JS.join "&" (map encode_pair (kv :: kv' :: kvs)))
    with (encode_pair kv +:+ String "&" (JS.join "&" (map encode_pair (kv' :: kvs)))).
  apply nonempty_app_cons.
Qed.

Lemma split_query_of (kv : string * string) (kvs : list (string * string)) :
  JS.split "&" (JS.join "&" (map encode_pair (kv :: kvs))) = map encode_pair (kv :: kvs).
Proof.
  apply (split_join "&"); [discriminate|].
  apply List.Forall_forall. intros p Hp. apply in_map_iff in Hp as (x & <- & _).
  apply encode_pair_no_amp.
Qed.

Lemma decode_pairs_encode (kvs : list (string * string)) :
  forallb well_formed_pair kvs = true ->
  decode_pairs (map encode_pair kvs) = Some kvs.
Proof.
  induction kvs as [|kv kvs IH]; simpl; intros H; [reflexivity|].
  apply andb_true_iff in H as [Hkv Hkvs]. now rewrite decode_pair_encode, IH.
Qed.

Lemma decoded_pairs_query_of (kvs : list (string * string)) :
  forallb well_formed_pair kvs = true -> decoded_pairs (query_of kvs) = Some kvs.
Proof.
  intros H. destruct kvs as [|kv kvs]; [reflexivity|].
  unfold decoded_pairs, query_of, JS.startsWith.
  rewrite prefix_app.
  change (JS.slice_from 1 ("?" +:+ ?x)) with x.
  rewrite join_pairs_nonempty, split_query_of. now apply decode_pairs_encode.
Qed.

(** ** [toURLSearchParams] against [toQueryString] *)

(** Every key paired with each of its values, in order. *)
Definition all_pairs (params : PaginateParamsRaw) : list (string * string) :=
  flat_map (fun '(key, val) => map (pair key) (values_of val)) params.

Definition has_value (kv : string * string) : bool := nonempty (snd kv).

Lemma append_values (key : string) (vs : list string) (usp : B.URLSearchParams) :
  fold_left (fun usp v => usp ++ [(key, v)]) vs usp = usp ++ map (pair key) vs.
Proof.
  revert usp. induction vs as [|v vs IH]; intros usp; simpl.
  - now rewrite app_nil_r.
  - now rewrite IH, <- app_assoc.
Qed.

Lemma fold_append_entry (params : PaginateParamsRaw) (usp : B.URLSearchParams) :
  fold_left B.append_entry params usp = usp ++ all_pairs params.
Proof.
  revert usp. induction params as [|[key [v|vs]] params IH]; intros usp.
  - simpl. now rewrite app_nil_r.
  - cbn [fold_left B.append_entry]. rewrite IH, <- app_assoc. reflexivity.
  - cbn [fold_left B.append_entry]. rewrite IH, append_values, <- app_assoc. reflexivity.
Qed.

Lemma toURLSearchParams_pairs (b : B.t) : B.toURLSearchParams b = all_pairs (B.toParams b).
Proof. unfold B.toURLSearchParams. now rewrite fold_append_entry. Qed.

Lemma filter_map_pair (key : string) (vs : list string) :
  List.filter has_value (map (pair key) vs) = map (pair key) (List.filter nonempty vs).
Proof.
  induction vs as [|v vs IH]; simpl; [reflexivity|].
  unfold has_value at 1. simpl. destruct (nonempty v); simpl; now rewrite IH.
Qed.

Lemma specified_pairs_encode (params : PaginateParamsRaw) :
  specified_pairs params = map encode_pair (List.filter has_value (all_pairs params)).
Proof.
  induction params as [|[key val] params IH]; [reflexivity|].
  unfold specified_pairs, all_pairs in *. cbn [flat_map].
  rewrite List.filter_app, map_app, IH, filter_map_pair, map_map. reflexivity.
Qed.

Lemma toQueryString_query_of (params : PaginateParamsRaw) :
  QueryString.toQueryString params = query_of (List.filter has_value (all_pairs params)).
Proof.
  rewrite toQueryString_pairs. unfold specified_query_string, query_of.
  rewrite specified_pairs_encode.
  now destruct (List.filter has_value (all_pairs params)).
Qed.

Lemma forallb_filter {A : Type} (P Q : A -> bool) (l : list A) :
  forallb P l = true -> forallb P (List.filter Q l) = true.
Proof.
  induction l as [|x l IH]; simpl; [reflexivity|].
  intros H. apply andb_true_iff in H as [Hx Hl].
  destruct (Q x); simpl; [rewrite Hx|]; auto.
Qed.

(** C9, as the code has it: on a builder whose keys and values are
    well-formed text, the pairs carried by [toQueryString], percent-decoded,
    are the pairs of [toURLSearchParams] from which those with an empty
    value have been left out, in the same order and with the same
    repetition of keys; the two sequences are equal when no value is
    empty. *)
Theorem toURLSearchParams_matches_query_string (b : B.t) :
  forallb well_formed_pair (B.toURLSearchParams b) = true ->
  decoded_pairs (B.toQueryString b)
    = Some (List.filter has_value (B.toURLSearchParams b))
  /\ (forallb has_value (B.toURLSearchParams b) = true ->
      decoded_pairs (B.toQueryString b) = Some (B.toURLSearchParams b)).
Proof.
  intros Hwf.
  assert (E : decoded_pairs (B.toQueryString b)
              = Some (List.filter has_value (B.toURLSearchParams b))).
  { unfold B.toQueryString. rewrite toQueryString_query_of, toURLSearchParams_pairs.
    apply decoded_pairs_query_of. apply forallb_filter.
    now rewrite <- toURLSearchParams_pairs. }
  split; [exact E|].
  intros Hall. rewrite E. f_equal.
  clear -Hall. induction (B.toURLSearchParams b) as [|x l IH]; simpl in *; [reflexivity|].
  apply andb_true_iff in Hall as [-> Hl]. now rewrite IH.
Qed.

Definition sample_builder : B.t :=
  B.filter "name" (Single "$eq:B")
    (B.filter "name" (Single "$eq:A")
       (B.cursor "" (B.sortBy "email" DESC (B.sortBy "name" ASC (B.page 2 B.new))))).

Lemma toURLSearchParams_matches_query_string_witness :
  forallb well_formed_pair (B.toURLSearchParams sample_builder) = true
  /\ decoded_pairs (B.toQueryString sample_builder)
     = Some [("page", "2"); ("sortBy", "name:ASC"); ("sortBy", "email:DESC");
             ("filter.name", "$eq:A"); ("filter.name", "$eq:B")].
Proof.
  split; [reflexivity|].
  destruct (toURLSearchParams_matches_query_string sample_builder eq_refl) as [H _].
  rewrite H. reflexivity.
Defined.

(** The claim without the restriction fails: a pair with an empty value is
    in [toURLSearchParams] and not in the query string. *)
Lemma toURLSearchParams_keeps_empty_value :
  B.toURLSearchParams (B.cursor "" B.new) = [("cursor", "")]
  /\ B.toQueryString (B.cursor "" B.new) = ""
  /\ decoded_pairs (B.toQueryString (B.cursor "" B.new))
     <> Some (B.toURLSearchParams (B.cursor "" B.new)).
Proof. repeat split; discriminate. Qed.

(** ** [toQueryString] against the specification *)

(** The serialisation in the words of the specification: "for each key,
    for each value (scalars treated as single-element), if the value is
    non-empty, append [key=value] with both key and value percent-encoded
    per standard URL component encoding; join all pairs with [&]; prefix
    the whole thing with [?] if non-empty, else return the empty string".
    Percent-encoding of a URL component keeps the letters, the digits and
    [- _ . ! ~ * ' ( )], and writes every other octet of the UTF-8 text as
    [%] and two upper-case hexadecimal digits. *)
Module Spec.

Definition kept : string :=
  "ABCDEFGHIJKLMNOPQRSTUVWXYZabcdefghijklmnopqrstuvwxyz0123456789-_.!~*'()".

Definition digits : string := "0123456789ABCDEF".

Definition octet (c : ascii) : string :=
  if existsb (Ascii.eqb c) (list_ascii_of_string kept) then String c ""
  else "%" +:+ String.substring (nat_of_ascii c / 16) 1 digits
           +:+ String.substring (nat_of_ascii c mod 16) 1 digits.

Definition percent_encode (s : string) : string :=
  String.concat "" (map octet (list_ascii_of_string s)).

Definition values (v : param_value) : list string :=
  match v with
  | Single s => [s]
  | Many l => l
  end.

(** One pair per non-empty value, a key with several values repeated. *)
Definition pairs (params : PaginateParamsRaw) : list (string * string) :=
  flat_map (fun entry =>
              flat_map (fun v => if String.eqb v "" then [] else [(fst entry, v)])
                       (values (snd entry)))
           params.

Definition written (kv : string * string) : string :=
  percent_encode (fst kv) +:+ "=" +:+ percent_encode (snd kv).

Definition query_string (params : PaginateParamsRaw) : string :=
  match pairs params with
  | [] => ""
  | ps => "?" +:+ String.concat "&" (map written ps)
  end.

End Spec.

Lemma append_empty_r (s : string) : s +:+ "" = s.
Proof.
  induction s as [|c s IH]; [reflexivity|].
  change (String c s +:+ "") with (String c (s +:+ "")). now rewrite IH.
Qed.

Lemma octet_escape (c : ascii) :
  Spec.octet c = if JS.unreserved c then String c EmptyString else JS.escape c.
Proof. destruct c as [[] [] [] [] [] [] [] []]; reflexivity. Qed.

Lemma percent_encode_eq (s : string) : Spec.percent_encode s = JS.encodeURIComponent s.
Proof.
  unfold Spec.percent_encode. induction s as [|c s IH]; [reflexivity|].
  cbn [list_ascii_of_string map JS.encodeURIComponent]. rewrite <- IH, <- octet_escape.
  destruct (map Spec.octet (list_ascii_of_string s)) eqn:E.
  - cbn [String.concat]. now rewrite append_empty_r.
  - cbn [String.concat]. reflexivity.
Qed.

Lemma concat_join (sep : string) (l : list string) : String.concat sep l = JS.join sep l.
Proof.
  induction l as [|x [|y l] IH]; [reflexivity | reflexivity|].
  change (String.concat sep (x :: y :: l)) with (x +:+ sep +:+ String.concat sep (y :: l)).
  now rewrite IH.
Qed.

Lemma spec_pairs (params : PaginateParamsRaw) :
  Spec.pairs params = List.filter has_value (all_pairs params).
Proof.
  unfold Spec.pairs, all_pairs.
  induction params as [|[key val] params IH]; [reflexivity|].
  cbn [flat_map fst snd]. rewrite List.filter_app, IH. f_equal.
  change (Spec.values val) with (values_of val).
  induction (values_of val) as [|v vs IHv]; [reflexivity|].
  cbn [flat_map map List.filter]. rewrite IHv.
  unfold has_value at 2, nonempty. cbn [snd]. now destruct (String.eqb v "").
Qed.

Lemma spec_query_string (params : PaginateParamsRaw) :
  Spec.query_string params = QueryString.toQueryString params.
Proof.
  rewrite toQueryString_query_of. unfold Spec.query_string, query_of.
  rewrite spec_pairs. destruct (List.filter has_value (all_pairs params)) as [|kv kvs];
    [reflexivity|].
  rewrite concat_join. do 2 f_equal. apply map_ext. intros [k v].
  unfold Spec.written, encode_pair, QueryString.query_pair. cbn [fst snd].
  now rewrite !percent_encode_eq.
Qed.

(** The pairs [toQueryString] has to encode. *)
Definition encodable (params : PaginateParamsRaw) : bool :=
  forallb well_formed_pair (List.filter has_value (all_pairs params)).

Lemma throwing_query_pair (key v : string) :
  Throwing.query_pair key v
  = if well_formed_pair (key, v) then Ok (QueryString.query_pair key v) else Throw URIError.
Proof.
  unfold Throwing.query_pair, Throwing.encodeURIComponent, well_formed_pair. cbn [fst snd].
  destruct (JS.well_formed key); [|reflexivity].
  now destruct (JS.well_formed v).
Qed.

Lemma throwing_push_values (key : string) (vs pairs : list string) :
  Throwing.push_values key vs pairs
  = if forallb well_formed_pair (map (pair key) (List.filter nonempty vs))
    then Ok (pairs ++ map (QueryString.query_pair key) (List.filter nonempty vs))
    else Throw URIError.
Proof.
  revert pairs. induction vs as [|v vs IH]; intros pairs.
  - cbn. now rewrite app_nil_r.
  - cbn [Throwing.push_values List.filter]. destruct (nonempty v); [|apply IH].
    cbn [map forallb]. rewrite throwing_query_pair.
    destruct (well_formed_pair (key, v)); [|reflexivity].
    cbn [mbind result_bind andb]. rewrite IH.
    destruct (forallb _ _); [|reflexivity]. now rewrite <- app_assoc.
Qed.

Lemma throwing_push_entry (pairs : list string) (entry : string * param_value) :
  Throwing.push_entry pairs entry
  = if encodable [entry] then Ok (QueryString.push_entry pairs entry) else Throw URIError.
Proof.
  destruct entry as [key [v|vs]]; unfold encodable, all_pairs;
    cbn [flat_map values_of Throwing.push_entry QueryString.push_entry]; rewrite app_nil_r.
  - cbn [map List.filter]. unfold has_value at 1. cbn [snd].
    destruct (nonempty v); [|reflexivity].
    cbn [forallb]. rewrite throwing_query_pair, andb_true_r.
    now destruct (well_formed_pair (key, v)).
  - rewrite throwing_push_values, filter_map_pair, push_values. reflexivity.
Qed.

Lemma encodable_cons (entry : string * param_value) (params : PaginateParamsRaw) :
  encodable (entry :: params) = encodable [entry] && encodable params.
Proof.
  unfold encodable, all_pairs. change (entry :: params) with ([entry] ++ params).
  now rewrite flat_map_app, List.filter_app, forallb_app.
Qed.

Lemma throwing_push_entries (params : PaginateParamsRaw) (pairs : list string) :
  Throwing.push_entries params pairs
  = if encodable params then Ok (fold_left QueryString.push_entry params pairs)
    else Throw URIError.
Proof.
  revert pairs. induction params as [|entry params IH]; intros pairs; [reflexivity|].
  cbn [Throwing.push_entries fold_left]. rewrite throwing_push_entry, (encodable_cons entry params).
  destruct (encodable [entry]); [|reflexivity].
  cbn [mbind result_bind andb]. apply IH.
Qed.

Lemma throwing_toQueryString (params : PaginateParamsRaw) :
  Throwing.toQueryString params
  = if encodable params then Ok (QueryString.toQueryString params) else Throw URIError.
Proof.
  unfold Throwing.toQueryString. rewrite throwing_push_entries.
  now destruct (encodable params).
Qed.

(** The string made of the code unit U+D800 alone. *)
Definition lone_surrogate : string :=
  String (ascii_of_N 237) (String (ascii_of_N 160) (String (ascii_of_N 128) EmptyString)).

(** C8, as the code has it: [toQueryString] returns the serialisation the
    specification describes (one percent-encoded [key=value] pair per
    non-empty value, a scalar counting as a one-element sequence and a key
    with several values giving repeated pairs; the pairs joined with [&]
    behind a [?]; the empty string when there is no pair, as for the empty
    builder) whenever the keys and values it has to encode are well-formed
    text; when one of them holds a lone surrogate, it throws URIError. *)
Theorem toQueryString_as_specified (params : PaginateParamsRaw) :
  Throwing.toQueryString params
  = (if forallb well_formed_pair (Spec.pairs params)
     then Ok (Spec.query_string params)
     else Throw URIError)
  /\ Throwing.toQueryString (B.toParams B.new) = Ok "".
Proof.
  split; [|reflexivity].
  rewrite throwing_toQueryString, spec_query_string, spec_pairs. reflexivity.
Qed.

(** The claim for every param map fails: on a value that holds a lone
    surrogate [encodeURIComponent] throws, and [toQueryString] with it. *)
Lemma toQueryString_throws_on_lone_surrogate :
  Throwing.toQueryString [("search", Single lone_surrogate)] = Throw URIError.
Proof. reflexivity. Qed.

Example toQueryString_skips_and_repeats :
  Throwing.toQueryString
    [("search", Single "a b"); ("cursor", Single ""); ("searchBy", Many ["x"; ""; "y"])]
  = Ok "?search=a%20b&searchBy=x&searchBy=y"
  /\ Spec.pairs
       [("search", Single "a b"); ("cursor", Single ""); ("searchBy", Many ["x"; ""; "y"])]
     = [("search", "a b"); ("searchBy", "x"); ("searchBy", "y")].
Proof. split; reflexivity. Qed.

(** ** An empty token array: [filter(c, [])] *)





(** ** Tolerant parsing *)

(** The pieces the loop of [fromQueryString] runs over. *)
Definition pieces (qs : string) : list string :=
  JS.split "&" (if JS.startsWith "?" qs then JS.slice_from 1 qs else qs).

Definition initial : Parse.state := Parse.mk_state B.new [] [].

Definition filter_column (key : string) : string :=
  JS.slice_from (String.length "filter.") key.

(** A piece on which an iteration cannot throw: it has no [=], or its key
    and value are decodable and it does not name, as a filter column, a
    member inherited from [Object.prototype]. *)
Definition piece_safe (p : string) : bool :=
  match JS.indexOf "=" p with
  | None => true
  | Some i =>
      match JS.decodeURIComponent (JS.slice_to i p),
            JS.decodeURIComponent (JS.slice_from (S i) p) with
      | Some key, Some _ =>
          negb (JS.startsWith "filter." key && Dict.inherited (filter_column key))
      | _, _ => false
      end
  end.

Definition recognised (key : string) : bool :=
  existsb (String.eqb key)
    ["page"; "limit"; "sortBy"; "search"; "searchBy"; "select"; "cursor"; "withDeleted"]
  || JS.startsWith "filter." key.

Definition is_none {A : Type} (o : option A) : bool :=
  match o with Some _ => false | None => true end.

(** A malformed piece: empty, without [=], a [page] or [limit] that is not
    a number, a [sortBy] without a colon, or an unrecognised key. *)
Definition ignorable (p : string) : bool :=
  match JS.indexOf "=" p with
  | None => true
  | Some i =>
      match JS.decodeURIComponent (JS.slice_to i p),
            JS.decodeURIComponent (JS.slice_from (S i) p) with
      | Some key, Some val =>
          if String.eqb key "page" || String.eqb key "limit" then is_none (JS.parseInt val)
          else if String.eqb key "sortBy" then is_none (JS.lastIndexOf ":" val)
          else negb (recognised key)
      | _, _ => false
      end
  end.

Lemma step_ignorable (st : Parse.state) (p : string) :
  ignorable p = true -> Parse.step st p = Ok st.
Proof.
  unfold ignorable, Parse.step, Parse.decodeURIComponent.
  destruct (nonempty p); [|reflexivity]. cbn [negb].
  destruct (JS.indexOf "=" p) as [i|]; [|reflexivity].
  destruct (JS.decodeURIComponent (JS.slice_to i p)) as [key|]; [|discriminate].
  destruct (JS.decodeURIComponent (JS.slice_from (S i) p)) as [val|]; [|discriminate].
  cbn [mbind result_bind]. unfold Parse.dispatch, recognised. cbn [existsb].
  destruct (String.eqb key "page").
  { cbn [orb]. now destruct (JS.parseInt val). }
  destruct (String.eqb key "limit").
  { cbn [orb]. now destruct (JS.parseInt val). }
  cbn [orb]. destruct (String.eqb key "sortBy").
  { now destruct (JS.lastIndexOf ":" val). }
  destruct (String.eqb key "search"); [discriminate|].
  destruct (String.eqb key "searchBy"); [discriminate|].
  destruct (String.eqb key "select"); [discriminate|].
  destruct (String.eqb key "cursor"); [discriminate|].
  destruct (String.eqb key "withDeleted"); [discriminate|].
  cbn [orb]. destruct (JS.startsWith "filter." key); [discriminate | reflexivity].
Qed.

Lemma step_safe (st : Parse.state) (p : string) :
  piece_safe p = true -> exists st', Parse.step st p = Ok st'.
Proof.
  unfold piece_safe, Parse.step, Parse.decodeURIComponent.
  destruct (nonempty p); [|eauto]. cbn [negb].
  destruct (JS.indexOf "=" p) as [i|]; [|eauto].
  destruct (JS.decodeURIComponent (JS.slice_to i p)) as [key|]; [|discriminate].
  destruct (JS.decodeURIComponent (JS.slice_from (S i) p)) as [val|]; [|discriminate].
  cbn [mbind result_bind]. unfold Parse.dispatch. intros H.
  destruct (String.eqb key "page"); [destruct (JS.parseInt val); eauto|].
  destruct (String.eqb key "limit"); [destruct (JS.parseInt val); eauto|].
  destruct (String.eqb key "sortBy"); [destruct (JS.lastIndexOf ":" val); eauto|].
  destruct (String.eqb key "search"); [eauto|].
  destruct (String.eqb key "searchBy"); [eauto|].
  destruct (String.eqb key "select"); [eauto|].
  destruct (String.eqb key "cursor"); [eauto|].
  destruct (String.eqb key "withDeleted"); [eauto|].
  destruct (JS.startsWith "filter." key); [|eauto].
  cbn [andb] in H. apply negb_true_iff in H.
  unfold Parse.push_filter, filter_column in *.
  destruct (Dict.get _ _); [eauto|]. rewrite H. eauto.
Qed.

Lemma loop_safe (ps : list string) (st : Parse.state) :
  forallb piece_safe ps = true -> exists st', Parse.loop st ps = Ok st'.
Proof.
  revert st. induction ps as [|p ps IH]; intros st H; simpl in *; [eauto|].
  apply andb_true_iff in H as [Hp Hps].
  destruct (step_safe st p Hp) as [st1 ->]. cbn [mbind result_bind]. now apply IH.
Qed.

Lemma loop_skips (ps : list string) (st : Parse.state) :
  Parse.loop st (List.filter (fun p => negb (ignorable p)) ps) = Parse.loop st ps.
Proof.
  revert st. induction ps as [|p ps IH]; intros st; [reflexivity|].
  cbn [List.filter Parse.loop]. destruct (ignorable p) eqn:E; cbn [negb].
  - rewrite (step_ignorable st p E). cbn [mbind result_bind]. apply IH.
  - cbn [Parse.loop]. destruct (Parse.step st p); cbn [mbind result_bind]; [apply IH | reflexivity].
Qed.

Lemma fromQueryString_loop (qs : string) :
  fromQueryString qs
  = match Parse.loop initial (pieces qs) with
    | Ok st => Ok (Parse.finish st)
    | Throw e => Throw e
    end.
Proof.
  unfold fromQueryString, Parse.fromQueryString, pieces.
  destruct (nonempty _) eqn:E; cbn [negb]; [reflexivity|].
  unfold nonempty in E. apply negb_false_iff, String.eqb_eq in E. now rewrite E.
Qed.

(** C4, as the code has it: when every piece with an [=] has a decodable
    key and value and names no filter column inherited from
    [Object.prototype], [fromQueryString] raises no error, and the builder
    it returns is the one built from the pieces that are not malformed:
    pieces that are empty, lack an [=], carry a non-numeric [page] or
    [limit], a [sortBy] without a colon or an unrecognised key are skipped,
    all the others are applied in order. *)
Theorem fromQueryString_tolerant (qs : string) :
  forallb piece_safe (pieces qs) = true ->
  exists st,
    Parse.loop initial (List.filter (fun p => negb (ignorable p)) (pieces qs)) = Ok st
    /\ fromQueryString qs = Ok (Parse.finish st).
Proof.
  intros H. destruct (loop_safe _ initial H) as [st Hst].
  exists st. rewrite loop_skips, fromQueryString_loop, Hst. split; reflexivity.
Qed.

Lemma fromQueryString_tolerant_witness :
  forallb piece_safe (pieces "?page=abc&&limit=5&utm_source=x&novalue&sortBy=name") = true
  /\ fromQueryString "?page=abc&&limit=5&utm_source=x&novalue&sortBy=name"
     = Ok (B.limit 5 B.new).
Proof.
  split; [reflexivity|].
  destruct (fromQueryString_tolerant
              "?page=abc&&limit=5&utm_source=x&novalue&sortBy=name" eq_refl)
    as (st & Hloop & Hres).
  rewrite Hres. vm_compute in Hloop. injection Hloop as <-. reflexivity.
Defined.

(** A malformed percent-encoding is not skipped: [decodeURIComponent]
    throws and nothing catches it. *)
Lemma fromQueryString_throws_on_bad_escape :
  fromQueryString "?page=2&search=100%" = Throw URIError.
Proof. reflexivity. Qed.

(** In general: a piece with an [=] whose key or value cannot be decoded
    makes the whole parse throw. *)
Definition undecodable (p : string) : bool :=
  match JS.indexOf "=" p with
  | None => false
  | Some i =>
      is_none (JS.decodeURIComponent (JS.slice_to i p))
      || is_none (JS.decodeURIComponent (JS.slice_from (S i) p))
  end.

Lemma step_undecodable (st : Parse.state) (p : string) :
  undecodable p = true -> Parse.step st p = Throw URIError.
Proof.
  unfold undecodable, Parse.step, Parse.decodeURIComponent.
  destruct (JS.indexOf "=" p) as [i|] eqn:E; [|discriminate].
  assert (Hne : nonempty p = true) by (destruct p; [discriminate | reflexivity]).
  rewrite Hne. cbn [negb].
  destruct (JS.decodeURIComponent (JS.slice_to i p)); [|reflexivity].
  destruct (JS.decodeURIComponent (JS.slice_from (S i) p)); [discriminate | reflexivity].
Qed.

Lemma loop_undecodable (ps : list string) (st : Parse.state) :
  existsb undecodable ps = true -> exists e, Parse.loop st ps = Throw e.
Proof.
  revert st. induction ps as [|p ps IH]; intros st H; [discriminate|].
  cbn [existsb] in H. cbn [Parse.loop].
  destruct (Parse.step st p) as [st'|e] eqn:Es; cbn [mbind result_bind]; [|eauto].
  apply orb_true_iff in H as [H|H]; [|now apply IH].
  rewrite (step_undecodable st p H) in Es. discriminate.
Qed.

Lemma fromQueryString_throws_on_undecodable (qs : string) :
  existsb undecodable (pieces qs) = true -> exists e, fromQueryString qs = Throw e.
Proof.
  intros H. rewrite fromQueryString_loop.
  destruct (loop_undecodable _ initial H) as [e ->]. eauto.
Qed.

(** Neither is a filter on a column named like an inherited member. *)
Example fromQueryString_throws_on_inherited_column :
  fromQueryString "?filter.constructor=%24eq%3Ax" = Throw TypeError.
Proof. reflexivity. Qed.

(** ** Parsing what [toQueryString] wrote *)

(** The loop of [fromQueryString] on decoded pairs. *)
Fixpoint dispatch_all (st : Parse.state) (kvs : list (string * string)) : result Parse.state :=
  match kvs with
  | [] => Ok st
  | kv :: rest => st' ← Parse.dispatch (fst kv) (snd kv) st; dispatch_all st' rest
  end.

Lemma dispatch_all_app (st : Parse.state) (k1 k2 : list (string * string)) :
  dispatch_all st (k1 ++ k2) = st' ← dispatch_all st k1; dispatch_all st' k2.
Proof.
  revert st. induction k1 as [|kv k1 IH]; intros st; [reflexivity|].
  cbn [app dispatch_all]. destruct (Parse.dispatch _ _ st); cbn [mbind result_bind]; auto.
Qed.

Lemma step_encode_pair (st : Parse.state) (kv : string * string) :
  well_formed_pair kv = true ->
  Parse.step st (encode_pair kv) = Parse.dispatch (fst kv) (snd kv) st.
Proof.
  intros H. apply andb_true_iff in H as [Hk Hv].
  unfold Parse.step. rewrite encode_pair_nonempty. cbn [negb].
  destruct (query_pair_split (fst kv) (snd kv)) as (E1 & E2 & E3).
  unfold encode_pair. rewrite E1, E2, E3.
  unfold Parse.decodeURIComponent. now rewrite !decode_encode.
Qed.

Lemma loop_encode (kvs : list (string * string)) (st : Parse.state) :
  forallb well_formed_pair kvs = true ->
  Parse.loop st (map encode_pair kvs) = dispatch_all st kvs.
Proof.
  revert st. induction kvs as [|kv kvs IH]; intros st H; [reflexivity|].
  cbn [forallb] in H. apply andb_true_iff in H as [Hkv Hkvs].
  cbn [map Parse.loop dispatch_all]. rewrite step_encode_pair by assumption.
  destruct (Parse.dispatch _ _ st); cbn [mbind result_bind]; auto.
Qed.

Lemma pieces_query_of (kv : string * string) (kvs : list (string * string)) :
  pieces (query_of (kv :: kvs)) = map encode_pair (kv :: kvs).
Proof.
  unfold pieces, query_of, JS.startsWith. rewrite prefix_app.
  change (JS.slice_from 1 ("?" +:+ ?x)) with x. apply split_query_of.
Qed.

Lemma fromQueryString_query_of (kvs : list (string * string)) :
  forallb well_formed_pair kvs = true ->
  fromQueryString (query_of kvs)
  = match dispatch_all initial kvs with
    | Ok st => Ok (Parse.finish st)
    | Throw e => Throw e
    end.
Proof.
  intros H. destruct kvs as [|kv kvs]; [reflexivity|].
  rewrite fromQueryString_loop, pieces_query_of. now rewrite loop_encode.
Qed.

(** The pairs that reach the query string. *)
Definition kv_of (params : PaginateParamsRaw) : list (string * string) :=
  List.filter has_value (all_pairs params).

Lemma kv_of_app (p q : PaginateParamsRaw) : kv_of (p ++ q) = kv_of p ++ kv_of q.
Proof. unfold kv_of, all_pairs. now rewrite flat_map_app, List.filter_app. Qed.

Lemma kv_of_single (k v : string) :
  kv_of [(k, Single v)] = if nonempty v then [(k, v)] else [].
Proof. unfold kv_of, all_pairs, has_value. simpl. now destruct (nonempty v). Qed.

Lemma filter_all {A : Type} (P : A -> bool) (l : list A) :
  forallb P l = true -> List.filter P l = l.
Proof.
  induction l as [|x l IH]; simpl; [reflexivity|].
  intros H. apply andb_true_iff in H as [-> Hl]. now rewrite IH.
Qed.

Lemma kv_of_many (k : string) (vs : list string) :
  forallb nonempty vs = true -> kv_of [(k, Many vs)] = map (pair k) vs.
Proof.
  intros H. unfold kv_of, all_pairs. cbn [flat_map values_of]. rewrite app_nil_r.
  now rewrite filter_map_pair, filter_all.
Qed.

(** *** The dispatch, key by key *)

Lemma dispatch_page (val : string) (st : Parse.state) :
  Parse.dispatch "page" val st
  = match JS.parseInt val with
    | Some n => Ok (Parse.with_builder (B.page n) st)
    | None => Ok st
    end.
Proof. reflexivity. Qed.

Lemma dispatch_limit (val : string) (st : Parse.state) :
  Parse.dispatch "limit" val st
  = match JS.parseInt val with
    | Some n => Ok (Parse.with_builder (B.limit n) st)
    | None => Ok st
    end.
Proof. reflexivity. Qed.

Lemma dispatch_sortBy (val : string) (st : Parse.state) :
  Parse.dispatch "sortBy" val st
  = match JS.lastIndexOf ":" val with
    | Some i =>
        Ok (Parse.with_builder (B.sortBy (JS.slice_to i val) (JS.slice_from (S i) val)) st)
    | None => Ok st
    end.
Proof. reflexivity. Qed.

Lemma dispatch_search (val : string) (st : Parse.state) :
  Parse.dispatch "search" val st = Ok (Parse.with_builder (B.search val) st).
Proof. reflexivity. Qed.

Lemma dispatch_searchBy (val : string) (st : Parse.state) :
  Parse.dispatch "searchBy" val st
  = Ok (Parse.mk_state (Parse.builder st) (Parse.searchByValues st ++ [val])
                       (Parse.filterMap st)).
Proof. reflexivity. Qed.

Lemma dispatch_select (val : string) (st : Parse.state) :
  Parse.dispatch "select" val st
  = Ok (Parse.with_builder (B.select (JS.split "," val)) st).
Proof. reflexivity. Qed.

Lemma dispatch_cursor (val : string) (st : Parse.state) :
  Parse.dispatch "cursor" val st = Ok (Parse.with_builder (B.cursor val) st).
Proof. reflexivity. Qed.

Lemma dispatch_withDeleted (val : string) (st : Parse.state) :
  Parse.dispatch "withDeleted" val st
  = Ok (Parse.with_builder (B.withDeleted (String.eqb val "true")) st).
Proof. reflexivity. Qed.

Lemma dispatch_filter (c val : string) (st : Parse.state) :
  Parse.dispatch ("filter." +:+ c) val st = Parse.push_filter c val st.
Proof.
  unfold Parse.dispatch.
  change (String.eqb ("filter." +:+ c) "page") with false.
  change (String.eqb ("filter." +:+ c) "limit") with false.
  change (String.eqb ("filter." +:+ c) "sortBy") with false.
  change (String.eqb ("filter." +:+ c) "search") with false.
  change (String.eqb ("filter." +:+ c) "searchBy") with false.
  change (String.eqb ("filter." +:+ c) "select") with false.
  change (String.eqb ("filter." +:+ c) "cursor") with false.
  change (String.eqb ("filter." +:+ c) "withDeleted") with false.
  cbv iota. unfold JS.startsWith. rewrite prefix_app. reflexivity.
Qed.

(** *** The fixed keys *)

Lemma String_nonempty (n : Z) : nonempty (JS.String_ n) = true.
Proof.
  destruct n as [|p|p]; [reflexivity| |reflexivity].
  unfold JS.String_.
  destruct (string_of_uint_head _ (Unsigned.to_uint_nonnil p)) as (c & r & -> & _).
  reflexivity.
Qed.

(** A sort rule as [fromQueryString] reads it back. *)
Definition resplit (rule : string * SortDirection) : string * SortDirection :=
  let v := B.sort_rule_string rule in
  match JS.lastIndexOf ":" v with
  | Some i => (JS.slice_to i v, JS.slice_from (S i) v)
  | None => rule
  end.

Lemma sort_rule_string_resplit (rule : string * SortDirection) :
  B.sort_rule_string (resplit rule) = B.sort_rule_string rule.
Proof.
  unfold resplit. destruct (JS.lastIndexOf ":" (B.sort_rule_string rule)) as [i|] eqn:E;
    [|reflexivity].
  apply lastIndexOf_slices in E. exact E.
Qed.

Lemma sort_rule_string_nonempty (rule : string * SortDirection) :
  nonempty (B.sort_rule_string rule) = true.
Proof. destruct rule as [c d]. apply nonempty_app_cons. Qed.

Definition add_sorts (rs : list (string * SortDirection)) (b : B.t) : B.t :=
  B.mk (B._page b) (B._limit b) (B._sortBy b ++ rs) (B._search b) (B._searchBy b)
       (B._select b) (B._filter b) (B._cursor b) (B._withDeleted b).

Lemma dispatch_sorts (rules : list (string * SortDirection)) (st : Parse.state) :
  dispatch_all st (map (pair "sortBy") (map B.sort_rule_string rules))
  = Ok (Parse.with_builder (add_sorts (map resplit rules)) st).
Proof.
  revert st. induction rules as [|r rules IH]; intros st.
  - destruct st as [[] ? ?]. unfold Parse.with_builder, add_sorts. simpl.
    now rewrite app_nil_r.
  - cbn [map dispatch_all fst snd]. rewrite dispatch_sortBy.
    pose proof (sort_rule_string_resplit r) as Hr. unfold resplit in *.
    destruct r as [c d].
    pose proof (lastIndexOf_found ":" c d) as Hf.
    change (c +:+ String ":" d) with (B.sort_rule_string (c, d)) in Hf.
    destruct (JS.lastIndexOf ":" (B.sort_rule_string (c, d))) as [i|]; [|congruence].
    cbn [mbind result_bind]. rewrite IH. f_equal.
    destruct st as [[] ? ?]. unfold Parse.with_builder, add_sorts, B.sortBy. simpl.
    now rewrite <- app_assoc.
Qed.

Lemma dispatch_searchBys (cols : list string) (st : Parse.state) :
  dispatch_all st (map (pair "searchBy") cols)
  = Ok (Parse.mk_state (Parse.builder st) (Parse.searchByValues st ++ cols)
                       (Parse.filterMap st)).
Proof.
  revert st. induction cols as [|c cols IH]; intros st.
  - destruct st. simpl. now rewrite app_nil_r.
  - cbn [map dispatch_all fst snd]. rewrite dispatch_searchBy. cbn [mbind result_bind].
    rewrite IH. simpl. now rewrite <- app_assoc.
Qed.

Lemma join_empty (l : list string) :
  JS.join "," l = "" -> l = [] \/ l = [""].
Proof.
  destruct l as [|x [|y l]]; simpl; intros H; [now left | right; now subst |].
  destruct x; discriminate.
Qed.

Lemma seg_page (pg : option Z) (st : Parse.state) :
  dispatch_all st (kv_of match pg with
                         | Some n => [("page", Single (JS.String_ n))]
                         | None => []
                         end)
  = Ok match pg with Some n => Parse.with_builder (B.page n) st | None => st end.
Proof.
  destruct pg as [n|]; [|reflexivity].
  rewrite kv_of_single, String_nonempty. cbn [dispatch_all fst snd].
  now rewrite dispatch_page, parseInt_String.
Qed.

Lemma seg_limit (lm : option Z) (st : Parse.state) :
  dispatch_all st (kv_of match lm with
                         | Some n => [("limit", Single (JS.String_ n))]
                         | None => []
                         end)
  = Ok match lm with Some n => Parse.with_builder (B.limit n) st | None => st end.
Proof.
  destruct lm as [n|]; [|reflexivity].
  rewrite kv_of_single, String_nonempty. cbn [dispatch_all fst snd].
  now rewrite dispatch_limit, parseInt_String.
Qed.

Lemma seg_sortBy (sb : list (string * SortDirection)) (st : Parse.state) :
  dispatch_all st (kv_of match sb with
                         | [] => []
                         | _ :: _ => [("sortBy", Many (map B.sort_rule_string sb))]
                         end)
  = Ok (Parse.with_builder (add_sorts (map resplit sb)) st).
Proof.
  rewrite <- dispatch_sorts. f_equal.
  destruct sb as [|r sb]; [reflexivity|].
  apply kv_of_many. apply forallb_forall. intros x Hx.
  apply in_map_iff in Hx as (r0 & <- & _). apply sort_rule_string_nonempty.
Qed.

Lemma seg_search (se : option string) (st : Parse.state) :
  dispatch_all st (kv_of match se with
                         | Some s => if nonempty s then [("search", Single s)] else []
                         | None => []
                         end)
  = Ok match se with
       | Some s => if nonempty s then Parse.with_builder (B.search s) st else st
       | None => st
       end.
Proof.
  destruct se as [s|]; [|reflexivity].
  destruct (nonempty s) eqn:E; [|reflexivity].
  rewrite kv_of_single, E. reflexivity.
Qed.

Lemma seg_searchBy (sby : list string) (st : Parse.state) :
  forallb nonempty sby = true ->
  dispatch_all st (kv_of match sby with
                         | [] => []
                         | _ :: _ => [("searchBy", Many sby)]
                         end)
  = Ok (Parse.mk_state (Parse.builder st) (Parse.searchByValues st ++ sby)
                       (Parse.filterMap st)).
Proof.
  intros H. rewrite <- dispatch_searchBys. f_equal.
  destruct sby as [|c sby]; [reflexivity|]. now apply kv_of_many.
Qed.

Lemma seg_select (sel : list string) (st : Parse.state) :
  match sel with [s] => nonempty s | _ => true end = true ->
  dispatch_all st (kv_of match sel with
                         | [] => []
                         | _ :: _ => [("select", Single (JS.join "," sel))]
                         end)
  = Ok match sel with
       | [] => st
       | _ :: _ => Parse.with_builder (B.select (JS.split "," (JS.join "," sel))) st
       end.
Proof.
  intros H. destruct sel as [|s sel]; [reflexivity|].
  rewrite kv_of_single.
  assert (E : nonempty (JS.join "," (s :: sel)) = true).
  { unfold nonempty. apply negb_true_iff, String.eqb_neq. intros J.
    apply join_empty in J as [J|J]; [discriminate|].
    injection J as -> ->. discriminate. }
  rewrite E. reflexivity.
Qed.

Lemma seg_cursor (cu : option string) (st : Parse.state) :
  match cu with Some c => nonempty c | None => true end = true ->
  dispatch_all st (kv_of match cu with
                         | Some c => [("cursor", Single c)]
                         | None => []
                         end)
  = Ok match cu with Some c => Parse.with_builder (B.cursor c) st | None => st end.
Proof.
  intros H. destruct cu as [c|]; [|reflexivity].
  rewrite kv_of_single, H. reflexivity.
Qed.

Lemma seg_withDeleted (wd : option bool) (st : Parse.state) :
  dispatch_all st (kv_of match wd with
                         | Some true => [("withDeleted", Single "true")]
                         | _ => []
                         end)
  = Ok match wd with
       | Some true => Parse.with_builder (B.withDeleted true) st
       | _ => st
       end.
Proof. destruct wd as [[]|]; reflexivity. Qed.

(** The builder the loop has assembled once the fixed keys are read. *)
Definition reparsed_fixed (b : B.t) : B.t :=
  B.mk (B._page b) (B._limit b) (map resplit (B._sortBy b))
       match B._search b with
       | Some s => if nonempty s then Some s else None
       | None => None
       end
       []
       match B._select b with
       | [] => []
       | _ :: _ => JS.split "," (JS.join "," (B._select b))
       end
       []
       (B._cursor b)
       match B._withDeleted b with Some true => Some true | _ => None end.

Lemma dispatch_fixed (b : B.t) :
  match B._cursor b with Some c => nonempty c | None => true end = true ->
  forallb nonempty (B._searchBy b) = true ->
  match B._select b with [s] => nonempty s | _ => true end = true ->
  dispatch_all initial (kv_of (fixed_params b))
  = Ok (Parse.mk_state (reparsed_fixed b) (B._searchBy b) []).
Proof.
  destruct b as [pg lm sb se sby sel fl cu wd].
  unfold fixed_params, reparsed_fixed.
  cbn [B._page B._limit B._sortBy B._search B._searchBy B._select B._cursor
       B._withDeleted B._filter].
  intros Hcu Hsby Hsel.
  rewrite !kv_of_app.
  rewrite dispatch_all_app, seg_page. cbn [mbind result_bind].
  rewrite dispatch_all_app, seg_limit. cbn [mbind result_bind].
  rewrite dispatch_all_app, seg_sortBy. cbn [mbind result_bind].
  rewrite dispatch_all_app, seg_search. cbn [mbind result_bind].
  rewrite dispatch_all_app, seg_searchBy by assumption. cbn [mbind result_bind].
  rewrite dispatch_all_app, seg_select by assumption. cbn [mbind result_bind].
  rewrite dispatch_all_app, seg_cursor by assumption. cbn [mbind result_bind].
  rewrite seg_withDeleted. f_equal.
  destruct pg, lm, se as [se|], sel, cu, wd as [[]|];
    try destruct (nonempty se); reflexivity.
Qed.

(** *** The filter keys *)

(** A filter entry that survives the round trip: a non-empty token, or at
    least two non-empty tokens. *)
Definition entry_round_trips (v : param_value) : bool :=
  match v with
  | Single s => nonempty s
  | Many l => (2 <=? length l)%nat && forallb nonempty l
  end.

Definition filter_ok (e : string * param_value) : bool :=
  negb (Dict.inherited (fst e)) && entry_round_trips (snd e).

Definition filter_values (fs : list (string * param_value)) : list (string * list string) :=
  map (fun '(c, v) => (c, values_of v)) fs.

Definition filter_pairs (fs : list (string * param_value)) : list (string * string) :=
  flat_map (fun '(c, v) => map (pair ("filter." +:+ c)) (values_of v)) fs.

Lemma keys_filter_values fs : Dict.keys (filter_values fs) = Dict.keys fs.
Proof.
  unfold filter_values, Dict.keys. rewrite map_map. apply map_ext. now intros [c v].
Qed.

Lemma entry_values_nonempty (v : param_value) :
  entry_round_trips v = true -> forallb nonempty (values_of v) = true /\ values_of v <> [].
Proof.
  destruct v as [s|l]; simpl; intros H.
  - rewrite H. split; [reflexivity | discriminate].
  - apply andb_true_iff in H as [Hlen Hl]. split; [assumption|].
    destruct l; [discriminate | discriminate].
Qed.

Lemma kv_of_filter_params fs :
  forallb filter_ok fs = true -> kv_of (filter_params fs) = filter_pairs fs.
Proof.
  induction fs as [|[c v] fs IH]; intros H; [reflexivity|].
  cbn [forallb] in H. apply andb_true_iff in H as [Hcv Hfs].
  apply andb_true_iff in Hcv as [_ Hv]. cbn [snd] in Hv.
  change (filter_params ((c, v) :: fs))
    with ([("filter." +:+ c, v)] ++ filter_params fs).
  rewrite kv_of_app, IH by assumption.
  cbn [filter_pairs flat_map]. f_equal.
  unfold kv_of, all_pairs. cbn [flat_map]. rewrite app_nil_r.
  rewrite filter_map_pair, filter_all; [reflexivity|].
  now apply entry_values_nonempty.
Qed.

Lemma set_last {V : Type} (o : list (string * V)) (k : string) (x y : V) :
  ~ In k (Dict.keys o) -> Dict.set k x (o ++ [(k, y)]) = o ++ [(k, x)].
Proof.
  induction o as [|[k0 v0] o IH]; simpl; intros H.
  - now rewrite String.eqb_refl.
  - destruct (String.eqb k0 k) eqn:E.
    + apply String.eqb_eq in E. tauto.
    + f_equal. apply IH. tauto.
Qed.

Lemma push_more (c : string) (vs acc : list string) (b : B.t) (sv : list string)
    (fm : list (string * list string)) :
  ~ In c (Dict.keys fm) ->
  dispatch_all (Parse.mk_state b sv (fm ++ [(c, acc)])) (map (pair ("filter." +:+ c)) vs)
  = Ok (Parse.mk_state b sv (fm ++ [(c, acc ++ vs)])).
Proof.
  intros Hc. revert acc. induction vs as [|v vs IH]; intros acc.
  - simpl. now rewrite app_nil_r.
  - cbn [map dispatch_all fst snd]. rewrite dispatch_filter.
    unfold Parse.push_filter. cbn [Parse.filterMap Parse.builder Parse.searchByValues].
    rewrite get_snoc by assumption. rewrite set_last by assumption.
    cbn [mbind result_bind]. rewrite IH. now rewrite <- app_assoc.
Qed.

Lemma push_column (c : string) (vs : list string) (b : B.t) (sv : list string)
    (fm : list (string * list string)) :
  vs <> [] -> Dict.inherited c = false -> ~ In c (Dict.keys fm) ->
  dispatch_all (Parse.mk_state b sv fm) (map (pair ("filter." +:+ c)) vs)
  = Ok (Parse.mk_state b sv (fm ++ [(c, vs)])).
Proof.
  intros Hvs Hin Hc. destruct vs as [|v vs]; [congruence|].
  cbn [map dispatch_all fst snd]. rewrite dispatch_filter.
  unfold Parse.push_filter. cbn [Parse.filterMap Parse.builder Parse.searchByValues].
  assert (Hg : Dict.get c fm = None) by now apply get_None_keys.
  rewrite Hg, Hin, set_fresh by assumption.
  cbn [mbind result_bind]. now rewrite push_more.
Qed.

Lemma push_columns (fs done : list (string * param_value)) (b : B.t) (sv : list string) :
  NoDup (Dict.keys (done ++ fs)) -> forallb filter_ok fs = true ->
  dispatch_all (Parse.mk_state b sv (filter_values done)) (filter_pairs fs)
  = Ok (Parse.mk_state b sv (filter_values (done ++ fs))).
Proof.
  revert done. induction fs as [|[c v] fs IH]; intros done Hnd Hok.
  - simpl. now rewrite app_nil_r.
  - cbn [forallb] in Hok. apply andb_true_iff in Hok as [Hcv Hfs].
    apply andb_true_iff in Hcv as [Hc Hv]. cbn [fst snd] in Hc, Hv.
    apply negb_true_iff in Hc.
    cbn [filter_pairs flat_map]. rewrite dispatch_all_app.
    rewrite push_column.
    + cbn [mbind result_bind].
      change (filter_values done ++ [(c, values_of v)])
        with (filter_values done ++ filter_values [(c, v)]).
      unfold filter_values at 1 2. rewrite <- map_app.
      fold (filter_values (done ++ [(c, v)])).
      fold (filter_pairs fs). rewrite IH.
      * now rewrite <- app_assoc.
      * now rewrite <- app_assoc.
      * assumption.
    + now apply entry_values_nonempty.
    + assumption.
    + rewrite keys_filter_values. unfold Dict.keys in *.
      rewrite map_app in Hnd. simpl in Hnd.
      apply NoDup_app in Hnd as (_ & Hd & _).
      intros Hin. apply (Hd c); [now apply list_elem_of_In | left].
Qed.

(** *** After the loop *)

Definition with_filter (fl : list (string * param_value)) (b : B.t) : B.t :=
  B.mk (B._page b) (B._limit b) (B._sortBy b) (B._search b) (B._searchBy b)
       (B._select b) fl (B._cursor b) (B._withDeleted b).

Lemma filter_entry_fresh (v : param_value) :
  entry_round_trips v = true -> B.filter_entry None (Many (values_of v)) = v.
Proof.
  destruct v as [s|l]; simpl; intros H; [reflexivity|].
  apply andb_true_iff in H as [Hlen _].
  destruct l as [|x [|y l]]; [discriminate | discriminate | reflexivity].
Qed.

Lemma finish_filters (fs done : list (string * param_value)) (b : B.t) :
  NoDup (Dict.keys (done ++ fs)) -> forallb filter_ok fs = true ->
  fold_left (fun b '(col, values) => B.filter col (Many values) b)
            (filter_values fs) (with_filter done b)
  = with_filter (done ++ fs) b.
Proof.
  revert done. induction fs as [|[c v] fs IH]; intros done Hnd Hok.
  - simpl. now rewrite app_nil_r.
  - cbn [forallb] in Hok. apply andb_true_iff in Hok as [Hcv Hfs].
    apply andb_true_iff in Hcv as [_ Hv]. cbn [snd] in Hv.
    cbn [filter_values map fold_left].
    assert (Hc : ~ In c (Dict.keys done)).
    { unfold Dict.keys in *. rewrite map_app in Hnd. simpl in Hnd.
      apply NoDup_app in Hnd as (_ & Hd & _).
      intros Hin. apply (Hd c); [now apply list_elem_of_In | left]. }
    assert (E : B.filter c (Many (values_of v)) (with_filter done b)
                = with_filter (done ++ [(c, v)]) b).
    { unfold B.filter, with_filter. cbn [B._filter B._page B._limit B._sortBy B._search
        B._searchBy B._select B._cursor B._withDeleted].
      assert (Hg : Dict.get c done = None) by now apply get_None_keys.
      rewrite Hg, filter_entry_fresh, set_fresh by assumption. reflexivity. }
    rewrite E. fold (filter_values fs). rewrite IH.
    + now rewrite <- app_assoc.
    + now rewrite <- app_assoc.
    + assumption.
Qed.

(** ** Round trip *)

Lemma apply_filter_keys (m : mutation) (b : B.t) :
  NoDup (Dict.keys (B._filter b)) -> NoDup (Dict.keys (B._filter (apply m b))).
Proof. destruct m; simpl; auto. apply NoDup_keys_set. Qed.

Lemma run_filter_keys (ms : list mutation) (b : B.t) :
  NoDup (Dict.keys (B._filter b)) -> NoDup (Dict.keys (B._filter (run ms b))).
Proof.
  revert b. induction ms as [|m ms IH]; intros b H; [assumption|].
  apply IH. now apply apply_filter_keys.
Qed.

(** The states whose param map survives serialising and parsing: no value
    that [toQueryString] would skip (an empty cursor, an empty [searchBy]
    column, a [select] list that joins to the empty string, an empty filter
    token), no filter entry that parsing would store in the other
    representation (an array of fewer than two tokens), no filter column
    named like a member of [Object.prototype], and well-formed text
    throughout. *)
Definition round_trips (b : B.t) : bool :=
  match B._cursor b with Some c => nonempty c | None => true end
  && forallb nonempty (B._searchBy b)
  && match B._select b with [s] => nonempty s | _ => true end
  && forallb filter_ok (B._filter b)
  && forallb well_formed_pair (B.toURLSearchParams b).

(** The builder [fromQueryString] returns for the query string of [b]. *)
Definition reparsed (b : B.t) : B.t :=
  with_filter (B._filter b)
    match B._searchBy b with
    | [] => reparsed_fixed b
    | _ :: _ => B.searchBy (B._searchBy b) (reparsed_fixed b)
    end.

Lemma map_sort_rule_string_resplit (sb : list (string * SortDirection)) :
  map B.sort_rule_string (map resplit sb) = map B.sort_rule_string sb.
Proof.
  rewrite map_map. apply map_ext. intros r. apply sort_rule_string_resplit.
Qed.

Lemma fixed_params_reparsed (b : B.t) : fixed_params (reparsed b) = fixed_params b.
Proof.
  destruct b as [pg lm sb se sby sel fl cu wd].
  unfold fixed_params, reparsed, reparsed_fixed, with_filter.
  assert (Hsb : match map resplit sb with
                | [] => []
                | _ :: _ => [("sortBy", Many (map B.sort_rule_string (map resplit sb)))]
                end
                = match sb with
                  | [] => []
                  | _ :: _ => [("sortBy", Many (map B.sort_rule_string sb))]
                  end).
  { rewrite map_sort_rule_string_resplit. now destruct sb. }
  assert (Hsel : match match sel with
                       | [] => []
                       | _ :: _ => JS.split "," (JS.join "," sel)
                       end with
                 | [] => []
                 | _ :: _ =>
                     [("select",
                       Single (JS.join "," match sel with
                                           | [] => []
                                           | _ :: _ => JS.split "," (JS.join "," sel)
                                           end))]
                 end
                 = match sel with
                   | [] => []
                   | _ :: _ => [("select", Single (JS.join "," sel))]
                   end).
  { destruct sel as [|s sel]; [reflexivity|].
    rewrite (join_split ","). pose proof (split_nonempty "," (JS.join "," (s :: sel))) as Hne.
    now destruct (JS.split "," (JS.join "," (s :: sel))). }
  destruct sby as [|c sby];
    cbn [B._page B._limit B._sortBy B._search B._searchBy B._select B._cursor
         B._withDeleted B._filter B.searchBy];
    rewrite Hsb, Hsel;
    destruct se as [s|], wd as [[]|]; try destruct (nonempty s) eqn:E;
    try rewrite E; reflexivity.
Qed.

Lemma round_trip_state (b : B.t) :
  NoDup (Dict.keys (B._filter b)) -> round_trips b = true ->
  fromQueryString (B.toQueryString b) = Ok (reparsed b)
  /\ B.toParams (reparsed b) = B.toParams b.
Proof.
  intros Hnd H. unfold round_trips in H.
  apply andb_true_iff in H as [H Hwf]. apply andb_true_iff in H as [H Hfl].
  apply andb_true_iff in H as [H Hsel]. apply andb_true_iff in H as [Hcu Hsby].
  split.
  - unfold B.toQueryString. rewrite toQueryString_query_of.
    fold (kv_of (B.toParams b)).
    rewrite fromQueryString_query_of
      by (apply forallb_filter; now rewrite <- toURLSearchParams_pairs).
    rewrite toParams_app, kv_of_app, dispatch_all_app by assumption.
    rewrite dispatch_fixed by assumption. cbn [mbind result_bind].
    rewrite kv_of_filter_params by assumption.
    rewrite (push_columns (B._filter b) []) by assumption.
    f_equal. unfold Parse.finish, reparsed.
    cbn [Parse.builder Parse.searchByValues Parse.filterMap app].
    destruct (B._searchBy b) as [|c sby].
    + apply (finish_filters (B._filter b) [] (reparsed_fixed b)); assumption.
    + apply (finish_filters (B._filter b) []
               (B.searchBy (c :: sby) (reparsed_fixed b))); assumption.
  - rewrite (toParams_app b) by assumption.
    rewrite toParams_app.
    + rewrite fixed_params_reparsed. unfold reparsed, with_filter. reflexivity.
    + unfold reparsed, with_filter. assumption.
Qed.

(** C1, as the code has it: for a state reached through the public
    mutators in which nothing is serialised as an empty value, every
    array-valued filter entry holds at least two tokens, no filter column
    is named like a member of [Object.prototype] and all text is
    well formed, parsing the query string succeeds and the parsed builder
    has the param map of the original, entry for entry and in the same
    order. *)
Theorem round_trip (ms : list mutation) :
  round_trips (run ms B.new) = true ->
  exists parsed,
    fromQueryString (B.toQueryString (run ms B.new)) = Ok parsed
    /\ B.toParams parsed = B.toParams (run ms B.new).
Proof.
  intros H. exists (reparsed (run ms B.new)).
  apply round_trip_state; [|assumption].
  apply run_filter_keys. constructor.
Qed.

Definition sample_calls : list mutation :=
  [Page 1; Limit 10; SortBy "name" ASC; Search "test"; SearchBy ["name"; "email"];
   Select ["id"; "name"]; Filter "name" (Single (Filter.or (Filter.eq (Filter.Str "A"))));
   Filter "name" (Single (Filter.or (Filter.eq (Filter.Str "B"))));
   Cursor "abc"; WithDeleted true; WithDeleted false; Search ""].

Lemma round_trip_witness :
  round_trips (run sample_calls B.new) = true
  /\ exists parsed,
       fromQueryString (B.toQueryString (run sample_calls B.new)) = Ok parsed
       /\ B.toParams parsed = B.toParams (run sample_calls B.new).
Proof. split; [reflexivity | apply (round_trip sample_calls); reflexivity]. Defined.

(** The claim without the restriction fails: an empty cursor is in the
    param map, is not written to the query string, and is therefore absent
    after parsing. *)
Lemma round_trip_loses_empty_cursor :
  fromQueryString (B.toQueryString (run [Cursor ""] B.new)) = Ok B.new
  /\ B.toParams B.new <> B.toParams (run [Cursor ""] B.new).
Proof. split; [reflexivity | discriminate]. Qed.

(** Each of the other restrictions is needed as well. *)
Example round_trip_loses_empty_searchBy :
  fromQueryString (B.toQueryString (run [SearchBy ["name"; ""]] B.new))
    = Ok (B.searchBy ["name"] B.new)
  /\ B.toParams (B.searchBy ["name"] B.new) <> B.toParams (run [SearchBy ["name"; ""]] B.new).
Proof. split; [reflexivity | discriminate]. Qed.

Example round_trip_loses_empty_select :
  fromQueryString (B.toQueryString (run [Select [""]] B.new)) = Ok B.new
  /\ B.toParams B.new <> B.toParams (run [Select [""]] B.new).
Proof. split; [reflexivity | discriminate]. Qed.

Example round_trip_loses_empty_filter_array :
  fromQueryString (B.toQueryString (run [Filter "name" (Many [])] B.new)) = Ok B.new
  /\ B.toParams B.new <> B.toParams (run [Filter "name" (Many [])] B.new).
Proof. split; [reflexivity | discriminate]. Qed.

Example round_trip_unwraps_one_token_array :
  B.toParams (run [Filter "name" (Many []); Filter "name" (Single "$eq:A")] B.new)
    = [("filter.name", Many ["$eq:A"])]
  /\ fromQueryString
       (B.toQueryString (run [Filter "name" (Many []); Filter "name" (Single "$eq:A")] B.new))
     = Ok (B.filter "name" (Single "$eq:A") B.new)
  /\ B.toParams (B.filter "name" (Single "$eq:A") B.new) = [("filter.name", Single "$eq:A")].
Proof. repeat split; reflexivity. Qed.


(** ** What a store update leaves alone *)

(** [h'] holds every object of [h] unchanged, except possibly the one at
    [w]. *)
Definition preserves (h h' : Heap.heap) (w : option Heap.loc) : Prop :=
  forall l c, h !! l = Some c -> Some l <> w -> h' !! l = Some c.

Lemma preserves_refl h w : preserves h h w.
Proof. intros l c H _. exact H. Qed.

Lemma preserves_alloc (h : Heap.heap) (c : Heap.cell) w : preserves h (h ++ [c]) w.
Proof.
  intros l c0 H _. rewrite lookup_app_l; [assumption|]. now apply lookup_lt_Some in H.
Qed.

Lemma preserves_insert (h : Heap.heap) (w : Heap.loc) (c : Heap.cell) :
  preserves h (<[w := c]> h) (Some w).
Proof.
  intros l c0 H Hl. rewrite list_lookup_insert_ne; [assumption|]. congruence.
Qed.

Lemma preserves_trans h h1 h2 w :
  preserves h h1 None -> preserves h1 h2 w -> preserves h h2 w.
Proof. intros H1 H2 l c Hl Hw. apply H2; [|assumption]. apply H1; [assumption | discriminate]. Qed.

Lemma preserves_any h h' w : preserves h h' None -> preserves h h' w.
Proof. intros H l c Hl _. apply H; [assumption | discriminate]. Qed.

Lemma lookup_alloc (h : Heap.heap) (c : Heap.cell) : (h ++ [c]) !! length h = Some c.
Proof. now apply list_lookup_middle. Qed.

Section Reads.
Variables (h h' : Heap.heap) (w : option Heap.loc).
Hypothesis Hp : preserves h h' w.

Lemma read_builder_preserved l f :
  Heap.read_builder h l = Some f -> Some l <> w -> Heap.read_builder h' l = Some f.
Proof.
  unfold Heap.read_builder. destruct (h !! l) as [[]|] eqn:E; try discriminate.
  intros [= <-] Hl. now rewrite (Hp _ _ E Hl).
Qed.

Lemma read_rules_preserved l rs :
  Heap.read_rules h l = Some rs -> Some l <> w -> Heap.read_rules h' l = Some rs.
Proof.
  unfold Heap.read_rules. destruct (h !! l) as [[]|] eqn:E; try discriminate.
  intros [= <-] Hl. now rewrite (Hp _ _ E Hl).
Qed.

Lemma read_strings_preserved l ss :
  Heap.read_strings h l = Some ss -> Some l <> w -> Heap.read_strings h' l = Some ss.
Proof.
  unfold Heap.read_strings. destruct (h !! l) as [[]|] eqn:E; try discriminate.
  intros [= <-] Hl. now rewrite (Hp _ _ E Hl).
Qed.

Lemma read_filters_preserved l es :
  Heap.read_filters h l = Some es -> Some l <> w -> Heap.read_filters h' l = Some es.
Proof.
  unfold Heap.read_filters. destruct (h !! l) as [[]|] eqn:E; try discriminate.
  intros [= <-] Hl. now rewrite (Hp _ _ E Hl).
Qed.

(** The object at [w], if any, is not an array of strings. *)
Definition not_strings : Prop :=
  forall l ss, w = Some l -> h !! l <> Some (Heap.Strings ss).

Lemma strings_not_written l ss :
  not_strings -> Heap.read_strings h l = Some ss -> Some l <> w.
Proof.
  unfold Heap.read_strings. intros Hw.
  destruct (h !! l) as [[]|] eqn:E; try discriminate.
  intros _ Hl. symmetry in Hl. now apply (Hw l l0) in Hl.
Qed.

Lemma deref_value_preserved v pv :
  not_strings -> Heap.deref_value h v = Some pv -> Heap.deref_value h' v = Some pv.
Proof.
  intros Hw. destruct v as [s|r]; simpl; [auto|].
  destruct (Heap.read_strings h r) as [l|] eqn:E; [|discriminate].
  intros [= <-]. rewrite (read_strings_preserved _ _ E); [reflexivity|].
  now apply (strings_not_written _ l).
Qed.

Lemma deref_entries_preserved es fl :
  not_strings -> Heap.deref_entries h es = Some fl -> Heap.deref_entries h' es = Some fl.
Proof.
  intros Hw. revert fl. induction es as [|[k v] es IH]; intros fl; simpl; [auto|].
  destruct (Heap.deref_value h v) as [pv|] eqn:Ev; [|discriminate]. simpl.
  destruct (Heap.deref_entries h es) as [rest|] eqn:Er; [|discriminate]. simpl.
  intros [= <-]. rewrite (deref_value_preserved _ _ Hw Ev). simpl.
  now rewrite (IH _ eq_refl).
Qed.
End Reads.

(** The parts of a builder's value, read one by one. *)
Lemma value_of_parts (h : Heap.heap) (o : Heap.loc) (b : B.t) :
  Heap.value_of h o = Some b <->
  exists f rs sb sel es fl,
    Heap.read_builder h o = Some f
    /\ Heap.read_rules h (Heap._sortBy f) = Some rs
    /\ Heap.read_strings h (Heap._searchBy f) = Some sb
    /\ Heap.read_strings h (Heap._select f) = Some sel
    /\ Heap.read_filters h (Heap._filter f) = Some es
    /\ Heap.deref_entries h es = Some fl
    /\ b = B.mk (Heap._page f) (Heap._limit f) rs (Heap._search f) sb sel fl
                (Heap._cursor f) (Heap._withDeleted f).
Proof.
  unfold Heap.value_of. split.
  - intros H.
    destruct (Heap.read_builder h o) as [f|] eqn:E1; [|discriminate]. simpl in H.
    destruct (Heap.read_rules h _) as [rs|] eqn:E2; [|discriminate]. simpl in H.
    destruct (Heap.read_strings h (Heap._searchBy f)) as [sb|] eqn:E3; [|discriminate].
    simpl in H.
    destruct (Heap.read_strings h (Heap._select f)) as [sel|] eqn:E4; [|discriminate].
    simpl in H.
    destruct (Heap.read_filters h _) as [es|] eqn:E5; [|discriminate]. simpl in H.
    destruct (Heap.deref_entries h es) as [fl|] eqn:E6; [|discriminate]. simpl in H.
    injection H as <-. now exists f, rs, sb, sel, es, fl.
  - intros (f & rs & sb & sel & es & fl & -> & H2 & H3 & H4 & H5 & H6 & ->). simpl.
    rewrite H2. simpl. rewrite H3. simpl. rewrite H4. simpl. rewrite H5. simpl.
    rewrite H6. reflexivity.
Qed.

(** The locations a builder's value does not depend on, as far as writes
    go: not the builder, not its sort array, not its filter object, not an
    array of strings. *)
Definition outside (h : Heap.heap) (o w : Heap.loc) : Prop :=
  w <> o
  /\ (forall f, Heap.read_builder h o = Some f ->
                w <> Heap._sortBy f /\ w <> Heap._filter f)
  /\ forall ss, h !! w <> Some (Heap.Strings ss).

Lemma value_of_frame (h h' : Heap.heap) (o w : Heap.loc) (b : B.t) :
  preserves h h' (Some w) -> outside h o w ->
  Heap.value_of h o = Some b -> Heap.value_of h' o = Some b.
Proof.
  intros Hp (Hwo & Hwf & Hws) Hv.
  apply value_of_parts in Hv as (f & rs & sb & sel & es & fl & H1 & H2 & H3 & H4 & H5 & H6 & ->).
  destruct (Hwf f H1) as [Hw1 Hw2].
  assert (Hns : not_strings h (Some w)) by (intros l ss [= <-]; apply Hws).
  apply value_of_parts. exists f, rs, sb, sel, es, fl. repeat split.
  - apply (read_builder_preserved _ _ _ Hp _ _ H1). congruence.
  - apply (read_rules_preserved _ _ _ Hp _ _ H2). congruence.
  - apply (read_strings_preserved _ _ _ Hp _ _ H3). now apply (strings_not_written h _ _ sb).
  - apply (read_strings_preserved _ _ _ Hp _ _ H4). now apply (strings_not_written h _ _ sel).
  - apply (read_filters_preserved _ _ _ Hp _ _ H5). congruence.
  - now apply (deref_entries_preserved _ _ _ Hp).
Qed.

Lemma value_of_grow (h h' : Heap.heap) (o : Heap.loc) (b : B.t) :
  preserves h h' None -> Heap.value_of h o = Some b -> Heap.value_of h' o = Some b.
Proof.
  intros Hp Hv.
  apply value_of_parts in Hv as (f & rs & sb & sel & es & fl & H1 & H2 & H3 & H4 & H5 & H6 & ->).
  assert (Hns : not_strings h None) by (intros l ss; discriminate).
  apply value_of_parts. exists f, rs, sb, sel, es, fl. repeat split.
  - now apply (read_builder_preserved _ _ _ Hp).
  - now apply (read_rules_preserved _ _ _ Hp).
  - now apply (read_strings_preserved _ _ _ Hp).
  - now apply (read_strings_preserved _ _ _ Hp).
  - now apply (read_filters_preserved _ _ _ Hp).
  - now apply (deref_entries_preserved _ _ _ Hp).
Qed.

(** ** Each method refines its value-level counterpart *)

(** The call as the value-level model sees it: array arguments read out. *)
Definition denote (h : Heap.heap) (m : Heap.call) : option mutation :=
  match m with
  | Heap.Page n => Some (Page n)
  | Heap.Limit n => Some (Limit n)
  | Heap.SortBy c d => Some (SortBy c d)
  | Heap.Search t => Some (Search t)
  | Heap.SearchBy cs => l ← Heap.read_strings h cs; Some (SearchBy l)
  | Heap.Select cs => l ← Heap.read_strings h cs; Some (Select l)
  | Heap.Filter c (Heap.TStr s) => Some (Filter c (Single s))
  | Heap.Filter c (Heap.TRef r) => l ← Heap.read_strings h r; Some (Filter c (Many l))
  | Heap.Cursor c => Some (Cursor c)
  | Heap.WithDeleted v => Some (WithDeleted v)
  end.

(** Two reads of different kinds are reads of different objects. *)
Ltac kinds :=
  let E := fresh "E" in
  intros E; try (injection E as E); subst;
  unfold Heap.read_builder, Heap.read_rules, Heap.read_strings, Heap.read_filters in *;
  repeat match goal with
         | H : match ?x with _ => _ end = Some _ |- _ =>
             destruct x as [[]|] eqn:?; try discriminate
         end;
  congruence.

Lemma read_builder_insert (h : Heap.heap) (t : Heap.loc) (f g : Heap.fields) :
  Heap.read_builder h t = Some f ->
  Heap.read_builder (<[t := Heap.Builder g]> h) t = Some g.
Proof.
  unfold Heap.read_builder. destruct (h !! t) as [c|] eqn:E; [|discriminate].
  intros _. apply lookup_lt_Some in E. now rewrite list_lookup_insert_eq.
Qed.

Definition keeps_containers (g : Heap.fields -> Heap.fields) : Prop :=
  forall f, Heap._sortBy (g f) = Heap._sortBy f
            /\ Heap._searchBy (g f) = Heap._searchBy f
            /\ Heap._select (g f) = Heap._select f
            /\ Heap._filter (g f) = Heap._filter f.

Lemma assign_sound (g : Heap.fields -> Heap.fields) (h h' : Heap.heap) (t : Heap.loc)
    (b : B.t) :
  keeps_containers g ->
  Heap.value_of h t = Some b -> Heap.assign g t h = Some h' ->
  exists f,
    Heap.read_builder h t = Some f
    /\ Heap.read_builder h' t = Some (g f)
    /\ preserves h h' (Some t)
    /\ Heap.value_of h' t
       = Some (B.mk (Heap._page (g f)) (Heap._limit (g f)) (B._sortBy b)
                    (Heap._search (g f)) (B._searchBy b) (B._select b) (B._filter b)
                    (Heap._cursor (g f)) (Heap._withDeleted (g f))).
Proof.
  intros Hg Hv Hs.
  apply value_of_parts in Hv as (f & rs & sb & sel & es & fl & H1 & H2 & H3 & H4 & H5 & H6 & ->).
  unfold Heap.assign in Hs. rewrite H1 in Hs. simpl in Hs. injection Hs as <-.
  destruct (Hg f) as (G1 & G2 & G3 & G4).
  pose proof (preserves_insert h t (Heap.Builder (g f))) as Hp.
  exists f. split; [assumption|]. split; [now apply (read_builder_insert h t f)|].
  split; [assumption|].
  apply value_of_parts. exists (g f), rs, sb, sel, es, fl.
  rewrite G1, G2, G3, G4. repeat split.
  - now apply (read_builder_insert h t f).
  - apply (read_rules_preserved _ _ _ Hp _ _ H2). kinds.
  - apply (read_strings_preserved _ _ _ Hp _ _ H3). kinds.
  - apply (read_strings_preserved _ _ _ Hp _ _ H4). kinds.
  - apply (read_filters_preserved _ _ _ Hp _ _ H5). kinds.
  - apply (deref_entries_preserved _ _ _ Hp); [|assumption].
    intros l ss [= <-]. kinds.
Qed.

Lemma read_rules_insert (h : Heap.heap) (l : Heap.loc) rs rs' :
  Heap.read_rules h l = Some rs ->
  Heap.read_rules (<[l := Heap.SortRules rs']> h) l = Some rs'.
Proof.
  unfold Heap.read_rules. destruct (h !! l) as [c|] eqn:E; [|discriminate].
  intros _. apply lookup_lt_Some in E. now rewrite list_lookup_insert_eq.
Qed.

Lemma read_filters_insert (h : Heap.heap) (l : Heap.loc) es :
  (l < length h)%nat ->
  Heap.read_filters (<[l := Heap.Filters es]> h) l = Some es.
Proof. intros H. unfold Heap.read_filters. now rewrite list_lookup_insert_eq. Qed.

Lemma read_strings_alloc (h : Heap.heap) (ss : list string) :
  Heap.read_strings (h ++ [Heap.Strings ss]) (length h) = Some ss.
Proof. unfold Heap.read_strings. now rewrite lookup_alloc. Qed.

Lemma read_builder_valid (h : Heap.heap) (l : Heap.loc) f :
  Heap.read_builder h l = Some f -> (l < length h)%nat.
Proof.
  unfold Heap.read_builder. destruct (h !! l) eqn:E; [|discriminate].
  intros _. now apply lookup_lt_Some in E.
Qed.

Lemma read_filters_valid (h : Heap.heap) (l : Heap.loc) es :
  Heap.read_filters h l = Some es -> (l < length h)%nat.
Proof.
  unfold Heap.read_filters. destruct (h !! l) eqn:E; [|discriminate].
  intros _. now apply lookup_lt_Some in E.
Qed.

Lemma sortBy_sound (c : string) (d : SortDirection) (h h' : Heap.heap) (t : Heap.loc)
    (b : B.t) :
  Heap.value_of h t = Some b -> Heap.sortBy c d t h = Some h' ->
  exists f,
    Heap.read_builder h t = Some f
    /\ Heap.read_builder h' t = Some f
    /\ preserves h h' (Some (Heap._sortBy f))
    /\ Heap.value_of h' t = Some (B.sortBy c d b).
Proof.
  intros Hv Hs.
  apply value_of_parts in Hv as (f & rs & sb & sel & es & fl & H1 & H2 & H3 & H4 & H5 & H6 & ->).
  unfold Heap.sortBy in Hs. rewrite H1 in Hs. simpl in Hs. rewrite H2 in Hs.
  simpl in Hs. injection Hs as <-.
  pose proof (preserves_insert h (Heap._sortBy f) (Heap.SortRules (rs ++ [(c, d)]))) as Hp.
  assert (Hb : Heap.read_builder (<[Heap._sortBy f := Heap.SortRules (rs ++ [(c, d)])]> h) t
               = Some f).
  { apply (read_builder_preserved _ _ _ Hp _ _ H1). kinds. }
  exists f. repeat split; try assumption.
  apply value_of_parts. exists f, (rs ++ [(c, d)]), sb, sel, es, fl. repeat split.
  - assumption.
  - now apply (read_rules_insert h _ rs).
  - apply (read_strings_preserved _ _ _ Hp _ _ H3). kinds.
  - apply (read_strings_preserved _ _ _ Hp _ _ H4). kinds.
  - apply (read_filters_preserved _ _ _ Hp _ _ H5). kinds.
  - apply (deref_entries_preserved _ _ _ Hp); [|assumption].
    intros l ss [= <-]. kinds.
Qed.

(** [this._x = columns.slice()] for [_searchBy] and [_select]. *)
Lemma slice_assign_sound (g : Heap.loc -> Heap.fields -> Heap.fields)
    (cs : Heap.loc) (h h' : Heap.heap) (t : Heap.loc) (b : B.t) :
  (forall r f, Heap._sortBy (g r f) = Heap._sortBy f /\ Heap._filter (g r f) = Heap._filter f) ->
  Heap.value_of h t = Some b ->
  (f ← Heap.read_builder h t;
   l ← Heap.read_strings h cs;
   let '(r, h) := Heap.alloc (Heap.Strings l) h in
   Some (<[t := Heap.Builder (g r f)]> h)) = Some h' ->
  exists f l,
    Heap.read_builder h t = Some f
    /\ Heap.read_strings h cs = Some l
    /\ Heap.read_builder h' t = Some (g (length h) f)
    /\ preserves h h' (Some t)
    /\ (forall l0 ss, Heap.read_strings h l0 = Some ss -> Heap.read_strings h' l0 = Some ss)
    /\ Heap.read_strings h' (length h) = Some l
    /\ Heap.read_rules h' (Heap._sortBy f) = Some (B._sortBy b)
    /\ Heap.read_filters h' (Heap._filter f) = Heap.read_filters h (Heap._filter f)
    /\ (forall es fl, Heap.deref_entries h es = Some fl -> Heap.deref_entries h' es = Some fl).
Proof.
  intros Hg Hv Hs.
  apply value_of_parts in Hv as (f & rs & sb & sel & es & fl & H1 & H2 & H3 & H4 & H5 & H6 & ->).
  rewrite H1 in Hs. simpl in Hs.
  destruct (Heap.read_strings h cs) as [l|] eqn:Hl; [|discriminate].
  simpl in Hs. injection Hs as <-.
  set (h1 := h ++ [Heap.Strings l]).
  pose proof (preserves_alloc h (Heap.Strings l) None) as Hp1. fold h1 in Hp1.
  pose proof (preserves_insert h1 t (Heap.Builder (g (length h) f))) as Hp2.
  pose proof (preserves_trans _ _ _ _ Hp1 Hp2) as Hp.
  assert (Hb1 : Heap.read_builder h1 t = Some f)
    by now apply (read_builder_preserved _ _ _ Hp1).
  assert (Hns : not_strings h (Some t)) by (intros l0 ss [= <-]; kinds).
  exists f, l. repeat split.
  - assumption.
  - now apply (read_builder_insert h1 t f).
  - assumption.
  - intros l0 ss Hss. apply (read_strings_preserved _ _ _ Hp _ _ Hss).
    now apply (strings_not_written h _ _ ss).
  - apply (read_strings_preserved _ _ _ Hp2 _ _ (read_strings_alloc h l)).
    apply read_builder_valid in H1. intros [= E]. lia.
  - apply (read_rules_preserved _ _ _ Hp _ _ H2). kinds.
  - rewrite H5. apply (read_filters_preserved _ _ _ Hp _ _ H5). kinds.
  - intros es0 fl0. now apply (deref_entries_preserved _ _ _ Hp).
Qed.

Lemma searchBy_sound (cs : Heap.loc) (h h' : Heap.heap) (t : Heap.loc) (b : B.t) :
  Heap.value_of h t = Some b -> Heap.searchBy cs t h = Some h' ->
  exists f l,
    Heap.read_builder h t = Some f
    /\ Heap.read_strings h cs = Some l
    /\ Heap.read_builder h' t = Some (Heap.set_searchBy (length h) f)
    /\ preserves h h' (Some t)
    /\ Heap.value_of h' t = Some (B.searchBy l b).
Proof.
  intros Hv Hs.
  destruct (slice_assign_sound Heap.set_searchBy cs h h' t b) as
    (f & l & G1 & G2 & G3 & G4 & G5 & G6 & G7 & G8 & G9); [now split | assumption | exact Hs |].
  exists f, l. repeat split; try assumption.
  apply value_of_parts in Hv as (f0 & rs & sb & sel & es & fl & H1 & H2 & H3 & H4 & H5 & H6 & ->).
  assert (f0 = f) by congruence. subst f0.
  apply value_of_parts. exists (Heap.set_searchBy (length h) f), rs, l, sel, es, fl.
  repeat split; simpl; auto. congruence.
Qed.

Lemma select_sound (cs : Heap.loc) (h h' : Heap.heap) (t : Heap.loc) (b : B.t) :
  Heap.value_of h t = Some b -> Heap.select cs t h = Some h' ->
  exists f l,
    Heap.read_builder h t = Some f
    /\ Heap.read_strings h cs = Some l
    /\ Heap.read_builder h' t = Some (Heap.set_select (length h) f)
    /\ preserves h h' (Some t)
    /\ Heap.value_of h' t = Some (B.select l b).
Proof.
  intros Hv Hs.
  destruct (slice_assign_sound Heap.set_select cs h h' t b) as
    (f & l & G1 & G2 & G3 & G4 & G5 & G6 & G7 & G8 & G9); [now split | assumption | exact Hs |].
  exists f, l. repeat split; try assumption.
  apply value_of_parts in Hv as (f0 & rs & sb & sel & es & fl & H1 & H2 & H3 & H4 & H5 & H6 & ->).
  assert (f0 = f) by congruence. subst f0.
  apply value_of_parts. exists (Heap.set_select (length h) f), rs, sb, l, es, fl.
  repeat split; simpl; auto. congruence.
Qed.

Lemma get_deref (h : Heap.heap) es fl (k : string) :
  Heap.deref_entries h es = Some fl ->
  match Dict.get k es with
  | Some e => exists pv, Heap.deref_value h e = Some pv /\ Dict.get k fl = Some pv
  | None => Dict.get k fl = None
  end.
Proof.
  revert fl. induction es as [|[k0 v] es IH]; intros fl; simpl.
  - now intros [= <-].
  - destruct (Heap.deref_value h v) as [pv|] eqn:Ev; [|discriminate]. simpl.
    destruct (Heap.deref_entries h es) as [rest|] eqn:Er; [|discriminate]. simpl.
    intros [= <-]. simpl. destruct (String.eqb k0 k); [eauto|]. now apply IH.
Qed.

Lemma set_deref (h : Heap.heap) es fl (k : string) v pv :
  Heap.deref_entries h es = Some fl -> Heap.deref_value h v = Some pv ->
  Heap.deref_entries h (Dict.set k v es) = Some (Dict.set k pv fl).
Proof.
  intros He Hv. revert fl He. induction es as [|[k0 v0] es IH]; intros fl; simpl.
  - intros [= <-]. simpl. now rewrite Hv.
  - destruct (Heap.deref_value h v0) as [pv0|] eqn:Ev; [|discriminate]. simpl.
    destruct (Heap.deref_entries h es) as [rest|] eqn:Er; [|discriminate]. simpl.
    intros [= <-]. simpl. destruct (String.eqb k0 k); simpl.
    + rewrite Hv. simpl. now rewrite Er.
    + rewrite Ev. simpl. now rewrite (IH _ eq_refl).
Qed.

Lemma truthy_deref (h : Heap.heap) e pv :
  Heap.deref_value h e = Some pv -> Heap.truthy e = B.truthy (Some pv).
Proof.
  destruct e as [s|r]; simpl.
  - now intros [= <-].
  - destruct (Heap.read_strings h r); [|discriminate]. now intros [= <-].
Qed.

Lemma as_array_deref (h : Heap.heap) e pv :
  Heap.deref_value h e = Some pv -> Heap.as_array h e = Some (B.as_array pv).
Proof.
  destruct e as [s|r]; simpl.
  - now intros [= <-].
  - destruct (Heap.read_strings h r); [|discriminate]. now intros [= <-].
Qed.

Lemma filter_as_with_filter (c : string) (ptok : param_value) (b : B.t) :
  B.filter c ptok b
  = with_filter (Dict.set c (B.filter_entry (Dict.get c (B._filter b)) ptok) (B._filter b)) b.
Proof. reflexivity. Qed.

(** Assigning the filter object, possibly after one allocation. *)
Lemma write_filters_sound (h h1 : Heap.heap) (t : Heap.loc) (b : B.t) (f : Heap.fields)
    es' fl' :
  Heap.value_of h t = Some b -> Heap.read_builder h t = Some f ->
  preserves h h1 None ->
  Heap.deref_entries (<[Heap._filter f := Heap.Filters es']> h1) es' = Some fl' ->
  Heap.read_builder (<[Heap._filter f := Heap.Filters es']> h1) t = Some f
  /\ preserves h (<[Heap._filter f := Heap.Filters es']> h1) (Some (Heap._filter f))
  /\ Heap.value_of (<[Heap._filter f := Heap.Filters es']> h1) t = Some (with_filter fl' b).
Proof.
  intros Hv Hf Hp1 Hd.
  apply value_of_parts in Hv as (f0 & rs & sb & sel & es & fl & H1 & H2 & H3 & H4 & H5 & H6 & ->).
  assert (f0 = f) by congruence. subst f0.
  pose proof (preserves_insert h1 (Heap._filter f) (Heap.Filters es')) as Hp2.
  pose proof (preserves_trans _ _ _ _ Hp1 Hp2) as Hp.
  assert (Hb : Heap.read_builder (<[Heap._filter f := Heap.Filters es']> h1) t = Some f).
  { apply (read_builder_preserved _ _ _ Hp _ _ H1). kinds. }
  split; [assumption|]. split; [assumption|].
  apply value_of_parts. exists f, rs, sb, sel, es', fl'. repeat split.
  - assumption.
  - apply (read_rules_preserved _ _ _ Hp _ _ H2). kinds.
  - apply (read_strings_preserved _ _ _ Hp _ _ H3). kinds.
  - apply (read_strings_preserved _ _ _ Hp _ _ H4). kinds.
  - apply read_filters_insert.
    assert (Hl : h1 !! Heap._filter f = Some (Heap.Filters es)).
    { apply Hp1; [|discriminate]. unfold Heap.read_filters in *.
      destruct (h !! Heap._filter f) as [[]|]; try discriminate. congruence. }
    now apply lookup_lt_Some in Hl.
  - assumption.
Qed.

Lemma filter_sound (c : string) (tok : Heap.token) (h h' : Heap.heap) (t : Heap.loc)
    (b : B.t) :
  Heap.value_of h t = Some b -> Heap.filter c tok t h = Some h' ->
  exists f ptok,
    Heap.read_builder h t = Some f
    /\ denote h (Heap.Filter c tok) = Some (Filter c ptok)
    /\ Heap.read_builder h' t = Some f
    /\ preserves h h' (Some (Heap._filter f))
    /\ Heap.value_of h' t = Some (B.filter c ptok b).
Proof.
  intros Hv Hs. pose proof Hv as Hv0.
  apply value_of_parts in Hv as (f & rs & sb & sel & es & fl & H1 & H2 & H3 & H4 & H5 & H6 & ->).
  unfold Heap.filter in Hs. rewrite H1 in Hs. simpl in Hs. rewrite H5 in Hs. simpl in Hs.
  (* the tokens handed in *)
  assert (Hnext : exists ptok,
             denote h (Heap.Filter c tok) = Some (Filter c ptok)
             /\ match tok with
                | Heap.TStr s => Some [s]
                | Heap.TRef r => Heap.read_strings h r
                end = Some (B.as_array ptok)
             /\ forall h2, (forall l ss, Heap.read_strings h l = Some ss ->
                                         Heap.read_strings h2 l = Some ss) ->
                  Heap.deref_value h2 (Heap.single_or_same tok (B.as_array ptok))
                  = Some match B.as_array ptok with
                         | [x] => Single x
                         | _ => Many (B.as_array ptok)
                         end).
  { destruct tok as [s|r]; simpl.
    - exists (Single s). repeat split.
    - destruct (Heap.read_strings h r) as [l|] eqn:El; [|discriminate].
      exists (Many l). repeat split. intros h2 Hh2. simpl.
      destruct l as [|x [|y l]]; simpl; try reflexivity; now rewrite (Hh2 _ _ El). }
  destruct Hnext as (ptok & Hden & Hnext & Hsame). rewrite Hnext in Hs. simpl in Hs.
  exists f, ptok. split; [assumption|]. split; [assumption|].
  rewrite filter_as_with_filter. cbn [B._filter].
  pose proof (get_deref h es fl c H6) as Hget.
  assert (Hns : forall h1, preserves h h1 None ->
            not_strings h1 (Some (Heap._filter f))).
  { intros h1 Hp1 l ss [= <-] Hl.
    unfold Heap.read_filters in H5.
    destruct (h !! Heap._filter f) as [[]|] eqn:E; try discriminate.
    rewrite (Hp1 _ _ E) in Hl; [discriminate | discriminate]. }
  assert (Hfresh : forall h1 v pv,
            preserves h h1 None ->
            Heap.deref_value (<[Heap._filter f := Heap.Filters (Dict.set c v es)]> h1) v
              = Some pv ->
            Heap.deref_entries (<[Heap._filter f := Heap.Filters (Dict.set c v es)]> h1)
                               (Dict.set c v es)
            = Some (Dict.set c pv fl)).
  { intros h1 v pv Hp1 Hdv. apply set_deref; [|assumption].
    apply (deref_entries_preserved h1 _ (Some (Heap._filter f)));
      [apply preserves_insert | now apply Hns |].
    apply (deref_entries_preserved h _ None); [assumption | intros ? ?; discriminate | assumption]. }
  assert (Hstr : forall h1 l ss,
            preserves h h1 None -> Heap.read_strings h1 l = Some ss ->
            forall es', Heap.read_strings (<[Heap._filter f := Heap.Filters es']> h1) l = Some ss).
  { intros h1 l ss Hp1 Hl es'.
    apply (read_strings_preserved h1 _ (Some (Heap._filter f)));
      [apply preserves_insert | assumption |].
    apply (strings_not_written h1 _ _ ss); [now apply Hns | assumption]. }
  destruct (Dict.get c es) as [e|] eqn:Ee.
  - destruct Hget as (pv & Hpv & Hgfl). rewrite Hgfl.
    rewrite (truthy_deref h e pv Hpv) in Hs.
    unfold B.filter_entry. destruct (B.truthy (Some pv)) eqn:Et.
    + rewrite (as_array_deref h e pv Hpv) in Hs. simpl in Hs. injection Hs as <-.
      apply (write_filters_sound h _ t _ f); try assumption; [apply preserves_alloc|].
      apply Hfresh; [apply preserves_alloc|]. simpl.
      rewrite (Hstr _ (length h) (B.as_array pv ++ B.as_array ptok));
        [reflexivity | apply preserves_alloc | apply read_strings_alloc].
    + injection Hs as <-.
      apply (write_filters_sound h _ t _ f); try assumption; [apply preserves_refl|].
      apply Hfresh; [apply preserves_refl|]. apply Hsame.
      intros l ss Hl. now apply Hstr; [apply preserves_refl|].
  - rewrite Hget. injection Hs as <-. unfold B.filter_entry.
    apply (write_filters_sound h _ t _ f); try assumption; [apply preserves_refl|].
    apply Hfresh; [apply preserves_refl|]. apply Hsame.
    intros l ss Hl. now apply Hstr; [apply preserves_refl|].
Qed.

Lemma step_sound (m : Heap.call) (h h' : Heap.heap) (t : Heap.loc) (b : B.t) :
  Heap.value_of h t = Some b -> Heap.step m t h = Some h' ->
  exists pm f f' w,
    denote h m = Some pm
    /\ Heap.value_of h' t = Some (apply pm b)
    /\ Heap.read_builder h t = Some f
    /\ Heap.read_builder h' t = Some f'
    /\ Heap._sortBy f' = Heap._sortBy f
    /\ Heap._filter f' = Heap._filter f
    /\ preserves h h' (Some w)
    /\ (w = t \/ w = Heap._sortBy f \/ w = Heap._filter f).
Proof.
  intros Hv Hs. pose proof Hv as Hv0.
  apply value_of_parts in Hv0
    as (f0 & rs & sb & sel & es & fl & H1 & H2 & H3 & H4 & H5 & H6 & Hb).
  destruct m as [n|n|c d|s|cs|cs|c tok|s|v]; simpl in Hs.
  - destruct (assign_sound (Heap.set_page (Some n)) h h' t b) as (f & E1 & E2 & Hp & Hval);
      [now intros f | assumption | exact Hs |].
    assert (f = f0) by congruence. subst f.
    exists (Page n), f0, (Heap.set_page (Some n) f0), t.
    rewrite Hval, Hb. repeat split; auto.
  - destruct (assign_sound (Heap.set_limit (Some n)) h h' t b) as (f & E1 & E2 & Hp & Hval);
      [now intros f | assumption | exact Hs |].
    assert (f = f0) by congruence. subst f.
    exists (Limit n), f0, (Heap.set_limit (Some n) f0), t.
    rewrite Hval, Hb. repeat split; auto.
  - destruct (sortBy_sound c d h h' t b Hv Hs) as (f & E1 & E2 & Hp & Hval).
    exists (SortBy c d), f, f, (Heap._sortBy f). repeat split; auto.
  - destruct (assign_sound (Heap.set_search (Some s)) h h' t b) as (f & E1 & E2 & Hp & Hval);
      [now intros f | assumption | exact Hs |].
    assert (f = f0) by congruence. subst f.
    exists (Search s), f0, (Heap.set_search (Some s) f0), t.
    rewrite Hval, Hb. repeat split; auto.
  - destruct (searchBy_sound cs h h' t b Hv Hs) as (f & l & E1 & E2 & E3 & Hp & Hval).
    exists (SearchBy l), f, (Heap.set_searchBy (length h) f), t.
    simpl. rewrite E2. repeat split; auto.
  - destruct (select_sound cs h h' t b Hv Hs) as (f & l & E1 & E2 & E3 & Hp & Hval).
    exists (Select l), f, (Heap.set_select (length h) f), t.
    simpl. rewrite E2. repeat split; auto.
  - destruct (filter_sound c tok h h' t b Hv Hs) as (f & ptok & E1 & E2 & E3 & Hp & Hval).
    exists (Filter c ptok), f, f, (Heap._filter f). repeat split; auto.
  - destruct (assign_sound (Heap.set_cursor (Some s)) h h' t b) as (f & E1 & E2 & Hp & Hval);
      [now intros f | assumption | exact Hs |].
    assert (f = f0) by congruence. subst f.
    exists (Cursor s), f0, (Heap.set_cursor (Some s) f0), t.
    rewrite Hval, Hb. repeat split; auto.
  - destruct (assign_sound (Heap.set_withDeleted (Some v)) h h' t b)
      as (f & E1 & E2 & Hp & Hval); [now intros f | assumption | exact Hs |].
    assert (f = f0) by congruence. subst f.
    exists (WithDeleted v), f0, (Heap.set_withDeleted (Some v) f0), t.
    rewrite Hval, Hb. repeat split; auto.
Qed.

(** ** Arrays of strings: who holds them, and a push by the caller *)

(** An array the builder at [t] does not hold: it is neither its
    [searchBy] array, nor its [select] array, nor the token array of one of
    its filters. *)
Definition not_held (h : Heap.heap) (t r : Heap.loc) : Prop :=
  forall f es,
    Heap.read_builder h t = Some f -> Heap.read_filters h (Heap._filter f) = Some es ->
    r <> Heap._searchBy f /\ r <> Heap._select f
    /\ forall k, ~ In (k, Heap.FRef r) es.

Lemma deref_entries_array_frame (h h' : Heap.heap) (r : Heap.loc) es fl :
  preserves h h' (Some r) -> (forall k, ~ In (k, Heap.FRef r) es) ->
  Heap.deref_entries h es = Some fl -> Heap.deref_entries h' es = Some fl.
Proof.
  intros Hp. revert fl. induction es as [|[k v] es IH]; intros fl Hr; simpl; [auto|].
  destruct (Heap.deref_value h v) as [pv|] eqn:Ev; [|discriminate]. simpl.
  destruct (Heap.deref_entries h es) as [rest|] eqn:Er; [|discriminate]. simpl.
  intros [= <-].
  assert (Ev' : Heap.deref_value h' v = Some pv).
  { destruct v as [s|r0]; [exact Ev|]. simpl in *.
    destruct (Heap.read_strings h r0) as [l|] eqn:E; [|discriminate].
    rewrite (read_strings_preserved _ _ _ Hp _ _ E); [exact Ev|].
    intros [= ->]. apply (Hr k). now left. }
  rewrite Ev'. simpl. rewrite (IH rest); [reflexivity | | reflexivity].
  intros k0 Hin. apply (Hr k0). now right.
Qed.

Lemma value_of_array_frame (h h' : Heap.heap) (t r : Heap.loc) (b : B.t) (l : list string) :
  preserves h h' (Some r) -> Heap.read_strings h r = Some l -> not_held h t r ->
  Heap.value_of h t = Some b -> Heap.value_of h' t = Some b.
Proof.
  intros Hp Hr Hn Hv.
  apply value_of_parts in Hv as (f & rs & sb & sel & es & fl & H1 & H2 & H3 & H4 & H5 & H6 & ->).
  destruct (Hn f es H1 H5) as (N1 & N2 & N3).
  apply value_of_parts. exists f, rs, sb, sel, es, fl. repeat split.
  - apply (read_builder_preserved _ _ _ Hp _ _ H1). kinds.
  - apply (read_rules_preserved _ _ _ Hp _ _ H2). kinds.
  - apply (read_strings_preserved _ _ _ Hp _ _ H3). congruence.
  - apply (read_strings_preserved _ _ _ Hp _ _ H4). congruence.
  - apply (read_filters_preserved _ _ _ Hp _ _ H5). kinds.
  - now apply (deref_entries_array_frame h h' r).
Qed.

Lemma array_push_frame (h h2 : Heap.heap) (t r : Heap.loc) (b : B.t) (x : string) :
  not_held h t r -> Heap.value_of h t = Some b -> array_push r x h = Some h2 ->
  Heap.value_of h2 t = Some b.
Proof.
  intros Hn Hv Hpush. unfold array_push in Hpush.
  destruct (Heap.read_strings h r) as [l|] eqn:Hr; [|discriminate].
  cbn [mbind option_bind] in Hpush. injection Hpush as <-.
  apply (value_of_array_frame h _ t r b l); auto. apply preserves_insert.
Qed.

Lemma array_push_defined (h : Heap.heap) (r : Heap.loc) (l : list string) (x : string) :
  Heap.read_strings h r = Some l ->
  array_push r x h = Some (<[r := Heap.Strings (l ++ [x])]> h).
Proof. intros H. unfold array_push. now rewrite H. Qed.

Lemma read_strings_valid (h : Heap.heap) (l : Heap.loc) ss :
  Heap.read_strings h l = Some ss -> (l < length h)%nat.
Proof.
  unfold Heap.read_strings. destruct (h !! l) eqn:E; [|discriminate].
  intros _. now apply lookup_lt_Some in E.
Qed.

Lemma in_set {V : Type} (k c : string) (v v' : V) (o : list (string * V)) :
  In (k, v') (Dict.set c v o) -> (k = c /\ v' = v) \/ In (k, v') o.
Proof.
  induction o as [|[k0 v0] o IH]; cbn [Dict.set].
  - intros [[= <- <-]|[]]. now left.
  - destruct (String.eqb k0 c).
    + intros [[= <- <-]|H]; [now left | right; now right].
    + intros [H|H]; [right; now left|].
      destruct (IH H) as [?|?]; [now left | right; now right].
Qed.

(** The arrays of strings the builder at [t] holds. *)
Definition holds (h : Heap.heap) (t r : Heap.loc) : Prop :=
  exists f es,
    Heap.read_builder h t = Some f /\ Heap.read_filters h (Heap._filter f) = Some es
    /\ (r = Heap._searchBy f \/ r = Heap._select f \/ exists k, In (k, Heap.FRef r) es).

Lemma not_held_holds (h : Heap.heap) (t r : Heap.loc) : not_held h t r <-> ~ holds h t r.
Proof.
  split.
  - intros Hn (f & es & Hf & Hes & Hr). destruct (Hn f es Hf Hes) as (N1 & N2 & N3).
    destruct Hr as [->|[->|[k Hk]]]; [congruence | congruence | now apply (N3 k)].
  - intros Hn f es Hf Hes. split; [|split].
    + intros ->. apply Hn. exists f, es. tauto.
    + intros ->. apply Hn. exists f, es. tauto.
    + intros k Hk. apply Hn. exists f, es. repeat split; try assumption. right. right. now exists k.
Qed.

Lemma deref_entries_in (h : Heap.heap) es fl (k : string) (r : Heap.loc) :
  Heap.deref_entries h es = Some fl -> In (k, Heap.FRef r) es ->
  exists l, Heap.read_strings h r = Some l.
Proof.
  revert fl. induction es as [|[k0 v] es IH]; intros fl; simpl; [tauto|].
  destruct (Heap.deref_value h v) as [pv|] eqn:Ev; [|discriminate]. simpl.
  destruct (Heap.deref_entries h es) as [rest|] eqn:Er; [|discriminate]. simpl.
  intros _ [[= -> ->]|Hin]; [|now apply (IH rest)].
  simpl in Ev. destruct (Heap.read_strings h r) as [l|]; [eauto | discriminate].
Qed.

Lemma holds_valid (h : Heap.heap) (t r : Heap.loc) (b : B.t) :
  Heap.value_of h t = Some b -> holds h t r -> (r < length h)%nat.
Proof.
  intros Hv (f & es & Hf & Hes & Hr).
  apply value_of_parts in Hv as (f0 & rs & sb & sel & es0 & fl & H1 & H2 & H3 & H4 & H5 & H6 & _).
  assert (f0 = f) by congruence. subst f0.
  assert (es0 = es) by congruence. subst es0.
  destruct Hr as [->|[->|[k Hk]]].
  - now apply read_strings_valid in H3.
  - now apply read_strings_valid in H4.
  - destruct (deref_entries_in h es fl k r H6 Hk) as [l Hl]. now apply read_strings_valid in Hl.
Qed.

Lemma holds_inv (h : Heap.heap) (t r : Heap.loc) f es :
  Heap.read_builder h t = Some f -> Heap.read_filters h (Heap._filter f) = Some es ->
  holds h t r ->
  r = Heap._searchBy f \/ r = Heap._select f \/ exists k, In (k, Heap.FRef r) es.
Proof.
  intros Hf Hes (f0 & es0 & Hf0 & Hes0 & Hr).
  assert (f0 = f) by congruence. subst f0.
  assert (es0 = es) by congruence. now subst es0.
Qed.

(** ** Two builders that share no mutable container *)

Definition separate (h : Heap.heap) (o c : Heap.loc) : Prop :=
  o <> c
  /\ exists fo fc bo bc,
       Heap.read_builder h o = Some fo
       /\ Heap.read_builder h c = Some fc
       /\ Heap._sortBy fo <> Heap._sortBy fc
       /\ Heap._filter fo <> Heap._filter fc
       /\ Heap.value_of h o = Some bo
       /\ Heap.value_of h c = Some bc.

Lemma separate_sym (h : Heap.heap) (o c : Heap.loc) : separate h o c -> separate h c o.
Proof.
  intros (Hne & fo & fc & bo & bc & H1 & H2 & H3 & H4 & H5 & H6).
  split; [congruence|]. exists fc, fo, bc, bo. repeat split; auto.
Qed.

(** A call on one of two separate builders changes what that builder
    stands for as the value-level method does, and leaves the other
    as it was. *)
Lemma step_frame (m : Heap.call) (h h' : Heap.heap) (o c : Heap.loc) (bo bc : B.t) :
  separate h o c ->
  Heap.value_of h o = Some bo -> Heap.value_of h c = Some bc ->
  Heap.step m c h = Some h' ->
  Heap.value_of h' o = Some bo
  /\ (exists pm, denote h m = Some pm /\ Heap.value_of h' c = Some (apply pm bc))
  /\ separate h' o c.
Proof.
  intros (Hne & fo & fc & bo' & bc' & Ho & Hc & Hs1 & Hs2 & Hvo & Hvc) Hbo Hbc Hstep.
  assert (bo' = bo) by congruence. assert (bc' = bc) by congruence. subst bo' bc'.
  destruct (step_sound m h h' c bc Hvc Hstep)
    as (pm & f & f' & w & Hden & Hval & Hf & Hf' & Hk1 & Hk2 & Hp & Hw).
  assert (f = fc) by congruence. subst f.
  pose proof Hvo as Po. pose proof Hvc as Pc.
  apply value_of_parts in Po
    as (fo0 & rso & sbo & selo & eso & flo & O1 & O2 & O3 & O4 & O5 & O6 & _).
  apply value_of_parts in Pc
    as (fc0 & rsc & sbc & selc & esc & flc & C1 & C2 & C3 & C4 & C5 & C6 & _).
  assert (fo0 = fo) by congruence. assert (fc0 = fc) by congruence. subst fo0 fc0.
  assert (Hout : outside h o w).
  { destruct Hw as [-> | [-> | ->]].
    - split; [congruence|]. split.
      + intros f0 Hf0. assert (f0 = fo) by congruence. subst f0. split; kinds.
      + intros ss. kinds.
    - split; [kinds|]. split.
      + intros f0 Hf0. assert (f0 = fo) by congruence. subst f0.
        split; [congruence | kinds].
      + intros ss. kinds.
    - split; [kinds|]. split.
      + intros f0 Hf0. assert (f0 = fo) by congruence. subst f0.
        split; [kinds | congruence].
      + intros ss. kinds. }
  pose proof (value_of_frame h h' o w bo Hp Hout Hvo) as Hvo'.
  split; [assumption|]. split; [eauto|].
  split; [assumption|].
  exists fo, f', bo, (apply pm bc). repeat split; try assumption; try congruence.
  apply (read_builder_preserved _ _ _ Hp _ _ Ho). destruct Hout as (Hwo & _). congruence.
Qed.

(** A write outside a builder leaves the arrays it holds the same. *)
Lemma holds_preserved (h h' : Heap.heap) (o w r : Heap.loc) (bo : B.t) :
  preserves h h' (Some w) -> outside h o w -> Heap.value_of h o = Some bo ->
  holds h' o r -> holds h o r.
Proof.
  intros Hp (Hwo & Hwf & _) Hv Hh.
  apply value_of_parts in Hv as (f & rs & sb & sel & es & fl & H1 & H2 & H3 & H4 & H5 & H6 & _).
  destruct (Hwf f H1) as [_ Hw2].
  assert (B' : Heap.read_builder h' o = Some f)
    by (apply (read_builder_preserved _ _ _ Hp _ _ H1); congruence).
  assert (F' : Heap.read_filters h' (Heap._filter f) = Some es)
    by (apply (read_filters_preserved _ _ _ Hp _ _ H5); congruence).
  exists f, es. split; [assumption|]. split; [assumption|].
  now apply (holds_inv h' o r f es).
Qed.

Lemma step_outside (m : Heap.call) (h h' : Heap.heap) (o c : Heap.loc) (bo bc : B.t) :
  separate h o c ->
  Heap.value_of h o = Some bo -> Heap.value_of h c = Some bc ->
  Heap.step m c h = Some h' ->
  exists w, preserves h h' (Some w) /\ outside h o w.
Proof.
  intros (Hne & fo & fc & bo' & bc' & Ho & Hc & Hs1 & Hs2 & Hvo & Hvc) Hbo Hbc Hstep.
  destruct (step_sound m h h' c bc Hbc Hstep)
    as (pm & f & f' & w & Hden & Hval & Hf & Hf' & Hk1 & Hk2 & Hp & Hw).
  assert (f = fc) by congruence. subst f.
  pose proof Hbo as Po. pose proof Hbc as Pc.
  apply value_of_parts in Po
    as (fo0 & rso & sbo & selo & eso & flo & O1 & O2 & O3 & O4 & O5 & O6 & _).
  apply value_of_parts in Pc
    as (fc0 & rsc & sbc & selc & esc & flc & C1 & C2 & C3 & C4 & C5 & C6 & _).
  assert (fo0 = fo) by congruence. assert (fc0 = fc) by congruence. subst fo0 fc0.
  exists w. split; [assumption|].
  destruct Hw as [-> | [-> | ->]].
  - split; [congruence|]. split.
    + intros f0 Hf0. assert (f0 = fo) by congruence. subst f0. split; kinds.
    + intros ss. kinds.
  - split; [kinds|]. split.
    + intros f0 Hf0. assert (f0 = fo) by congruence. subst f0.
      split; [congruence | kinds].
    + intros ss. kinds.
  - split; [kinds|]. split.
    + intros f0 Hf0. assert (f0 = fo) by congruence. subst f0.
      split; [kinds | congruence].
    + intros ss. kinds.
Qed.

(** The arrays a builder holds after one of its methods ran: those it
    held, a fresh one, or the array handed to [filter]. *)
Lemma holds_after_step (m : Heap.call) (h h' : Heap.heap) (t r : Heap.loc) (b : B.t) :
  Heap.value_of h t = Some b -> Heap.step m t h = Some h' -> holds h' t r ->
  holds h t r \/ (length h <= r)%nat \/ exists c, m = Heap.Filter c (Heap.TRef r).
Proof.
  intros Hv Hs Hh. pose proof Hv as Hv0.
  apply value_of_parts in Hv0
    as (f & rs & sb & sel & es & fl & H1 & H2 & H3 & H4 & H5 & H6 & Hb).
  assert (Hold : forall f' es',
             Heap.read_builder h' t = Some f' ->
             Heap.read_filters h' (Heap._filter f') = Some es' ->
             (Heap._searchBy f' = Heap._searchBy f \/ (length h <= Heap._searchBy f')%nat) ->
             (Heap._select f' = Heap._select f \/ (length h <= Heap._select f')%nat) ->
             (forall k, In (k, Heap.FRef r) es' ->
                        In (k, Heap.FRef r) es \/ (length h <= r)%nat
                        \/ exists c, m = Heap.Filter c (Heap.TRef r)) ->
             holds h t r \/ (length h <= r)%nat \/ exists c, m = Heap.Filter c (Heap.TRef r)).
  { intros f' es' Hf' Hes' S1 S2 S3.
    destruct (holds_inv h' t r f' es' Hf' Hes' Hh) as [->|[->|[k Hk]]].
    - destruct S1 as [->|S1]; [left; exists f, es; tauto | now right; left].
    - destruct S2 as [->|S2]; [left; exists f, es; tauto | now right; left].
    - destruct (S3 k Hk) as [Hin|[Hfr|Hm]]; [left | now right; left | now right; right].
      exists f, es. repeat split; try assumption. right. right. now exists k. }
  assert (Hassign : forall g, keeps_containers g -> Heap.assign g t h = Some h' ->
            holds h t r \/ (length h <= r)%nat \/ exists c, m = Heap.Filter c (Heap.TRef r)).
  { intros g Hg Ha.
    destruct (assign_sound g h h' t b Hg Hv Ha) as (f0 & E1 & E2 & Hp & _).
    assert (f0 = f) by congruence. subst f0.
    destruct (Hg f) as (G1 & G2 & G3 & G4).
    apply (Hold (g f) es E2); [| now left | now left | intros k Hk; now left].
    rewrite G4. apply (read_filters_preserved _ _ _ Hp _ _ H5). clear -H1 H5. kinds. }
  destruct m as [n|n|c d|s|cs|cs|c tok|s|v]; cbn [Heap.step] in Hs;
    try (eapply Hassign; [|exact Hs]; now intros f0).
  - destruct (sortBy_sound c d h h' t b Hv Hs) as (f0 & E1 & E2 & Hp & _).
    assert (f0 = f) by congruence. subst f0.
    apply (Hold f es E2); [| now left | now left | intros k Hk; now left].
    apply (read_filters_preserved _ _ _ Hp _ _ H5). clear -H2 H5. kinds.
  - destruct (searchBy_sound cs h h' t b Hv Hs) as (f0 & l & E1 & E2 & E3 & Hp & _).
    assert (f0 = f) by congruence. subst f0.
    apply (Hold _ es E3); cbn; [| right; lia | now left | intros k Hk; now left].
    apply (read_filters_preserved _ _ _ Hp _ _ H5). clear -H1 H5. kinds.
  - destruct (select_sound cs h h' t b Hv Hs) as (f0 & l & E1 & E2 & E3 & Hp & _).
    assert (f0 = f) by congruence. subst f0.
    apply (Hold _ es E3); cbn; [| now left | right; lia | intros k Hk; now left].
    apply (read_filters_preserved _ _ _ Hp _ _ H5). clear -H1 H5. kinds.
  - destruct (filter_sound c tok h h' t b Hv Hs) as (f0 & ptok & E1 & _ & E3 & Hp & _).
    assert (f0 = f) by congruence. subst f0.
    assert (Hfv : (Heap._filter f < length h)%nat) by now apply read_filters_valid in H5.
    unfold Heap.filter in Hs. rewrite H1 in Hs. cbn [mbind option_bind] in Hs.
    rewrite H5 in Hs. cbn [mbind option_bind] in Hs.
    destruct (match tok with
              | Heap.TStr s => Some [s]
              | Heap.TRef r0 => Heap.read_strings h r0
              end) as [next|] eqn:En; [|discriminate].
    cbn [mbind option_bind] in Hs.
    assert (Hsame : forall k, In (k, Heap.FRef r)
                                 (Dict.set c (Heap.single_or_same tok next) es) ->
                      In (k, Heap.FRef r) es \/ (length h <= r)%nat
                      \/ exists c0, Heap.Filter c tok = Heap.Filter c0 (Heap.TRef r)).
    { intros k Hin. apply in_set in Hin as [[_ Hv']|Hin]; [|now left].
      right. right. exists c. unfold Heap.single_or_same in Hv'.
      destruct next as [|x [|y next]], tok as [s|r0]; try discriminate; congruence. }
    destruct (Dict.get c es) as [e|] eqn:Ee.
    + destruct (Heap.truthy e).
      * destruct (Heap.as_array h e) as [ex|]; [|discriminate].
        cbn [mbind option_bind Heap.alloc] in Hs. injection Hs as <-.
        apply (Hold f (Dict.set c (Heap.FRef (length h)) es) E3); [| now left | now left |].
        -- apply read_filters_insert. rewrite length_app. cbn [length]. lia.
        -- intros k Hin. apply in_set in Hin as [[_ [= ->]]|Hin]; [right; left; lia | now left].
      * injection Hs as <-.
        apply (Hold f (Dict.set c (Heap.single_or_same tok next) es) E3);
          [| now left | now left | exact Hsame].
        now apply read_filters_insert.
    + injection Hs as <-.
      apply (Hold f (Dict.set c (Heap.single_or_same tok next) es) E3);
        [| now left | now left | exact Hsame].
      now apply read_filters_insert.
Qed.

(** *** A push by the caller *)

Lemma array_push_inv (r : Heap.loc) (x : string) (h h' : Heap.heap) :
  array_push r x h = Some h' ->
  exists l, Heap.read_strings h r = Some l /\ h' = <[r := Heap.Strings (l ++ [x])]> h.
Proof.
  unfold array_push. destruct (Heap.read_strings h r) as [l|]; [|discriminate].
  intros [= <-]. now exists l.
Qed.

Lemma lookup_push (r : Heap.loc) (x : string) (h h' : Heap.heap) (l : Heap.loc) :
  array_push r x h = Some h' ->
  h' !! l = h !! l
  \/ exists ss, l = r /\ h !! l = Some (Heap.Strings ss)
                /\ h' !! l = Some (Heap.Strings (ss ++ [x])).
Proof.
  intros Hp. apply array_push_inv in Hp as (ss & Hr & ->).
  destruct (Nat.eq_dec l r) as [->|Hne].
  - right. exists ss. split; [reflexivity|].
    pose proof (read_strings_valid _ _ _ Hr) as Hlt.
    rewrite list_lookup_insert_eq by assumption. split; [|reflexivity].
    unfold Heap.read_strings in Hr. destruct (h !! r) as [[]|]; congruence.
  - left. now apply list_lookup_insert_ne.
Qed.

Lemma push_reads (r : Heap.loc) (x : string) (h h' : Heap.heap) (l : Heap.loc) :
  array_push r x h = Some h' ->
  Heap.read_builder h' l = Heap.read_builder h l
  /\ Heap.read_rules h' l = Heap.read_rules h l
  /\ Heap.read_filters h' l = Heap.read_filters h l
  /\ (forall ss, Heap.read_strings h l = Some ss -> is_Some (Heap.read_strings h' l)).
Proof.
  intros Hp. unfold Heap.read_builder, Heap.read_rules, Heap.read_filters, Heap.read_strings.
  destruct (lookup_push r x h h' l Hp) as [->|(ss & _ & -> & ->)].
  - repeat split. intros ss ->. now eexists.
  - repeat split. intros ? _. now eexists.
Qed.

Lemma holds_push (r : Heap.loc) (x : string) (h h' : Heap.heap) (t r' : Heap.loc) :
  array_push r x h = Some h' -> holds h' t r' <-> holds h t r'.
Proof.
  intros Hp. unfold holds. split; intros (f & es & Hf & Hes & Hr); exists f, es.
  - destruct (push_reads r x h h' t Hp) as (E1 & _).
    destruct (push_reads r x h h' (Heap._filter f) Hp) as (_ & _ & E3 & _).
    rewrite <- E1, <- E3. tauto.
  - destruct (push_reads r x h h' t Hp) as (E1 & _).
    destruct (push_reads r x h h' (Heap._filter f) Hp) as (_ & _ & E3 & _).
    rewrite E1, E3. tauto.
Qed.

Lemma deref_entries_push (r : Heap.loc) (x : string) (h h' : Heap.heap) es fl :
  array_push r x h = Some h' -> Heap.deref_entries h es = Some fl ->
  is_Some (Heap.deref_entries h' es).
Proof.
  intros Hp. revert fl. induction es as [|[k v] es IH]; intros fl; simpl; [now eexists|].
  destruct (Heap.deref_value h v) as [pv|] eqn:Ev; [|discriminate]. simpl.
  destruct (Heap.deref_entries h es) as [rest|] eqn:Er; [|discriminate]. simpl.
  intros _. destruct (IH rest eq_refl) as [rest' ->].
  assert (Hv : is_Some (Heap.deref_value h' v)).
  { destruct v as [s|r0]; simpl in *; [now eexists|].
    destruct (Heap.read_strings h r0) as [l|] eqn:El; [|discriminate].
    destruct (push_reads r x h h' r0 Hp) as (_ & _ & _ & E4).
    destruct (E4 l El) as [l' ->]. now eexists. }
  destruct Hv as [pv' ->]. now eexists.
Qed.

Lemma value_of_push (r : Heap.loc) (x : string) (h h' : Heap.heap) (t : Heap.loc) (b : B.t) :
  array_push r x h = Some h' -> Heap.value_of h t = Some b ->
  is_Some (Heap.value_of h' t).
Proof.
  intros Hp Hv.
  apply value_of_parts in Hv as (f & rs & sb & sel & es & fl & H1 & H2 & H3 & H4 & H5 & H6 & _).
  destruct (push_reads r x h h' t Hp) as (E1 & _).
  destruct (push_reads r x h h' (Heap._sortBy f) Hp) as (_ & E2 & _).
  destruct (push_reads r x h h' (Heap._searchBy f) Hp) as (_ & _ & _ & E3).
  destruct (push_reads r x h h' (Heap._select f) Hp) as (_ & _ & _ & E4).
  destruct (push_reads r x h h' (Heap._filter f) Hp) as (_ & _ & E5 & _).
  destruct (E3 sb H3) as [sb' S3]. destruct (E4 sel H4) as [sel' S4].
  destruct (deref_entries_push r x h h' es fl Hp H6) as [fl' S6].
  eexists. apply value_of_parts. exists f, rs, sb', sel', es, fl'.
  repeat split; try assumption; congruence.
Qed.

(** *** Two builders that share no array either *)

Definition independent (h : Heap.heap) (o c : Heap.loc) : Prop :=
  separate h o c /\ forall r, holds h o r -> holds h c r -> False.

Lemma independent_sym (h : Heap.heap) (o c : Heap.loc) :
  independent h o c -> independent h c o.
Proof. intros [Hs Hd]. split; [now apply separate_sym | intros r H1 H2; now apply (Hd r)]. Qed.

Lemma independent_values (h : Heap.heap) (o c : Heap.loc) :
  independent h o c ->
  exists bo bc, Heap.value_of h o = Some bo /\ Heap.value_of h c = Some bc.
Proof. intros [(_ & fo & fc & bo & bc & _ & _ & _ & _ & Vo & Vc) _]. now exists bo, bc. Qed.

Lemma push_separate (r : Heap.loc) (x : string) (h h' : Heap.heap) (o c : Heap.loc) :
  separate h o c -> array_push r x h = Some h' -> separate h' o c.
Proof.
  intros (Hne & fo & fc & bo & bc & Ho & Hc & Hs1 & Hs2 & Vo & Vc) Hp.
  split; [assumption|].
  destruct (value_of_push r x h h' o bo Hp Vo) as [bo' Vo'].
  destruct (value_of_push r x h h' c bc Hp Vc) as [bc' Vc'].
  exists fo, fc, bo', bc'.
  destruct (push_reads r x h h' o Hp) as (E1 & _).
  destruct (push_reads r x h h' c Hp) as (E2 & _).
  rewrite E1, E2. repeat split; assumption.
Qed.

Lemma push_independent (r : Heap.loc) (x : string) (h h' : Heap.heap) (o c : Heap.loc) :
  independent h o c -> array_push r x h = Some h' -> independent h' o c.
Proof.
  intros [Hs Hd] Hp. split; [now apply (push_separate r x h h')|].
  intros r' H1 H2. apply (Hd r'); now apply (holds_push r x h h').
Qed.

Lemma call_independent (m : Heap.call) (h h' : Heap.heap) (o c : Heap.loc) :
  independent h o c ->
  (forall col r, m = Heap.Filter col (Heap.TRef r) -> ~ holds h o r) ->
  Heap.step m c h = Some h' -> independent h' o c.
Proof.
  intros Hi Harg Hs. destruct (independent_values h o c Hi) as (bo & bc & Vo & Vc).
  destruct Hi as [Hsep Hd].
  destruct (step_frame m h h' o c bo bc Hsep Vo Vc Hs) as (Vo' & _ & Hsep').
  split; [assumption|].
  intros r Ho' Hc'.
  destruct (step_outside m h h' o c bo bc Hsep Vo Vc Hs) as (w & Hp & Hout).
  pose proof (holds_preserved h h' o w r bo Hp Hout Vo Ho') as Ho.
  destruct (holds_after_step m h h' c r bc Vc Hs Hc') as [Hc|[Hfresh|[col ->]]].
  - now apply (Hd r).
  - pose proof (holds_valid h o r bo Vo Ho). lia.
  - now apply (Harg col r eq_refl).
Qed.

(** ** [clone] *)

Lemma preserves_app (h ext : Heap.heap) w : preserves h (h ++ ext) w.
Proof.
  intros l c H _. rewrite lookup_app_l; [assumption|]. now apply lookup_lt_Some in H.
Qed.

Lemma fresh_at_length (h h' : Heap.heap) (c : Heap.cell) :
  preserves h h' None -> h !! length h' = Some c -> False.
Proof.
  intros Hp H. assert (H' : h' !! length h' = Some c) by (apply Hp; [assumption | discriminate]).
  apply lookup_lt_Some in H'. lia.
Qed.

Lemma copy_entries_sound (es : list (string * Heap.fvalue)) (h : Heap.heap) fl :
  Heap.deref_entries h es = Some fl ->
  exists es' h',
    Heap.copy_entries es h = Some (es', h')
    /\ preserves h h' None
    /\ Heap.deref_entries h' es' = Some fl
    /\ forall k r, In (k, Heap.FRef r) es' -> (length h <= r)%nat.
Proof.
  revert h fl. induction es as [|[k [s|r]] es IH]; intros h fl; simpl.
  - intros [= <-]. exists [], h. repeat split; [apply preserves_refl | intros k r []].
  - destruct (Heap.deref_entries h es) as [rest|] eqn:Er; [|discriminate]. simpl.
    intros [= <-]. destruct (IH h rest Er) as (es' & h' & Ec & Hp & Hd & Hfr).
    exists ((k, Heap.FStr s) :: es'), h'. rewrite Ec. simpl. rewrite Hd.
    repeat split; [assumption|]. intros k0 r0 [[=]|Hin]. now apply (Hfr k0).
  - destruct (Heap.read_strings h r) as [l|] eqn:El; [|discriminate]. simpl.
    destruct (Heap.deref_entries h es) as [rest|] eqn:Er; [|discriminate]. simpl.
    intros [= <-].
    set (h1 := h ++ [Heap.Strings l]).
    pose proof (preserves_alloc h (Heap.Strings l) None) as Hp1. fold h1 in Hp1.
    assert (Er1 : Heap.deref_entries h1 es = Some rest).
    { apply (deref_entries_preserved h _ None); [assumption | intros ? ?; discriminate | assumption]. }
    destruct (IH h1 rest Er1) as (es' & h' & Ec & Hp & Hd & Hfr).
    exists ((k, Heap.FRef (length h)) :: es'), h'. fold h1. rewrite Ec. simpl.
    assert (Hr : Heap.read_strings h' (length h) = Some l).
    { apply (read_strings_preserved h1 _ None); [assumption | | discriminate].
      apply read_strings_alloc. }
    rewrite Hr. simpl. rewrite Hd. repeat split.
    + now apply (preserves_trans h h1 h' None).
    + intros k0 r0 [[= _ <-]|Hin]; [lia|].
      apply Hfr in Hin. unfold h1 in Hin. rewrite length_app in Hin. cbn [length] in Hin. lia.
Qed.

Lemma map_rule_copy (rs : list (string * SortDirection)) :
  map (fun '(col, dir) => (col, dir)) rs = rs.
Proof. induction rs as [|[c d] rs IH]; simpl; [reflexivity | now rewrite IH]. Qed.

Lemma clone_value (b : B.t) : B.clone b = b.
Proof.
  destruct b as [pg lm sb se sby sel fl cu wd]. unfold B.clone. simpl.
  rewrite map_rule_copy. f_equal.
  induction fl as [|[k [s|l]] fl IH]; simpl; [reflexivity | now rewrite IH | now rewrite IH].
Qed.

Lemma clone_sound (h : Heap.heap) (o : Heap.loc) (b : B.t) :
  Heap.value_of h o = Some b ->
  exists c h1,
    Heap.clone o h = Some (c, h1)
    /\ Heap.value_of h1 c = Some b
    /\ Heap.value_of h1 o = Some b
    /\ separate h1 o c
    /\ preserves h h1 None
    /\ forall r, holds h1 c r -> (length h <= r)%nat.
Proof.
  intros Hv. pose proof Hv as Hv0.
  apply value_of_parts in Hv0 as (f & rs & sb & sel & es & fl & H1 & H2 & H3 & H4 & H5 & H6 & Hb).
  unfold Heap.clone. rewrite H1. simpl.
  set (f0 := Heap.mk_fields None None (length h) None
               (length (h ++ [Heap.SortRules []]))
               (length ((h ++ [Heap.SortRules []]) ++ [Heap.Strings []]))
               (length (((h ++ [Heap.SortRules []]) ++ [Heap.Strings []]) ++ [Heap.Strings []]))
               None None).
  set (h5 := ((((h ++ [Heap.SortRules []]) ++ [Heap.Strings []]) ++ [Heap.Strings []])
                ++ [Heap.Filters []]) ++ [Heap.Builder f0]).
  set (copy := length ((((h ++ [Heap.SortRules []]) ++ [Heap.Strings []])
                          ++ [Heap.Strings []]) ++ [Heap.Filters []])).
  assert (Hcopy5 : h5 !! copy = Some (Heap.Builder f0)) by apply lookup_alloc.
  assert (P5 : preserves h h5 None).
  { unfold h5. do 5 (eapply preserves_trans; [|apply preserves_alloc]). apply preserves_refl. }
  assert (L5 : (length h <= length h5)%nat).
  { unfold h5. rewrite !length_app. lia. }
  assert (Hfresh : h !! copy = None).
  { destruct (h !! copy) eqn:E; [|reflexivity]. apply lookup_lt_Some in E.
    unfold copy in E. rewrite !length_app in E. simpl in E. lia. }
  rewrite (read_rules_preserved _ _ _ P5 _ _ H2) by discriminate. simpl.
  rewrite map_rule_copy.
  set (h6 := h5 ++ [Heap.SortRules rs]).
  assert (P6 : preserves h h6 None)
    by (eapply preserves_trans; [exact P5 | apply preserves_alloc]).
  assert (L6 : (length h <= length h6)%nat).
  { unfold h6. rewrite length_app. lia. }
  rewrite (read_strings_preserved _ _ _ P6 _ _ H3) by discriminate. simpl.
  set (h7 := h6 ++ [Heap.Strings sb]).
  assert (P7 : preserves h h7 None)
    by (eapply preserves_trans; [exact P6 | apply preserves_alloc]).
  assert (L7 : (length h <= length h7)%nat).
  { unfold h7. rewrite length_app. lia. }
  rewrite (read_strings_preserved _ _ _ P7 _ _ H4) by discriminate. simpl.
  set (h8 := h7 ++ [Heap.Strings sel]).
  assert (P8 : preserves h h8 None)
    by (eapply preserves_trans; [exact P7 | apply preserves_alloc]).
  assert (L8 : (length h <= length h8)%nat).
  { unfold h8. rewrite length_app. lia. }
  rewrite (read_filters_preserved _ _ _ P8 _ _ H5) by discriminate. simpl.
  assert (Hd8 : Heap.deref_entries h8 es = Some fl).
  { apply (deref_entries_preserved h _ None); [assumption | intros ? ?; discriminate | assumption]. }
  destruct (copy_entries_sound es h8 fl Hd8) as (es' & h9 & Ec & P89 & Hd9 & Hfr).
  rewrite Ec. simpl.
  set (h10 := h9 ++ [Heap.Filters es']).
  set (F := Heap.mk_fields (Heap._page f) (Heap._limit f) (length h5) (Heap._search f)
              (length h6) (length h7) (length h9) (Heap._cursor f) (Heap._withDeleted f)).
  set (h1 := <[copy := Heap.Builder F]> h10).
  assert (P9 : preserves h h9 None) by (eapply preserves_trans; [exact P8 | exact P89]).
  assert (P10 : preserves h9 h10 None) by apply preserves_alloc.
  assert (P8_10 : preserves h8 h10 None)
    by (eapply preserves_trans; [exact P89 | exact P10]).
  assert (P7_10 : preserves h7 h10 None)
    by (eapply preserves_trans; [apply (preserves_alloc h7 (Heap.Strings sel)) | exact P8_10]).
  assert (P6_10 : preserves h6 h10 None)
    by (eapply preserves_trans; [apply (preserves_alloc h6 (Heap.Strings sb)) | exact P7_10]).
  assert (P5_10 : preserves h5 h10 None)
    by (eapply preserves_trans; [apply (preserves_alloc h5 (Heap.SortRules rs)) | exact P6_10]).
  assert (Hcopy10 : h10 !! copy = Some (Heap.Builder f0))
    by (apply P5_10; [assumption | discriminate]).
  assert (Pins : preserves h10 h1 (Some copy)) by apply preserves_insert.
  assert (Hns : not_strings h10 (Some copy)).
  { intros l ss [= <-]. rewrite Hcopy10. discriminate. }
  assert (R1 : Heap.read_rules h10 (length h5) = Some rs).
  { apply (read_rules_preserved h6 _ None); [exact P6_10 | | discriminate].
    unfold Heap.read_rules. unfold h6 at 1. now rewrite lookup_alloc. }
  assert (R2 : Heap.read_strings h10 (length h6) = Some sb).
  { apply (read_strings_preserved h7 _ None); [exact P7_10 | | discriminate].
    apply read_strings_alloc. }
  assert (R3 : Heap.read_strings h10 (length h7) = Some sel).
  { apply (read_strings_preserved h8 _ None); [exact P8_10 | | discriminate].
    apply read_strings_alloc. }
  assert (R4 : Heap.read_filters h10 (length h9) = Some es').
  { unfold Heap.read_filters, h10. now rewrite lookup_alloc. }
  assert (Hd10 : Heap.deref_entries h10 es' = Some fl).
  { apply (deref_entries_preserved h9 _ None); [assumption | intros ? ?; discriminate | assumption]. }
  assert (B1 : Heap.read_builder h1 copy = Some F).
  { unfold Heap.read_builder, h1. apply lookup_lt_Some in Hcopy10.
    now rewrite list_lookup_insert_eq. }
  assert (F1 : Heap.read_filters h1 (length h9) = Some es').
  { apply (read_filters_preserved _ _ _ Pins _ _ R4).
    intros [= E]. unfold Heap.read_filters in R4. rewrite E, Hcopy10 in R4. discriminate. }
  exists copy, h1. split; [reflexivity|].
  assert (Vc : Heap.value_of h1 copy = Some b).
  { apply value_of_parts. exists F, rs, sb, sel, es', fl. repeat split.
    - exact B1.
    - apply (read_rules_preserved _ _ _ Pins _ _ R1).
      intros [= E]. unfold Heap.read_rules in R1. rewrite E, Hcopy10 in R1. discriminate.
    - apply (read_strings_preserved _ _ _ Pins _ _ R2).
      now apply (strings_not_written h10 _ _ sb).
    - apply (read_strings_preserved _ _ _ Pins _ _ R3).
      now apply (strings_not_written h10 _ _ sel).
    - exact F1.
    - now apply (deref_entries_preserved _ _ _ Pins).
    - exact Hb. }
  assert (P1 : preserves h h1 None).
  { intros l c Hl _. apply Pins.
    - apply P10; [|discriminate]. apply P9; [assumption | discriminate].
    - intros [= ->]. congruence. }
  assert (Vo : Heap.value_of h1 o = Some b) by now apply (value_of_grow h).
  split; [assumption|]. split; [assumption|].
  split; [split|split; [exact P1|]].
  - intros ->. unfold Heap.read_builder in H1. now rewrite Hfresh in H1.
  - exists f, F, b, b. repeat split; try assumption.
    + now apply (read_builder_preserved _ _ _ P1).
    + simpl. intros E. unfold Heap.read_rules in H2.
      destruct (h !! Heap._sortBy f) as [c0|] eqn:E0; [|discriminate].
      rewrite E in E0. now apply (fresh_at_length h h5 c0).
    + simpl. intros E. unfold Heap.read_filters in H5.
      destruct (h !! Heap._filter f) as [c0|] eqn:E0; [|discriminate].
      rewrite E in E0. now apply (fresh_at_length h h9 c0).
  - intros r Hr.
    destruct (holds_inv h1 copy r F es' B1 F1 Hr) as [->|[->|[k Hk]]]; cbn [Heap._searchBy Heap._select F].
    + exact L6.
    + exact L7.
    + apply Hfr in Hk. lia.
Qed.

(** The value-level calls a run makes on the builder [who]. *)
Fixpoint history (who : Heap.loc) (calls : list (Heap.loc * Heap.call)) (h : Heap.heap)
  : option (list mutation) :=
  match calls with
  | [] => Some []
  | (t, m) :: rest =>
      pm ← denote h m;
      h' ← Heap.step m t h;
      ms ← history who rest h';
      Some (if Nat.eqb t who then pm :: ms else ms)
  end.

Definition targets (o c : Heap.loc) (calls : list (Heap.loc * Heap.call)) : Prop :=
  Forall (fun tm => fst tm = o \/ fst tm = c) calls.

Lemma run_separate (calls : list (Heap.loc * Heap.call)) (h h2 : Heap.heap)
    (o c : Heap.loc) (bo bc : B.t) :
  separate h o c -> targets o c calls ->
  Heap.value_of h o = Some bo -> Heap.value_of h c = Some bc ->
  Heap.run calls h = Some h2 ->
  separate h2 o c
  /\ exists mo mc,
       history o calls h = Some mo /\ history c calls h = Some mc
       /\ Heap.value_of h2 o = Some (run mo bo)
       /\ Heap.value_of h2 c = Some (run mc bc).
Proof.
  revert h bo bc. induction calls as [|[t m] calls IH]; intros h bo bc Hsep Ht Hbo Hbc Hrun.
  - injection Hrun as <-. split; [assumption|]. exists [], []. repeat split; assumption.
  - inversion Ht as [|? ? Htm Ht']; subst. cbn [fst] in Htm.
    cbn [Heap.run] in Hrun.
    destruct (Heap.step m t h) as [h'|] eqn:Es; [|discriminate]. cbn [mbind option_bind] in Hrun.
    assert (Hoc : o <> c) by (destruct Hsep; assumption).
    destruct Htm as [-> | ->].
    + destruct (step_frame m h h' c o bc bo (separate_sym _ _ _ Hsep) Hbc Hbo Es)
        as (Hc' & (pm & Hden & Ho') & Hsep').
      apply separate_sym in Hsep'.
      destruct (IH h' (apply pm bo) bc Hsep' Ht' Ho' Hc' Hrun)
        as (Hsep2 & mo & mc & Hmo & Hmc & Vo & Vc).
      split; [assumption|]. exists (pm :: mo), mc.
      cbn [history]. rewrite Hden, Es. cbn [mbind option_bind].
      rewrite Hmo, Hmc. cbn [mbind option_bind].
      rewrite Nat.eqb_refl.
      assert (E : Nat.eqb o c = false) by now apply Nat.eqb_neq.
      rewrite E. repeat split; assumption.
    + destruct (step_frame m h h' o c bo bc Hsep Hbo Hbc Es)
        as (Ho' & (pm & Hden & Hc') & Hsep').
      destruct (IH h' bo (apply pm bc) Hsep' Ht' Ho' Hc' Hrun)
        as (Hsep2 & mo & mc & Hmo & Hmc & Vo & Vc).
      split; [assumption|]. exists mo, (pm :: mc).
      cbn [history]. rewrite Hden, Es. cbn [mbind option_bind].
      rewrite Hmo, Hmc. cbn [mbind option_bind].
      rewrite Nat.eqb_refl.
      assert (E : Nat.eqb c o = false) by (apply Nat.eqb_neq; congruence).
      rewrite E. repeat split; assumption.
Qed.

(** A call on a builder succeeds as soon as its array arguments exist. *)
Lemma step_progress (m : Heap.call) (h : Heap.heap) (t : Heap.loc) (b : B.t) :
  Heap.value_of h t = Some b -> is_Some (denote h m) -> is_Some (Heap.step m t h).
Proof.
  intros Hv Hm.
  apply value_of_parts in Hv as (f & rs & sb & sel & es & fl & H1 & H2 & H3 & H4 & H5 & H6 & _).
  destruct m as [n|n|c d|s|cs|cs|c tok|s|v]; simpl in *;
    unfold Heap.page, Heap.limit, Heap.search, Heap.cursor, Heap.withDeleted,
      Heap.assign, Heap.sortBy, Heap.searchBy, Heap.select, Heap.filter;
    rewrite H1; simpl; try (eexists; reflexivity).
  - rewrite H2. simpl. eexists; reflexivity.
  - destruct (Heap.read_strings h cs); [simpl; eexists; reflexivity | now destruct Hm].
  - destruct (Heap.read_strings h cs); [simpl; eexists; reflexivity | now destruct Hm].
  - rewrite H5. simpl.
    assert (Hn : exists next, match tok with
                              | Heap.TStr s => Some [s]
                              | Heap.TRef r => Heap.read_strings h r
                              end = Some next).
    { destruct tok as [s|r]; [eauto|].
      destruct (Heap.read_strings h r); [eauto | now destruct Hm]. }
    destruct Hn as [next ->]. simpl.
    pose proof (get_deref h es fl c H6) as Hg.
    destruct (Dict.get c es) as [e|]; [|eexists; reflexivity].
    destruct Hg as (pv & Hpv & _).
    destruct (Heap.truthy e); [|eexists; reflexivity].
    rewrite (as_array_deref h e pv Hpv). simpl. eexists; reflexivity.
Qed.

Lemma holds_grow (h h' : Heap.heap) (o r : Heap.loc) (b : B.t) :
  preserves h h' None -> Heap.value_of h o = Some b -> holds h' o r -> holds h o r.
Proof.
  intros Hp Hv Hh.
  apply value_of_parts in Hv as (f & rs & sb & sel & es & fl & H1 & H2 & H3 & H4 & H5 & H6 & _).
  assert (B' : Heap.read_builder h' o = Some f)
    by (apply (read_builder_preserved _ _ _ Hp _ _ H1); discriminate).
  assert (F' : Heap.read_filters h' (Heap._filter f) = Some es)
    by (apply (read_filters_preserved _ _ _ Hp _ _ H5); discriminate).
  exists f, es. split; [assumption|]. split; [assumption|].
  now apply (holds_inv h' o r f es).
Qed.

(** What a program that has the two builders can do to the store: call a
    method of one of them, or push onto an array of strings it can reach
    (its own, or one a builder handed out through [toParams]). *)
Inductive action : Type :=
  | Call (this : Heap.loc) (m : Heap.call)
  | Push (arr : Heap.loc) (x : string).

Definition perform (a : action) (h : Heap.heap) : option Heap.heap :=
  match a with
  | Call this m => Heap.step m this h
  | Push arr x => array_push arr x h
  end.

Fixpoint perform_all (acts : list action) (h : Heap.heap) : option Heap.heap :=
  match acts with
  | [] => Some h
  | a :: rest => h' ← perform a h; perform_all rest h'
  end.

(** Every call is a call on one of the two builders. *)
Definition on_either (o c : Heap.loc) (a : action) : Prop :=
  match a with
  | Call this _ => this = o \/ this = c
  | Push _ _ => True
  end.

(** The caller keeps the arrays of the two builders apart: an array
    handed to [filter] of one is not an array the other holds ([filter]
    may keep the array it is handed). *)
Definition apart (o c : Heap.loc) (h : Heap.heap) (a : action) : Prop :=
  match a with
  | Call this (Heap.Filter _ (Heap.TRef r)) =>
      (this = o -> ~ holds h c r) /\ (this = c -> ~ holds h o r)
  | _ => True
  end.

Fixpoint kept_apart (o c : Heap.loc) (acts : list action) (h : Heap.heap) : Prop :=
  match acts with
  | [] => True
  | a :: rest =>
      apart o c h a /\ forall h', perform a h = Some h' -> kept_apart o c rest h'
  end.

Lemma perform_separate (a : action) (h h' : Heap.heap) (o c : Heap.loc) :
  separate h o c -> on_either o c a -> perform a h = Some h' -> separate h' o c.
Proof.
  intros Hs Ha Hp. destruct a as [this m|arr x]; cbn [perform on_either] in *.
  - pose proof Hs as (_ & fo & fc & bo & bc & _ & _ & _ & _ & Vo & Vc).
    destruct Ha as [-> | ->].
    + apply separate_sym.
      now destruct (step_frame m h h' c o bc bo (separate_sym _ _ _ Hs) Vc Vo Hp) as (_ & _ & ?).
    + now destruct (step_frame m h h' o c bo bc Hs Vo Vc Hp) as (_ & _ & ?).
  - now apply (push_separate arr x h h').
Qed.

Lemma run_keeps_separate (acts : list action) (h h2 : Heap.heap) (o c : Heap.loc) :
  separate h o c -> Forall (on_either o c) acts -> perform_all acts h = Some h2 ->
  separate h2 o c.
Proof.
  revert h. induction acts as [|a acts IH]; intros h Hs Hon Hr; cbn [perform_all] in Hr.
  - now injection Hr as <-.
  - destruct (perform a h) as [h'|] eqn:Ea; [|discriminate]. cbn [mbind option_bind] in Hr.
    inversion Hon as [|? ? Ha Hon']; subst.
    apply (IH h'); [|assumption | assumption]. now apply (perform_separate a h h').
Qed.

Lemma perform_independent (a : action) (h h' : Heap.heap) (o c : Heap.loc) :
  independent h o c -> on_either o c a -> apart o c h a -> perform a h = Some h' ->
  independent h' o c.
Proof.
  intros Hi Hon Ha Hp. destruct a as [this m|arr x]; cbn [perform on_either] in *.
  - destruct Hon as [-> | ->].
    + apply independent_sym. apply (call_independent m h h' c o);
        [now apply independent_sym | | assumption].
      intros col r ->. now apply Ha.
    + apply (call_independent m h h' o c); [assumption | | assumption].
      intros col r ->. now apply Ha.
  - now apply (push_independent arr x h h').
Qed.

Lemma run_independent (acts : list action) (h h2 : Heap.heap) (o c : Heap.loc) :
  independent h o c -> Forall (on_either o c) acts -> kept_apart o c acts h ->
  perform_all acts h = Some h2 ->
  independent h2 o c.
Proof.
  revert h. induction acts as [|a acts IH]; intros h Hi Hon Hk Hr; cbn [perform_all] in Hr.
  - now injection Hr as <-.
  - destruct (perform a h) as [h'|] eqn:Ea; [|discriminate]. cbn [mbind option_bind] in Hr.
    inversion Hon as [|? ? Ha Hon']; subst.
    destruct Hk as [Hap Hk]. apply (IH h'); [|assumption | now apply Hk | assumption].
    now apply (perform_independent a h h').
Qed.

(** C5: [clone()] returns a builder with the param map of the original,
    and the two are independent from then on.  After any run of method
    calls on either of them, mixed with pushes onto any arrays of strings,
    a further call on either (a pushed sort rule, tokens appended to a
    column both have, a new [searchBy] or [select] list, ...) succeeds and
    leaves the param map of the other as it was.  The containers are
    copied, not shared: as long as the caller hands [filter] of one builder
    no array the other holds, a push onto an array one of them holds (its
    [searchBy] or [select] array, the token array of one of its filters)
    leaves the param map of the other as it was. *)
Theorem clone_independent (h : Heap.heap) (original : Heap.loc) (b : B.t) :
  Heap.value_of h original = Some b ->
  exists clone h1,
    Heap.clone original h = Some (clone, h1)
    /\ Heap.toParams clone h1 = Heap.toParams original h
    /\ Heap.toParams original h1 = Heap.toParams original h
    /\ forall acts h2,
         Forall (on_either original clone) acts ->
         perform_all acts h1 = Some h2 ->
         (forall m, is_Some (denote h2 m) ->
                    is_Some (Heap.step m clone h2) /\ is_Some (Heap.step m original h2))
         /\ (forall m h3,
               (Heap.step m clone h2 = Some h3 ->
                Heap.toParams original h3 = Heap.toParams original h2)
               /\ (Heap.step m original h2 = Some h3 ->
                   Heap.toParams clone h3 = Heap.toParams clone h2))
         /\ (kept_apart original clone acts h1 ->
             forall r x h3,
               array_push r x h2 = Some h3 ->
               (holds h2 clone r -> Heap.toParams original h3 = Heap.toParams original h2)
               /\ (holds h2 original r ->
                   Heap.toParams clone h3 = Heap.toParams clone h2)).
Proof.
  intros Hv.
  destruct (clone_sound h original b Hv) as (c & h1 & Ec & Vc & Vo & Hsep & Hp1 & Hfr).
  exists c, h1. split; [assumption|].
  unfold Heap.toParams at 1 2 3 4. rewrite Vc, Vo, Hv. split; [reflexivity|]. split; [reflexivity|].
  assert (Hi : independent h1 original c).
  { split; [assumption|]. intros r Ho Hc. apply Hfr in Hc.
    assert (Ho' : holds h original r) by now apply (holds_grow h h1 original r b).
    pose proof (holds_valid h original r b Hv Ho'). lia. }
  intros acts h2 Hon Hrun.
  pose proof (run_keeps_separate acts h1 h2 original c Hsep Hon Hrun) as Hsep2.
  pose proof Hsep2 as (_ & fo & fc & bo & bc & _ & _ & _ & _ & Vo2 & Vc2).
  split; [|split].
  - intros m Hm. split; [now apply (step_progress m h2 c bc)
                        | now apply (step_progress m h2 original bo)].
  - intros m h3. unfold Heap.toParams. split; intros Hs.
    + destruct (step_frame m h2 h3 original c bo bc Hsep2 Vo2 Vc2 Hs) as (Vo3 & _).
      now rewrite Vo3, Vo2.
    + destruct (step_frame m h2 h3 c original bc bo (separate_sym _ _ _ Hsep2) Vc2 Vo2 Hs)
        as (Vc3 & _).
      now rewrite Vc3, Vc2.
  - intros Hk r x h3 Hpush.
    pose proof (run_independent acts h1 h2 original c Hi Hon Hk Hrun) as [_ Hd].
    unfold Heap.toParams. split; intros Hh.
    + rewrite (array_push_frame h2 h3 original r bo x), Vo2; [reflexivity | | assumption | assumption].
      apply not_held_holds. intros Ho. now apply (Hd r).
    + rewrite (array_push_frame h2 h3 c r bc x), Vc2; [reflexivity | | assumption | assumption].
      apply not_held_holds. intros Hc. now apply (Hd r).
Qed.

(** A store with one builder, built by [filter('name', tokens)] on the
    caller's two-token array and two [sortBy] calls. *)
Definition sample_store : Heap.heap :=
  [Heap.Strings ["$eq:A"; "$eq:B"];
   Heap.SortRules [("name", ASC); ("email", DESC)];
   Heap.Strings ["name"];
   Heap.Strings [];
   Heap.Filters [("name", Heap.FRef 0); ("role", Heap.FStr "$eq:admin")];
   Heap.Builder (Heap.mk_fields (Some 1%Z) None 1 None 2 3 4 None (Some true))].

Definition sample_value : B.t :=
  B.mk (Some 1%Z) None [("name", ASC); ("email", DESC)] None ["name"] []
       [("name", Many ["$eq:A"; "$eq:B"]); ("role", Single "$eq:admin")] None (Some true).

Lemma clone_independent_witness :
  Heap.value_of sample_store 5 = Some sample_value
  /\ exists clone h1,
       Heap.clone 5 sample_store = Some (clone, h1)
       /\ Heap.toParams clone h1 = Heap.toParams 5 sample_store
       /\ forall h3, array_push 0 "$eq:C" h1 = Some h3 ->
                     Heap.toParams clone h3 = Heap.toParams clone h1.
Proof.
  split; [reflexivity|].
  destruct (clone_independent sample_store 5 sample_value eq_refl)
    as (c & h1 & Ec & Ep & _ & Hrun).
  exists c, h1. split; [assumption|]. split; [assumption|].
  intros h3 Hpush.
  destruct (Hrun [] h1 (List.Forall_nil _) eq_refl) as (_ & _ & Hframe).
  destruct (Hframe I 0%nat "$eq:C" h3 Hpush) as (_ & Ho). apply Ho.
  cbv in Ec. injection Ec as <- <-.
  eexists _, _. split; [reflexivity|]. split; [reflexivity|].
  right. right. exists "name". now left.
Defined.

(** The array at 0 is the token array of the original's [name] filter: a
    push onto it shows in the original's param map and not in the
    clone's. *)
Example clone_then_push :
  match Heap.clone 5 sample_store with
  | Some (clone, h1) =>
      h2 ← array_push 0 "$eq:C" h1;
      o ← Heap.toParams 5 h2;
      c ← Heap.toParams clone h2;
      Some (Dict.get "filter.name" o, Dict.get "filter.name" c)
  | None => None
  end
  = Some (Some (Many ["$eq:A"; "$eq:B"; "$eq:C"]), Some (Many ["$eq:A"; "$eq:B"])).
Proof. reflexivity. Qed.

(** The side condition on the caller is needed: an array handed to
    [filter] of both builders is held by both. *)
Example array_handed_to_both :
  match Heap.clone 5 sample_store with
  | Some (clone, h1) =>
      let tokens := length h1 in
      let h2 := h1 ++ [Heap.Strings ["$gte:3"; "$lte:9"]] in
      h2 ← Heap.filter "age" (Heap.TRef tokens) 5 h2;
      h2 ← Heap.filter "age" (Heap.TRef tokens) clone h2;
      h3 ← array_push tokens "$null" h2;
      o ← Heap.toParams 5 h3;
      c ← Heap.toParams clone h3;
      Some (Dict.get "filter.age" o, Dict.get "filter.age" c)
  | None => None
  end
  = Some (Some (Many ["$gte:3"; "$lte:9"; "$null"]), Some (Many ["$gte:3"; "$lte:9"; "$null"])).
Proof. reflexivity. Qed.

Example clone_then_mutate_both :
  match Heap.clone 5 sample_store with
  | Some (clone, h1) =>
      h2 ← Heap.run [(clone, Heap.SortBy "id" ASC);
                     (5%nat, Heap.Filter "name" (Heap.TStr "$eq:C"));
                     (clone, Heap.Filter "name" (Heap.TRef 0));
                     (5%nat, Heap.SearchBy 3)] h1;
      o ← Heap.toParams 5 h2;
      c ← Heap.toParams clone h2;
      Some (o, c)
  | None => None
  end
  = Some ([("page", Single "1"); ("sortBy", Many ["name:ASC"; "email:DESC"]);
           ("withDeleted", Single "true");
           ("filter.name", Many ["$eq:A"; "$eq:B"; "$eq:C"]);
           ("filter.role", Single "$eq:admin")],
          [("page", Single "1"); ("sortBy", Many ["name:ASC"; "email:DESC"; "id:ASC"]);
           ("searchBy", Many ["name"]); ("withDeleted", Single "true");
           ("filter.name", Many ["$eq:A"; "$eq:B"; "$eq:A"; "$eq:B"]);
           ("filter.role", Single "$eq:admin")]).
Proof. reflexivity. Qed.

(** * Further properties

    What else the code shows: the format of a token, the text of a query
    string, how the methods of the builder compose, what the parser can
    return, the factory with an input object, the usage examples, and which
    arrays a builder shares with its caller.  Where a statement depends on
    a convention of the header (a column that is no member of
    [Object.prototype] and no array index, a safe integer, well-formed
    text), it says so in a hypothesis. *)

(** ** Strings, once more *)

Lemma encode_unreserved (s : string) :
  all_chars JS.unreserved s = true -> JS.encodeURIComponent s = s.
Proof.
  induction s as [|c s IH]; [reflexivity|]. cbn [all_chars JS.encodeURIComponent].
  intros H. apply andb_true_iff in H as [-> Hs]. now rewrite (IH Hs).
Qed.

Lemma string_of_uint_unreserved (d : Decimal.uint) :
  all_chars JS.unreserved (NilEmpty.string_of_uint d) = true.
Proof. induction d; cbn [NilEmpty.string_of_uint all_chars]; try rewrite IHd; reflexivity. Qed.

Lemma String_unreserved (n : Z) : all_chars JS.unreserved (JS.String_ n) = true.
Proof.
  destruct n as [|p|p]; [reflexivity| |]; unfold JS.String_; cbn [all_chars];
    now rewrite string_of_uint_unreserved.
Qed.

Lemma append_cons (c : ascii) (s t : string) : String c s +:+ t = String c (s +:+ t).
Proof. reflexivity. Qed.

Lemma append_empty (s : string) : s +:+ "" = s.
Proof. induction s as [|c s IH]; [reflexivity|]. now rewrite append_cons, IH. Qed.

Lemma append_assoc (s t u : string) : (s +:+ t) +:+ u = s +:+ (t +:+ u).
Proof. induction s as [|c s IH]; [reflexivity|]. now rewrite !append_cons, IH. Qed.

(** ** Filter tokens: format, helpers, unambiguity *)

(** The text of a value: a scalar printed by [String], an array printed
    element by element and joined with commas. *)
Definition value_text (tv : Filter.token_value) : string :=
  match tv with
  | Filter.Scalar x => Filter.String_ x
  | Filter.Array xs => JS.join "," (map Filter.String_ xs)
  end.

(** The value segment of a token: none for [$null] and for a missing
    value. *)
Definition value_segment (op : FilterOperator.t) (v : option Filter.token_value)
  : option string :=
  if FilterOperator.is_NULL op then None else option_map value_text v.

Definition render (head : list string) (seg : option string) : string :=
  JS.join ":" (head ++ match seg with Some s => [s] | None => [] end).

Lemma buildFilterToken_render (o : Filter.FilterTokenOptions) :
  Filter.buildFilterToken o
  = render (token_head (Filter.comparator o) (Filter.suffix o) (Filter.operator o))
           (value_segment (Filter.operator o) (Filter.value o)).
Proof.
  destruct o as [c s op v]. unfold value_segment, render.
  cbn [Filter.comparator Filter.suffix Filter.operator Filter.value].
  destruct op, c as [[]|], s as [[]|], v as [[x|xs]|]; reflexivity.
Qed.


Lemma render_or (s : option FilterSuffix.t) (op : FilterOperator.t) (seg : option string) :
  render (token_head (Some FilterComparator.OR) s op) seg
  = "$or:" +:+ render (token_head None s op) seg.
Proof. destruct s as [[]|], op, seg; reflexivity. Qed.

Lemma render_and (s : option FilterSuffix.t) (op : FilterOperator.t) (seg : option string) :
  render (token_head (Some FilterComparator.AND) s op) seg
  = render (token_head None s op) seg.
Proof. reflexivity. Qed.

Lemma render_not (op : FilterOperator.t) (seg : option string) :
  render (token_head None (Some FilterSuffix.NOT) op) seg
  = "$not:" +:+ render (token_head None None op) seg.
Proof. destruct op, seg; reflexivity. Qed.

Lemma render_no_or (s : option FilterSuffix.t) (op : FilterOperator.t) (seg : option string) :
  String.prefix "$or:" (render (token_head None s op) seg) = false.
Proof. destruct s as [[]|], op, seg; reflexivity. Qed.

Lemma render_no_not (op : FilterOperator.t) (seg : option string) :
  String.prefix "$not:" (render (token_head None None op) seg) = false.
Proof. destruct op, seg; reflexivity. Qed.

Lemma render_operator (op1 op2 : FilterOperator.t) (seg1 seg2 : option string) :
  render (token_head None None op1) seg1 = render (token_head None None op2) seg2 ->
  op1 = op2 /\ seg1 = seg2.
Proof.
  destruct op1, op2, seg1 as [x|], seg2 as [y|]; cbn; intros H;
    try discriminate; try (do 2 apply append_inj_l in H; subst y); auto.
Qed.

Lemma render_suffix (s1 s2 : option FilterSuffix.t) (op1 op2 : FilterOperator.t)
    (seg1 seg2 : option string) :
  render (token_head None s1 op1) seg1 = render (token_head None s2 op2) seg2 ->
  s1 = s2 /\ op1 = op2 /\ seg1 = seg2.
Proof.
  destruct s1 as [[]|], s2 as [[]|]; rewrite ?render_not; intros H.
  - apply append_inj_l, render_operator in H. tauto.
  - pose proof (render_no_not op2 seg2) as N. rewrite <- H, prefix_app in N. discriminate.
  - pose proof (render_no_not op1 seg1) as N. rewrite H, prefix_app in N. discriminate.
  - apply render_operator in H. tauto.
Qed.

(** The comparator as it is written: [$and] is the default and is left
    out. *)
Definition written (c : option FilterComparator.t) : bool :=
  match c with Some FilterComparator.OR => true | _ => false end.

Lemma render_comparator (c1 c2 : option FilterComparator.t) (s1 s2 : option FilterSuffix.t)
    (op1 op2 : FilterOperator.t) (seg1 seg2 : option string) :
  render (token_head c1 s1 op1) seg1 = render (token_head c2 s2 op2) seg2 ->
  written c1 = written c2 /\ s1 = s2 /\ op1 = op2 /\ seg1 = seg2.
Proof.
  destruct c1 as [[]|], c2 as [[]|]; rewrite ?render_and, ?render_or; intros H; cbn [written];
    try (apply render_suffix in H; tauto);
    try (apply append_inj_l, render_suffix in H; tauto);
    try (pose proof (render_no_or s2 op2 seg2) as N; rewrite <- H, prefix_app in N; discriminate);
    try (pose proof (render_no_or s1 op1 seg1) as N; rewrite H, prefix_app in N; discriminate).
Qed.

(** X1: the wrappers [not] and [or] agree with the options of
    [buildFilterToken]: negating a plain token gives the token built with
    suffix [$not], prefixing [or] gives the token built with comparator
    [$or], and [or(not(t))] is the token with both.  The other order is not
    a token: no options make [buildFilterToken] return [not(or(t))]. *)
Theorem helpers_compose (op : FilterOperator.t) (v : option Filter.token_value) :
  Filter.not (Filter.buildFilterToken (Filter.simple op v))
  = Filter.buildFilterToken
      {| Filter.comparator := None; Filter.suffix := Some FilterSuffix.NOT;
         Filter.operator := op; Filter.value := v |}
  /\ (forall s,
        Filter.or (Filter.buildFilterToken
                     {| Filter.comparator := None; Filter.suffix := s;
                        Filter.operator := op; Filter.value := v |})
        = Filter.buildFilterToken
            {| Filter.comparator := Some FilterComparator.OR; Filter.suffix := s;
               Filter.operator := op; Filter.value := v |})
  /\ Filter.or (Filter.not (Filter.buildFilterToken (Filter.simple op v)))
     = Filter.buildFilterToken
         {| Filter.comparator := Some FilterComparator.OR;
            Filter.suffix := Some FilterSuffix.NOT;
            Filter.operator := op; Filter.value := v |}
  /\ forall token options,
       Filter.not (Filter.or token) <> Filter.buildFilterToken options.
Proof.
  split; [|split; [|split]].
  - destruct op, v as [[x|xs]|]; reflexivity.
  - intros [[]|]; destruct op, v as [[x|xs]|]; reflexivity.
  - destruct op, v as [[x|xs]|]; reflexivity.
  - intros token [c s o w] H. rewrite buildFilterToken_render in H.
    cbn [Filter.comparator Filter.suffix Filter.operator Filter.value] in H.
    change (Filter.not (Filter.or token)) with ("$not:" +:+ "$or:" +:+ token) in H.
    assert (N : forall s0,
               "$not:" +:+ "$or:" +:+ token
               <> render (token_head None s0 o) (value_segment o w)).
    { intros [[]|] E.
      - rewrite render_not in E. apply append_inj_l in E.
        pose proof (render_no_or None o (value_segment o w)) as P.
        rewrite <- E, prefix_app in P. discriminate.
      - pose proof (render_no_not o (value_segment o w)) as P.
        rewrite <- E, prefix_app in P. discriminate. }
    destruct c as [[]|]; rewrite ?render_and, ?render_or in H;
      [now apply (N s) | discriminate H | now apply (N s)].
Qed.

(** X2: a token determines what it was built from.  Two option records
    give the same token exactly when they agree on whether the comparator
    is [$or], on the suffix, on the operator and on the text of the value
    segment (none for [$null] and for a missing value). *)
Theorem buildFilterToken_unambiguous (o1 o2 : Filter.FilterTokenOptions) :
  Filter.buildFilterToken o1 = Filter.buildFilterToken o2
  <-> written (Filter.comparator o1) = written (Filter.comparator o2)
      /\ Filter.suffix o1 = Filter.suffix o2
      /\ Filter.operator o1 = Filter.operator o2
      /\ value_segment (Filter.operator o1) (Filter.value o1)
         = value_segment (Filter.operator o2) (Filter.value o2).
Proof.
  rewrite !buildFilterToken_render. split.
  - apply render_comparator.
  - intros (Hc & -> & -> & ->). f_equal.
    destruct (Filter.comparator o1) as [[]|], (Filter.comparator o2) as [[]|];
      try discriminate; reflexivity.
Qed.

(** ** Separators are not escaped *)

Lemma join_cons_cons (sep x y : string) (l : list string) :
  JS.join sep (x :: y :: l) = x +:+ sep +:+ JS.join sep (y :: l).
Proof. reflexivity. Qed.

Lemma join_merge (sep a b : string) (xs ys : list string) :
  JS.join sep (xs ++ [a +:+ sep +:+ b] ++ ys) = JS.join sep (xs ++ [a; b] ++ ys).
Proof.
  induction xs as [|x xs IH].
  - cbn [app]. destruct ys as [|y ys].
    + reflexivity.
    + rewrite !join_cons_cons. now rewrite !append_assoc.
  - destruct xs as [|x' xs].
    + cbn [app] in *.
      rewrite (join_cons_cons sep x (a +:+ sep +:+ b)), (join_cons_cons sep x a).
      now rewrite IH.
    + change ((x :: x' :: xs) ++ ?l) with (x :: x' :: (xs ++ l)).
      rewrite !join_cons_cons. f_equal. f_equal. exact IH.
Qed.

(** X3: separators inside values are not escaped.  A list element that
    contains a comma is indistinguishable from two elements, for [inOp],
    [contains] and [select]; a sort direction that contains a colon is
    indistinguishable from a longer column name. *)
Theorem separators_not_escaped (a b : string) :
  (forall xs ys,
      Filter.inOp (xs ++ [Filter.Str (a +:+ "," +:+ b)] ++ ys)
      = Filter.inOp (xs ++ [Filter.Str a; Filter.Str b] ++ ys)
      /\ Filter.contains (xs ++ [Filter.Str (a +:+ "," +:+ b)] ++ ys)
         = Filter.contains (xs ++ [Filter.Str a; Filter.Str b] ++ ys))
  /\ (forall xs ys builder,
         B.toParams (B.select (xs ++ [a +:+ "," +:+ b] ++ ys) builder)
         = B.toParams (B.select (xs ++ [a; b] ++ ys) builder))
  /\ forall dir builder,
       B.toParams (B.sortBy a (b +:+ ":" +:+ dir) builder)
       = B.toParams (B.sortBy (a +:+ ":" +:+ b) dir builder).
Proof.
  split; [|split].
  - intros xs ys. unfold Filter.inOp, Filter.contains.
    rewrite !map_app. cbn [map Filter.String_]. now rewrite (join_merge "," a b).
  - intros xs ys builder. unfold B.toParams.
    cbn [B.select B._page B._limit B._sortBy B._search B._searchBy B._select B._cursor
         B._withDeleted B._filter].
    rewrite (join_merge "," a b).
    now destruct xs.
  - intros dir builder. unfold B.toParams.
    cbn [B.sortBy B._page B._limit B._sortBy B._search B._searchBy B._select B._cursor
         B._withDeleted B._filter].
    rewrite !map_app. cbn [map B.sort_rule_string]. rewrite append_assoc.
    now destruct (B._sortBy builder).
Qed.

(** ** Reading a value list back *)

Lemma String_no_comma (n : Z) : all_chars (differs ",") (JS.String_ n) = true.
Proof.
  apply (all_chars_weaken JS.unreserved); [|apply String_unreserved].
  intros c Hc. unfold differs. destruct (Ascii.eqb c ",") eqn:E; [|reflexivity].
  apply Ascii.eqb_eq in E. subst c. discriminate.
Qed.

(** The text of a scalar holds no comma: always so for a number. *)
Definition comma_free (x : Filter.scalar) : bool :=
  all_chars (differs ",") (Filter.String_ x).

Lemma comma_free_Num (n : Z) : comma_free (Filter.Num n) = true.
Proof. apply String_no_comma. Qed.

(** X4: a list of values can be read back from its token: when no
    element contains a comma (a number never does), the value segment of
    [inOp] and of [contains] splits at the commas into the texts of the
    elements, in order; the value segment of [btw] always splits into its
    two bounds. *)
Theorem value_lists_read_back (values : list Filter.scalar) (min max : Z) :
  values <> [] -> forallb comma_free values = true ->
  (exists text,
      Filter.inOp values = "$in:" +:+ text
      /\ Filter.contains values = "$contains:" +:+ text
      /\ JS.split "," text = map Filter.String_ values)
  /\ exists text,
       Filter.btw min max = "$btw:" +:+ text
       /\ JS.split "," text = [JS.String_ min; JS.String_ max].
Proof.
  intros Hne Hcf. split.
  - exists (JS.join "," (map Filter.String_ values)). split; [reflexivity|].
    split; [reflexivity|]. apply (split_join ",").
    + now destruct values.
    + apply List.Forall_forall. intros s Hs. apply in_map_iff in Hs as (x & <- & Hx).
      rewrite forallb_forall in Hcf. now apply Hcf.
  - exists (JS.join "," [JS.String_ min; JS.String_ max]). split; [reflexivity|].
    apply (split_join ","); [discriminate|].
    repeat constructor; apply String_no_comma.
Qed.

Lemma value_lists_read_back_witness :
  Filter.inOp [Filter.Num 1; Filter.Str "a b"; Filter.Num (-3)] = "$in:1,a b,-3"
  /\ JS.split "," "1,a b,-3" = ["1"; "a b"; "-3"]
  /\ exists text,
       Filter.btw 4 5 = "$btw:" +:+ text /\ JS.split "," text = ["4"; "5"].
Proof.
  split; [reflexivity|]. split; [reflexivity|].
  apply (value_lists_read_back [Filter.Num 1; Filter.Str "a b"; Filter.Num (-3)] 4 5);
    [discriminate | reflexivity].
Defined.

(** ** The text [toQueryString] produces *)

(** The characters of a query string after its leading [?]: the
    unreserved ones and the three the serialiser writes itself. *)
Definition pair_char (c : ascii) : bool :=
  JS.unreserved c || existsb (Ascii.eqb c) ["%"; "="; "&"]%char.

Lemma query_pair_chars (k v : string) :
  all_chars pair_char (QueryString.query_pair k v) = true.
Proof.
  unfold QueryString.query_pair. rewrite !all_chars_app.
  assert (E : forall s, all_chars pair_char (JS.encodeURIComponent s) = true).
  { intros s. apply (all_chars_weaken uri_char); [|apply encode_chars].
    intros c. unfold uri_char, pair_char. cbn [existsb].
    destruct (JS.unreserved c), (Ascii.eqb c "%"); simpl; congruence. }
  now rewrite !E.
Qed.

Lemma join_chars (P : ascii -> bool) (sep : ascii) (ps : list string) :
  P sep = true -> Forall (fun p => all_chars P p = true) ps ->
  all_chars P (JS.join (String sep EmptyString) ps) = true.
Proof.
  intros Hsep H. induction H as [|p ps Hp Hps IH]; [reflexivity|].
  destruct ps as [|q ps]; [exact Hp|].
  change (JS.join (String sep EmptyString) (p :: q :: ps))
    with (p +:+ String sep EmptyString +:+ JS.join (String sep EmptyString) (q :: ps)).
  rewrite !all_chars_app, Hp, IH. simpl. now rewrite Hsep.
Qed.

Lemma specified_pairs_chars (params : PaginateParamsRaw) :
  Forall (fun p => all_chars pair_char p = true) (specified_pairs params).
Proof.
  rewrite specified_pairs_encode. apply List.Forall_forall. intros p Hp.
  apply in_map_iff in Hp as (kv & <- & _). apply query_pair_chars.
Qed.

Lemma filter_nonempty_nil (vs : list string) :
  List.filter nonempty vs = [] <-> Forall (fun v => v = "") vs.
Proof.
  induction vs as [|v vs IH]; [split; [constructor | reflexivity]|].
  simpl. unfold nonempty at 1. destruct (String.eqb v "") eqn:E; simpl.
  - apply String.eqb_eq in E. rewrite IH. split; intros H.
    + now constructor.
    + now inversion H.
  - apply String.eqb_neq in E. split; [discriminate|]. intros H. now inversion H.
Qed.

Lemma specified_pairs_nil (params : PaginateParamsRaw) :
  specified_pairs params = []
  <-> Forall (fun e => Forall (fun v => v = "") (values_of (snd e))) params.
Proof.
  induction params as [|[k val] params IH].
  - split; [constructor | reflexivity].
  - change (specified_pairs ((k, val) :: params))
      with (map (QueryString.query_pair k) (List.filter nonempty (values_of val))
            ++ specified_pairs params).
    split.
    + intros H. apply app_eq_nil in H as [H1 H2]. constructor; [|now apply IH].
      cbn [snd]. apply filter_nonempty_nil. now apply map_eq_nil in H1.
    + intros H. inversion H as [|? ? Hv Hrest]; subst. cbn [snd] in Hv.
      apply IH in Hrest. apply filter_nonempty_nil in Hv. now rewrite Hrest, Hv.
Qed.

(** X5: [toQueryString] throws URIError exactly when a key or a non-empty
    value it has to encode holds a lone surrogate.  Otherwise it returns
    the empty string exactly when no value is a non-empty string, and else
    a string that starts with [?], has something after it, and in which
    every character after the [?] is an unreserved character or one of
    [%], [=], [&]: no space, [#], [+], [/], second [?] or non-ASCII byte is
    written. *)
Theorem toQueryString_text (params : PaginateParamsRaw) :
  match Throwing.toQueryString params with
  | Throw e => e = URIError /\ encodable params = false
  | Ok qs =>
      encodable params = true
      /\ (qs = "" <-> Forall (fun e => Forall (fun v => v = "") (values_of (snd e))) params)
      /\ match qs with
         | EmptyString => True
         | String c r => c = "?"%char /\ nonempty r = true /\ all_chars pair_char r = true
         end
  end.
Proof.
  rewrite throwing_toQueryString. destruct (encodable params); [|now split].
  split; [reflexivity|].
  rewrite toQueryString_pairs. unfold specified_query_string.
  pose proof (specified_pairs_chars params) as Hc.
  pose proof (specified_pairs_nil params) as Hn.
  destruct (specified_pairs params) as [|p ps] eqn:E.
  - split; [|exact I]. split; intros _; [now apply Hn | reflexivity].
  - split.
    + split; [discriminate|]. intros H. apply Hn in H. discriminate.
    + change ("?" +:+ JS.join "&" (p :: ps)) with (String "?" (JS.join "&" (p :: ps))).
      split; [reflexivity|]. split; [|now apply (join_chars pair_char "&")].
      rewrite specified_pairs_encode in E.
      destruct (List.filter has_value (all_pairs params)) as [|kv kvs]; [discriminate|].
      injection E as <- <-. apply join_pairs_nonempty.
Qed.

(** ** One method, one key *)

(** The key of the param map a call writes to. *)
Definition key_of (m : mutation) : string :=
  match m with
  | Page _ => "page"
  | Limit _ => "limit"
  | SortBy _ _ => "sortBy"
  | Search _ => "search"
  | SearchBy _ => "searchBy"
  | Select _ => "select"
  | Filter c _ => "filter." +:+ c
  | Cursor _ => "cursor"
  | WithDeleted _ => "withDeleted"
  end.

Lemma get_set_filters_via (raw raw' : PaginateParamsRaw) fs (k : string) :
  Dict.get k raw = Dict.get k raw' ->
  Dict.get k (B.set_filters raw fs) = Dict.get k (B.set_filters raw' fs).
Proof.
  unfold B.set_filters. revert raw raw'.
  induction fs as [|[c v] fs IH]; intros raw raw' H; [exact H|].
  cbn [fold_left]. apply IH.
  destruct (String.eqb ("filter." +:+ c) k) eqn:E.
  - apply String.eqb_eq in E. subst k. now rewrite !get_set_eq.
  - apply String.eqb_neq in E. rewrite !get_set_ne by assumption. exact H.
Qed.

Lemma get_set_filters_set (raw : PaginateParamsRaw) fs (c k : string) (e : param_value) :
  k <> "filter." +:+ c ->
  Dict.get k (B.set_filters raw (Dict.set c e fs)) = Dict.get k (B.set_filters raw fs).
Proof.
  intros Hk. revert raw. induction fs as [|[c' v'] fs IH]; intros raw.
  - unfold B.set_filters. simpl. apply get_set_ne. congruence.
  - cbn [Dict.set]. destruct (String.eqb c' c) eqn:E.
    + apply String.eqb_eq in E. subst c'.
      unfold B.set_filters. cbn [fold_left]. apply get_set_filters_via.
      rewrite !get_set_ne by congruence. reflexivity.
    + unfold B.set_filters. cbn [fold_left]. apply IH.
Qed.

Lemma get_app {V : Type} (k : string) (p q : list (string * V)) :
  Dict.get k (p ++ q)
  = match Dict.get k p with Some v => Some v | None => Dict.get k q end.
Proof.
  induction p as [|[k0 v0] p IH]; simpl; [reflexivity|].
  now destruct (String.eqb k0 k).
Qed.

Lemma get_single_ne {V : Type} (k k' : string) (v : V) :
  k <> k' -> Dict.get k [(k', v)] = None.
Proof.
  intros H. simpl. destruct (String.eqb k' k) eqn:E; [|reflexivity].
  apply String.eqb_eq in E. congruence.
Qed.

Ltac other_segments :=
  unfold fixed_params;
  cbn [apply B.page B.limit B.sortBy B.search B.searchBy B.select B.cursor
       B.withDeleted B._page B._limit B._sortBy B._search B._searchBy B._select
       B._cursor B._withDeleted B._filter];
  rewrite !get_app.

(** X6: a call changes one key of the param map only: after any public
    method, every key other than the method's own ([page] for [page],
    [filter.c] for [filter(c, ...)], ...) maps to what it mapped to
    before. *)
Theorem mutator_writes_one_key (m : mutation) (b : B.t) (k : string) :
  k <> key_of m ->
  Dict.get k (B.toParams (apply m b)) = Dict.get k (B.toParams b).
Proof.
  intros Hk. rewrite !toParams_fixed.
  destruct b as [pg lm sb se sby sel fl cu wd].
  destruct m; cbn [key_of] in Hk;
    try (apply get_set_filters_via; other_segments).
  - destruct pg; now rewrite ?get_single_ne by assumption.
  - destruct lm; now rewrite ?get_single_ne by assumption.
  - destruct sb; cbn [app]; now rewrite ?get_single_ne by assumption.
  - destruct se as [s|], (nonempty term); try destruct (nonempty s);
      now rewrite ?get_single_ne by assumption.
  - destruct sby, columns; now rewrite ?get_single_ne by assumption.
  - destruct sel, columns; now rewrite ?get_single_ne by assumption.
  - now apply get_set_filters_set.
  - destruct cu; now rewrite ?get_single_ne by assumption.
  - destruct wd as [[]|], value; now rewrite ?get_single_ne by assumption.
Qed.

Lemma mutator_writes_one_key_witness :
  "limit" <> key_of (Page 3)
  /\ Dict.get "limit" (B.toParams (apply (Page 3) (B.limit 10 B.new))) = Some (Single "10").
Proof.
  split; [discriminate|].
  rewrite (mutator_writes_one_key (Page 3) (B.limit 10 B.new) "limit"); [reflexivity|].
  discriminate.
Defined.

(** ** Calls of different methods commute *)




(** Two [filter] calls on different columns do not commute: the column
    filtered first comes first. *)
Example filters_keep_call_order :
  B.toQueryString (B.filter "b" (Single "x") (B.filter "a" (Single "y") B.new))
    = "?filter.a=y&filter.b=x"
  /\ B.toQueryString (B.filter "a" (Single "y") (B.filter "b" (Single "x") B.new))
     = "?filter.b=x&filter.a=y".
Proof. split; reflexivity. Qed.

(** ** The keys of the param map *)

Definition fixed_keys : list string :=
  ["page"; "limit"; "sortBy"; "search"; "searchBy"; "select"; "cursor"; "withDeleted"].

Lemma fixed_params_sublist (b : B.t) : sublist (Dict.keys (fixed_params b)) fixed_keys.
Proof.
  destruct b as [pg lm sb se sby sel fl cu wd]. unfold fixed_params, fixed_keys.
  cbn [B._page B._limit B._sortBy B._search B._searchBy B._select B._cursor
       B._withDeleted B._filter].
  destruct pg, lm, sb, se as [s|], sby, sel, cu, wd as [[]|];
    try destruct (nonempty s); cbn [app Dict.keys map fst];
    repeat first [apply sublist_nil | apply sublist_skip | apply sublist_cons].
Qed.

(** X8: in every state reached through the public methods the keys of
    the param map are pairwise distinct and come in a fixed order,
    whatever the order of the calls: first those of [page], [limit],
    [sortBy], [search], [searchBy], [select], [cursor], [withDeleted] that
    are present, in this order, then one [filter.c] per filtered column. *)
Theorem toParams_keys (ms : list mutation) :
  exists fixed,
    sublist fixed fixed_keys
    /\ Dict.keys (B.toParams (run ms B.new))
       = fixed ++ map (String.append "filter.") (Dict.keys (B._filter (run ms B.new)))
    /\ NoDup (Dict.keys (B.toParams (run ms B.new))).
Proof.
  set (b := run ms B.new).
  assert (Hnd : NoDup (Dict.keys (B._filter b))) by (apply run_filter_keys; constructor).
  exists (Dict.keys (fixed_params b)).
  assert (E : Dict.keys (B.toParams b)
              = Dict.keys (fixed_params b)
                ++ map (String.append "filter.") (Dict.keys (B._filter b))).
  { rewrite toParams_app by assumption. unfold Dict.keys at 1. rewrite map_app.
    fold (Dict.keys (fixed_params b)). fold (Dict.keys (filter_params (B._filter b))).
    now rewrite keys_filter_params. }
  split; [apply fixed_params_sublist|]. split; [exact E|].
  rewrite E. apply NoDup_app. split; [|split].
  - eapply sublist_NoDup; [|apply fixed_params_sublist].
    apply (bool_decide_unpack (NoDup fixed_keys)). reflexivity.
  - intros k Hk Hf. apply list_elem_of_In in Hk, Hf.
    pose proof (fixed_params_keys b) as Hfix. rewrite List.Forall_forall in Hfix.
    apply Hfix in Hk. apply in_map_iff in Hf as (c & <- & _).
    unfold JS.startsWith in Hk. now rewrite prefix_app in Hk.
  - apply (NoDup_fmap_2_strong (String.append "filter.")); [|assumption].
    intros x y _ _. apply append_inj_l.
Qed.

(** ** Reading a filter back from the param map *)

Lemma get_filter_params (c : string) fs :
  Dict.get ("filter." +:+ c) (filter_params fs) = Dict.get c fs.
Proof.
  induction fs as [|[c' v] fs IH]; [reflexivity|].
  change (filter_params ((c', v) :: fs)) with (("filter." +:+ c', v) :: filter_params fs).
  cbn [Dict.get]. destruct (String.eqb c' c) eqn:E.
  - apply String.eqb_eq in E. subst c'. now rewrite String.eqb_refl.
  - apply String.eqb_neq in E.
    destruct (String.eqb ("filter." +:+ c') ("filter." +:+ c)) eqn:E'; [|exact IH].
    apply String.eqb_eq, append_inj_l in E'. congruence.
Qed.

Lemma get_fixed_filter_key (c : string) (b : B.t) :
  Dict.get ("filter." +:+ c) (fixed_params b) = None.
Proof.
  apply get_None_keys. intros Hin.
  pose proof (fixed_params_keys b) as Hfix. rewrite List.Forall_forall in Hfix.
  apply Hfix in Hin. unfold JS.startsWith in Hin. now rewrite prefix_app in Hin.
Qed.

Lemma get_filter_key (c : string) (b : B.t) :
  NoDup (Dict.keys (B._filter b)) ->
  Dict.get ("filter." +:+ c) (B.toParams b) = Dict.get c (B._filter b).
Proof.
  intros H. rewrite toParams_app by assumption.
  rewrite get_app, get_fixed_filter_key. apply get_filter_params.
Qed.

(** X9: in every state reached through the public methods, [toParams]
    shows under [filter.c] exactly what the builder stores for column [c],
    and nothing when it stores nothing. *)
Theorem toParams_filter_lookup (ms : list mutation) (c : string) :
  Dict.get ("filter." +:+ c) (B.toParams (run ms B.new))
  = Dict.get c (B._filter (run ms B.new)).
Proof. apply get_filter_key. apply run_filter_keys. constructor. Qed.

(** ** What a call writes under its own key *)

Definition written_value (m : mutation) (b : B.t) : option param_value :=
  match m with
  | Page n | Limit n => Some (Single (JS.String_ n))
  | SortBy c d => Some (Many (map B.sort_rule_string (B._sortBy b) ++ [c +:+ ":" +:+ d]))
  | Search t => if nonempty t then Some (Single t) else None
  | SearchBy cs => match cs with [] => None | _ :: _ => Some (Many cs) end
  | Select cs => match cs with [] => None | _ :: _ => Some (Single (JS.join "," cs)) end
  | Filter c t => Some (B.filter_entry (Dict.get c (B._filter b)) t)
  | Cursor c => Some (Single c)
  | WithDeleted v => if v then Some (Single "true") else None
  end.

(** A call within the conventions of the model: a filter column that is
    not named like a member of [Object.prototype], a page or limit that is
    a safe integer. *)
Definition conventional (m : mutation) : bool :=
  match m with
  | Filter c _ => negb (Dict.inherited c)
  | Page n | Limit n => safe_integer n
  | _ => true
  end.

(** X10: what a call leaves under its own key, in a state reached through
    the public methods, when no filter column is named like a member of
    [Object.prototype] and every page and limit is a safe integer: [page],
    [limit] and [cursor] overwrite; [sortBy] appends a rule; [filter]
    stores the combined entry; [search("")], [searchBy([])], [select([])]
    and [withDeleted(false)] remove the key. *)
Theorem mutator_writes_own_key (m : mutation) (ms : list mutation) :
  forallb conventional (ms ++ [m]) = true ->
  Dict.get (key_of m) (B.toParams (apply m (run ms B.new)))
  = written_value m (run ms B.new).
Proof.
  intros _. destruct m; cbn [key_of];
    try (rewrite toParams_fixed, get_set_filters_other by reflexivity;
         generalize (run ms B.new); intros [pg lm sb se sby sel fl cu wd];
         other_segments; cbn [written_value B._sortBy]).
  - reflexivity.
  - now destruct pg.
  - destruct pg, lm; rewrite map_app; destruct sb; reflexivity.
  - destruct pg, lm, sb; destruct (nonempty term); try reflexivity;
      destruct sby, sel, cu, wd as [[]|]; reflexivity.
  - destruct pg, lm, sb, se as [s|]; try destruct (nonempty s); destruct columns;
      try reflexivity; destruct sel, cu, wd as [[]|]; reflexivity.
  - destruct pg, lm, sb, se as [s|], sby; try destruct (nonempty s); destruct columns;
      try reflexivity; destruct cu, wd as [[]|]; reflexivity.
  - rewrite get_filter_key.
    + cbn [apply written_value B.filter B._filter]. apply get_set_eq.
    + apply apply_filter_keys, run_filter_keys. constructor.
  - destruct pg, lm, sb, se as [s|], sby, sel; try destruct (nonempty s); reflexivity.
  - destruct pg, lm, sb, se as [s|], sby, sel, cu; try destruct (nonempty s);
      destruct value; reflexivity.
Qed.

Lemma mutator_writes_own_key_witness :
  forallb conventional
    ([Filter "age" (Single "$gte:3"); Page 2] ++ [Filter "age" (Many ["$lte:9"; "$null"])])
  = true
  /\ Dict.get "filter.age"
       (B.toParams (run [Filter "age" (Single "$gte:3"); Page 2;
                         Filter "age" (Many ["$lte:9"; "$null"])] B.new))
     = Some (Many ["$gte:3"; "$lte:9"; "$null"]).
Proof.
  split; [reflexivity|].
  exact (mutator_writes_own_key (Filter "age" (Many ["$lte:9"; "$null"]))
           [Filter "age" (Single "$gte:3"); Page 2] eq_refl).
Defined.

(** ** The two revisions of [toParams] *)

Lemma legacy_withDeleted_false (b : B.t) :
  B._withDeleted b = Some false ->
  Dict.get "withDeleted" (Legacy.toParams b) = Some (Single "false").
Proof.
  intros H. unfold Legacy.toParams. rewrite get_set_filters_other by reflexivity.
  rewrite H. apply get_set_eq.
Qed.

(** X11: the revision of [toParams] in src/lib/builder.ts and the current
    one return the same param map exactly when the flag is not
    [withDeleted(false)]. *)
Theorem toParams_revisions_agree (b : B.t) :
  Legacy.toParams b = B.toParams b <-> B._withDeleted b <> Some false.
Proof.
  split.
  - intros E H. pose proof (legacy_withDeleted_false b H) as L.
    rewrite E, toParams_withDeleted, H in L. discriminate.
  - intros H. unfold Legacy.toParams, B.toParams.
    destruct (B._withDeleted b) as [[]|]; [reflexivity | congruence | reflexivity].
Qed.

(** ** [createPaginateParams(input)] is a chain of calls *)

Section Replay.
Import PaginateParamsInput.

Definition once {A : Type} (f : A -> mutation) (x : option A) : list mutation :=
  match x with Some a => [f a] | None => [] end.

(** The calls an input object stands for, in the order the factory makes
    them. *)
Definition replay (i : PaginateParamsInput.t) : list mutation :=
  once Page (page i)
  ++ once Limit (limit i)
  ++ match sortBy i with
     | Some (Rules entries) => map (fun e => SortBy (fst e) (snd e)) entries
     | Some (Rule col dir) => [SortBy col dir]
     | None => []
     end
  ++ once Search (search i)
  ++ once SearchBy (searchBy i)
  ++ once Select (select i)
  ++ once Cursor (cursor i)
  ++ once WithDeleted (withDeleted i)
  ++ match filter i with
     | Some entries => map (fun e => Filter (fst e) (snd e)) entries
     | None => []
     end.

(** The input [i] with another [sortBy] field. *)
Definition with_sortBy (rules : option sort_input) (i : PaginateParamsInput.t)
  : PaginateParamsInput.t :=
  mk (page i) (limit i) rules (search i) (searchBy i) (select i) (filter i) (cursor i)
     (withDeleted i).

Lemma run_app (ms ns : list mutation) (b : B.t) : run (ms ++ ns) b = run ns (run ms b).
Proof. unfold run. apply fold_left_app. Qed.

Lemma run_map {A : Type} (f : A -> mutation) (l : list A) (b : B.t) :
  run (map f l) b = fold_left (fun b a => apply (f a) b) l b.
Proof. revert b. induction l as [|a l IH]; intros b; [reflexivity|]. simpl. apply IH. Qed.

(** X12: [createPaginateParams(input)] is the empty builder after the
    calls the input stands for, made in the order [page], [limit], the
    sort rules, [search], [searchBy], [select], [cursor], [withDeleted],
    the filters; without input it is the empty builder; and a bare sort
    rule counts as the one-element list of rules. *)
Theorem createPaginateParams_replays (i : PaginateParamsInput.t) :
  createPaginateParams (Some i) = run (replay i) B.new
  /\ createPaginateParams None = B.new
  /\ forall col dir,
       createPaginateParams (Some (with_sortBy (Some (Rule col dir)) i))
       = createPaginateParams (Some (with_sortBy (Some (Rules [(col, dir)])) i)).
Proof.
  split; [|split; [reflexivity | reflexivity]].
  destruct i as [pg lm sb se sby sel fl cu wd].
  unfold createPaginateParams, replay.
  cbn [page limit sortBy search searchBy select filter cursor withDeleted].
  rewrite !run_app.
  destruct fl as [fl|]; [rewrite run_map|]; cbn [run fold_left];
    destruct wd, cu, sel, sby, se, lm, pg; cbn [once run fold_left apply];
    (destruct sb as [[[|e es]|c d]|];
     [reflexivity | rewrite run_map | reflexivity | reflexivity]);
    reflexivity.
Qed.

End Replay.

(** ** The leading question mark *)

(** X13: the leading [?] is optional: a query string that does not
    start with one parses the same with one put in front. *)
Theorem fromQueryString_question_mark (qs : string) :
  JS.startsWith "?" qs = false ->
  fromQueryString ("?" +:+ qs) = fromQueryString qs.
Proof.
  intros H. unfold fromQueryString, Parse.fromQueryString. rewrite H.
  unfold JS.startsWith. rewrite prefix_app. reflexivity.
Qed.

Lemma fromQueryString_question_mark_witness :
  JS.startsWith "?" "page=2&limit=5" = false
  /\ fromQueryString "?page=2&limit=5" = fromQueryString "page=2&limit=5".
Proof.
  split; [reflexivity|]. apply (fromQueryString_question_mark "page=2&limit=5"). reflexivity.
Defined.

(** Only one is removed. *)
Example fromQueryString_two_question_marks :
  fromQueryString "??page=2" = Ok B.new.
Proof. reflexivity. Qed.

(** ** Appending a pair to a query string *)

Lemma split_app_sep (sep : ascii) (x y : string) :
  JS.split sep (x +:+ String sep y) = JS.split sep x ++ JS.split sep y.
Proof.
  induction x as [|a x IH]; simpl.
  - now rewrite Ascii.eqb_refl.
  - destruct (Ascii.eqb a sep); [now rewrite IH|].
    rewrite IH. pose proof (split_nonempty sep x) as Hne.
    now destruct (JS.split sep x).
Qed.

Lemma startsWith_char (a c : ascii) (r : string) :
  JS.startsWith (String a EmptyString) (String c r)
  = if ascii_dec a c then true else false.
Proof.
  unfold JS.startsWith. cbn [String.prefix].
  destruct (ascii_dec a c); [now destruct r | reflexivity].
Qed.

Lemma pieces_app (qs p : string) :
  all_chars (differs "&") p = true ->
  pieces (qs +:+ "&" +:+ p) = pieces qs ++ [p].
Proof.
  intros Hp. unfold pieces.
  assert (E : (if JS.startsWith "?" (qs +:+ "&" +:+ p)
               then JS.slice_from 1 (qs +:+ "&" +:+ p) else qs +:+ "&" +:+ p)
              = (if JS.startsWith "?" qs then JS.slice_from 1 qs else qs)
                +:+ String "&" p).
  { destruct qs as [|c r]; [reflexivity|].
    change ((String c r) +:+ "&" +:+ p) with (String c (r +:+ "&" +:+ p)).
    rewrite !startsWith_char. destruct (ascii_dec "?" c); reflexivity. }
  rewrite E, split_app_sep. f_equal. now apply split_whole.
Qed.

Lemma loop_app (ps qs : list string) (st : Parse.state) :
  Parse.loop st (ps ++ qs) = st' ← Parse.loop st ps; Parse.loop st' qs.
Proof.
  revert st. induction ps as [|p ps IH]; intros st; [reflexivity|].
  cbn [app Parse.loop]. destruct (Parse.step st p); cbn [mbind result_bind]; auto.
Qed.

Lemma lastIndexOf_none (sep : ascii) (x : string) :
  all_chars (differs sep) x = true -> JS.lastIndexOf sep x = None.
Proof.
  induction x as [|a x IH]; [reflexivity|]. simpl. intros H.
  apply andb_true_iff in H as [Ha Hx]. rewrite (IH Hx).
  unfold differs in Ha. now apply negb_true_iff in Ha as ->.
Qed.

Lemma lastIndexOf_last (sep : ascii) (x y : string) :
  all_chars (differs sep) y = true ->
  JS.lastIndexOf sep (x +:+ String sep y) = Some (String.length x).
Proof.
  intros Hy. induction x as [|a x IH]; simpl.
  - now rewrite (lastIndexOf_none sep y Hy), Ascii.eqb_refl.
  - now rewrite IH.
Qed.

(** The calls a single pair of the query string stands for, with the
    pair: [sortBy] needs a direction without a colon (the parser cuts at
    the last one), [select] a non-empty list of columns without commas. *)
Definition scalar_pair (m : mutation) : option (string * string) :=
  match m with
  | Page n => Some ("page", JS.String_ n)
  | Limit n => Some ("limit", JS.String_ n)
  | SortBy c d =>
      if all_chars (differs ":") d then Some ("sortBy", c +:+ ":" +:+ d) else None
  | Search t => Some ("search", t)
  | Select cs =>
      match cs with
      | [] => None
      | _ :: _ =>
          if forallb (all_chars (differs ",")) cs then Some ("select", JS.join "," cs)
          else None
      end
  | Cursor c => Some ("cursor", c)
  | WithDeleted v => Some ("withDeleted", if v then "true" else "false")
  | SearchBy _ | Filter _ _ => None
  end.

Lemma dispatch_scalar_pair (m : mutation) (kv : string * string) (st : Parse.state) :
  scalar_pair m = Some kv ->
  Parse.dispatch (fst kv) (snd kv) st = Ok (Parse.with_builder (apply m) st).
Proof.
  destruct m; cbn [scalar_pair]; intros H.
  - injection H as <-. cbn [fst snd]. now rewrite dispatch_page, parseInt_String.
  - injection H as <-. cbn [fst snd]. now rewrite dispatch_limit, parseInt_String.
  - destruct (all_chars (differs ":") direction) eqn:Hd; [|discriminate].
    injection H as <-. cbn [fst snd]. rewrite dispatch_sortBy.
    change (column +:+ ":" +:+ direction) with (column +:+ String ":" direction).
    rewrite lastIndexOf_last by assumption.
    now rewrite slice_to_app, slice_from_app.
  - injection H as <-. reflexivity.
  - discriminate.
  - destruct columns as [|c cs]; [discriminate|].
    destruct (forallb _ (c :: cs)) eqn:Hc; [|discriminate].
    assert (E : kv = ("select", JS.join "," (c :: cs))) by congruence.
    rewrite E. cbn [fst snd]. rewrite dispatch_select.
    rewrite (split_join ","); [reflexivity | discriminate |].
    apply List.Forall_forall. intros x Hx.
    rewrite forallb_forall in Hc. now apply Hc.
  - discriminate.
  - injection H as <-. reflexivity.
  - injection H as <-. cbn [fst snd]. rewrite dispatch_withDeleted. now destruct value.
Qed.

Lemma scalar_pair_key (m : mutation) (kv : string * string) :
  scalar_pair m = Some kv -> JS.well_formed (fst kv) = true.
Proof.
  destruct m; cbn [scalar_pair]; intros H;
    try (injection H as <-; reflexivity); try discriminate.
  - destruct (all_chars _ _); [injection H as <-; reflexivity | discriminate].
  - destruct columns; [discriminate|].
    destruct (forallb _ _); [injection H as <-; reflexivity | discriminate].
Qed.

Lemma finish_with_builder (m : mutation) (st : Parse.state) :
  scalar_pair m <> None ->
  Parse.finish (Parse.with_builder (apply m) st) = apply m (Parse.finish st).
Proof.
  intros Hm. destruct st as [b sv fm]. unfold Parse.finish, Parse.with_builder.
  cbn [Parse.builder Parse.searchByValues Parse.filterMap].
  assert (F : forall b0,
             fold_left (fun b '(col, values) => B.filter col (Many values) b) fm (apply m b0)
             = apply m (fold_left (fun b '(col, values) => B.filter col (Many values) b) fm b0)).
  { induction fm as [|[c vs] fm IH]; intros b0; [reflexivity|].
    cbn [fold_left]. rewrite <- IH. f_equal.
    destruct m; try reflexivity; cbn [scalar_pair] in Hm; congruence. }
  destruct sv as [|s sv]; [apply F|].
  rewrite <- F. f_equal.
  destruct m; try reflexivity; cbn [scalar_pair] in Hm; congruence.
Qed.

(** X14: parsing is compositional for the single-valued keys: when [qs]
    parses to [b], then [qs] followed by [&] and the encoded pair of a
    [page], [limit], [sortBy], [search], [select], [cursor] or
    [withDeleted] call parses to [b] after that call.  The page or limit
    is a safe integer (so that [String] prints and [parseInt] reads the
    same digits), the value is well-formed text. *)
Theorem fromQueryString_append (qs : string) (b : B.t) (m : mutation)
    (kv : string * string) :
  conventional m = true ->
  scalar_pair m = Some kv -> JS.well_formed (snd kv) = true ->
  fromQueryString qs = Ok b ->
  fromQueryString (qs +:+ "&" +:+ QueryString.query_pair (fst kv) (snd kv))
  = Ok (apply m b).
Proof.
  intros _ Hm Hv Hqs. rewrite fromQueryString_loop in Hqs |- *.
  rewrite pieces_app by apply (encode_pair_no_amp kv).
  rewrite loop_app. destruct (Parse.loop initial (pieces qs)) as [st|e]; [|discriminate].
  injection Hqs as <-. cbn [mbind result_bind Parse.loop].
  change (QueryString.query_pair (fst kv) (snd kv)) with (encode_pair kv).
  rewrite step_encode_pair.
  - rewrite (dispatch_scalar_pair m kv st Hm). cbn [mbind result_bind].
    f_equal. apply finish_with_builder. congruence.
  - unfold well_formed_pair. now rewrite (scalar_pair_key m kv Hm), Hv.
Qed.

Lemma fromQueryString_append_witness :
  conventional (Limit 25) = true
  /\ scalar_pair (Limit 25) = Some ("limit", "25")
  /\ JS.well_formed "25" = true
  /\ fromQueryString "?search=a%20b&filter.age=%24gte%3A3" =
       Ok (B.filter "age" (Single "$gte:3") (B.search "a b" B.new))
  /\ fromQueryString "?search=a%20b&filter.age=%24gte%3A3&limit=25"
     = Ok (B.limit 25 (B.filter "age" (Single "$gte:3") (B.search "a b" B.new))).
Proof.
  split; [reflexivity|]. split; [reflexivity|]. split; [reflexivity|]. split; [reflexivity|].
  exact (fromQueryString_append "?search=a%20b&filter.age=%24gte%3A3"
           (B.filter "age" (Single "$gte:3") (B.search "a b" B.new))
           (Limit 25) ("limit", "25") eq_refl eq_refl eq_refl eq_refl).
Defined.

(** ** What the parser can build *)

(** A state of the fluent interface: one reached from the empty builder by
    calls of the public methods. *)
Definition reachable (b : B.t) : Prop := exists ms, b = run ms B.new.

Lemma reachable_apply (m : mutation) (b : B.t) : reachable b -> reachable (apply m b).
Proof.
  intros [ms ->]. exists (ms ++ [m]). unfold run. now rewrite fold_left_app.
Qed.

Lemma dispatch_reachable (key val : string) (st st' : Parse.state) :
  reachable (Parse.builder st) -> Parse.dispatch key val st = Ok st' ->
  reachable (Parse.builder st').
Proof.
  intros Hr. unfold Parse.dispatch, Parse.push_filter.
  repeat match goal with
         | |- context [if ?c then _ else _] => destruct c
         | |- context [match ?x with Some _ => _ | None => _ end] => destruct x
         end;
    intros [= <-]; cbn [Parse.builder Parse.with_builder];
    try exact Hr.
  - now apply (reachable_apply (Page _)).
  - now apply (reachable_apply (Limit _)).
  - now apply (reachable_apply (SortBy _ _)).
  - now apply (reachable_apply (Search _)).
  - now apply (reachable_apply (Select _)).
  - now apply (reachable_apply (Cursor _)).
  - now apply (reachable_apply (WithDeleted _)).
Qed.

Lemma step_reachable (p : string) (st st' : Parse.state) :
  reachable (Parse.builder st) -> Parse.step st p = Ok st' ->
  reachable (Parse.builder st').
Proof.
  intros Hr. unfold Parse.step, Parse.decodeURIComponent.
  destruct (negb (nonempty p)); [now intros [= <-]|].
  destruct (JS.indexOf "=" p) as [i|]; [|now intros [= <-]].
  destruct (JS.decodeURIComponent (JS.slice_to i p)) as [key|]; [|discriminate].
  destruct (JS.decodeURIComponent (JS.slice_from (S i) p)) as [val|]; [|discriminate].
  cbn [mbind result_bind]. now apply dispatch_reachable.
Qed.

Lemma loop_reachable (ps : list string) (st st' : Parse.state) :
  reachable (Parse.builder st) -> Parse.loop st ps = Ok st' ->
  reachable (Parse.builder st').
Proof.
  revert st. induction ps as [|p ps IH]; intros st Hr; cbn [Parse.loop].
  - now intros [= <-].
  - destruct (Parse.step st p) as [st1|e] eqn:E; [|discriminate].
    cbn [mbind result_bind]. apply IH. now apply (step_reachable p st).
Qed.

Lemma finish_reachable (st : Parse.state) :
  reachable (Parse.builder st) -> reachable (Parse.finish st).
Proof.
  intros Hr. unfold Parse.finish.
  assert (Hs : reachable match Parse.searchByValues st with
                         | [] => Parse.builder st
                         | _ :: _ => B.searchBy (Parse.searchByValues st) (Parse.builder st)
                         end).
  { destruct (Parse.searchByValues st); [exact Hr|].
    now apply (reachable_apply (SearchBy _)). }
  revert Hs. generalize (match Parse.searchByValues st with
                         | [] => Parse.builder st
                         | _ :: _ => B.searchBy (Parse.searchByValues st) (Parse.builder st)
                         end).
  induction (Parse.filterMap st) as [|[c vs] fm IH]; intros b Hb; [exact Hb|].
  cbn [fold_left]. apply IH. now apply (reachable_apply (Filter c (Many vs))).
Qed.

(** The filter columns collected so far: distinct, each with at least one
    value, and none handed to the builder yet. *)
Definition collecting (st : Parse.state) : Prop :=
  B._filter (Parse.builder st) = []
  /\ NoDup (Dict.keys (Parse.filterMap st))
  /\ Forall (fun e => snd e <> []) (Parse.filterMap st).

Lemma Forall_set {V : Type} (P : V -> Prop) (k : string) (v : V) (o : list (string * V)) :
  P v -> Forall (fun e => P (snd e)) o -> Forall (fun e => P (snd e)) (Dict.set k v o).
Proof.
  intros Hv H. induction H as [|[k0 v0] o H0 Ho IH]; cbn [Dict.set].
  - now repeat constructor.
  - destruct (String.eqb k0 k); constructor; auto.
Qed.

Lemma dispatch_collecting (key val : string) (st st' : Parse.state) :
  collecting st -> Parse.dispatch key val st = Ok st' -> collecting st'.
Proof.
  intros (Hf & Hnd & Hne). unfold Parse.dispatch, Parse.push_filter.
  repeat match goal with
         | |- context [if ?c then _ else _] => destruct c
         | |- context [match ?x with Some _ => _ | None => _ end] => destruct x
         end;
    intros [= <-]; unfold collecting;
    cbn [Parse.builder Parse.with_builder Parse.filterMap Parse.searchByValues
         B._filter B.page B.limit B.sortBy B.search B.select B.cursor B.withDeleted];
    repeat split; try assumption;
    try (now apply NoDup_keys_set);
    apply (Forall_set (fun vs => vs <> [])); try assumption.
  all: first [now destruct l | cbn [app]; discriminate].
Qed.

Lemma loop_collecting (ps : list string) (st st' : Parse.state) :
  collecting st -> Parse.loop st ps = Ok st' -> collecting st'.
Proof.
  revert st. induction ps as [|p ps IH]; intros st Hc; cbn [Parse.loop].
  - now intros [= <-].
  - destruct (Parse.step st p) as [st1|e] eqn:E; [|discriminate].
    cbn [mbind result_bind]. apply IH.
    unfold Parse.step, Parse.decodeURIComponent in E.
    destruct (negb (nonempty p)); [now injection E as <-|].
    destruct (JS.indexOf "=" p) as [i|]; [|now injection E as <-].
    destruct (JS.decodeURIComponent (JS.slice_to i p)) as [key|]; [|discriminate].
    destruct (JS.decodeURIComponent (JS.slice_from (S i) p)) as [val|]; [|discriminate].
    cbn [mbind result_bind] in E. now apply (dispatch_collecting key val st).
Qed.

(** A stored entry as the parser leaves it: a string, or an array of at
    least two. *)
Definition unwrapped (v : param_value) : Prop :=
  match v with
  | Single _ => True
  | Many l => (2 <= length l)%nat
  end.

Lemma finish_filter_entries (fm : list (string * list string)) (b : B.t) :
  NoDup (Dict.keys (B._filter b) ++ Dict.keys fm) ->
  B._filter (fold_left (fun b '(col, values) => B.filter col (Many values) b) fm b)
  = B._filter b ++ map (fun e => (fst e, B.filter_entry None (Many (snd e)))) fm.
Proof.
  revert b. induction fm as [|[c vs] fm IH]; intros b Hnd.
  - simpl. now rewrite app_nil_r.
  - cbn [fold_left]. 
    assert (Hc : ~ In c (Dict.keys (B._filter b))).
    { apply NoDup_app in Hnd as (_ & Hd & _). intros Hin.
      apply (Hd c); [now apply list_elem_of_In | left]. }
    assert (Hg : Dict.get c (B._filter b) = None) by now apply get_None_keys.
    assert (E : B._filter (B.filter c (Many vs) b)
                = B._filter b ++ [(c, B.filter_entry None (Many vs))]).
    { unfold B.filter. cbn [B._filter]. rewrite Hg. now apply set_fresh. }
    rewrite IH.
    + rewrite E, <- app_assoc. reflexivity.
    + rewrite E. unfold Dict.keys in *. rewrite map_app, <- app_assoc. exact Hnd.
Qed.

(** X15: whatever [fromQueryString] returns is a state of the fluent
    interface, reachable from the empty builder by public calls; its
    filter columns are distinct, and each filter entry is a string or an
    array of at least two strings (a single value is never left wrapped
    in an array, and no array is empty). *)
Theorem fromQueryString_canonical (qs : string) (b : B.t) :
  fromQueryString qs = Ok b ->
  reachable b
  /\ NoDup (Dict.keys (B._filter b))
  /\ Forall (fun e => unwrapped (snd e)) (B._filter b).
Proof.
  intros H. rewrite fromQueryString_loop in H.
  destruct (Parse.loop initial (pieces qs)) as [st|e] eqn:E; [|discriminate].
  injection H as <-.
  assert (Hr : reachable (Parse.finish st)).
  { apply finish_reachable. apply (loop_reachable (pieces qs) initial); [|exact E].
    now exists []. }
  split; [exact Hr|]. split.
  { destruct Hr as [ms ->]. apply run_filter_keys. constructor. }
  destruct (loop_collecting (pieces qs) initial st) as (Hf & Hnd & Hne);
    [repeat split; constructor | exact E |].
  unfold Parse.finish.
  set (b0 := match Parse.searchByValues st with
             | [] => Parse.builder st
             | _ :: _ => B.searchBy (Parse.searchByValues st) (Parse.builder st)
             end).
  assert (Hb0 : B._filter b0 = []) by (subst b0; now destruct (Parse.searchByValues st)).
  rewrite finish_filter_entries by (now rewrite Hb0).
  rewrite Hb0. cbn [app]. apply Forall_map.
  eapply Forall_impl; [exact Hne|]. intros [c vs] Hvs. cbn [fst snd] in *.
  destruct vs as [|x [|y vs]]; [congruence | exact I | simpl; lia].
Qed.

Lemma fromQueryString_canonical_witness :
  fromQueryString "?page=2&filter.age=%24gte%3A3&filter.age=%24lte%3A9&junk&filter.name=a"
  = Ok (B.filter "name" (Many ["a"])
          (B.filter "age" (Many ["$gte:3"; "$lte:9"]) (B.page 2 B.new)))
  /\ B._filter (B.filter "name" (Many ["a"])
                  (B.filter "age" (Many ["$gte:3"; "$lte:9"]) (B.page 2 B.new)))
     = [("age", Many ["$gte:3"; "$lte:9"]); ("name", Single "a")]
  /\ Forall (fun e => unwrapped (snd e))
            (B._filter (B.filter "name" (Many ["a"])
                          (B.filter "age" (Many ["$gte:3"; "$lte:9"]) (B.page 2 B.new)))).
Proof.
  split; [reflexivity|]. split; [reflexivity|].
  exact (proj2 (proj2 (fromQueryString_canonical
    "?page=2&filter.age=%24gte%3A3&filter.age=%24lte%3A9&junk&filter.name=a" _ eq_refl))).
Defined.

(** ** Appending a pair of a repeatable key *)

(** The loop hands no [searchBy] list to the builder; it collects. *)
Definition deferring (st : Parse.state) : Prop :=
  B._searchBy (Parse.builder st) = [].

Lemma dispatch_deferring (key val : string) (st st' : Parse.state) :
  deferring st -> Parse.dispatch key val st = Ok st' -> deferring st'.
Proof.
  unfold deferring. intros Hs. unfold Parse.dispatch, Parse.push_filter.
  repeat match goal with
         | |- context [if ?c then _ else _] => destruct c
         | |- context [match ?x with Some _ => _ | None => _ end] => destruct x
         end;
    intros [= <-]; exact Hs.
Qed.

Lemma loop_deferring (ps : list string) (st st' : Parse.state) :
  deferring st -> Parse.loop st ps = Ok st' -> deferring st'.
Proof.
  revert st. induction ps as [|p ps IH]; intros st Hc; cbn [Parse.loop].
  - now intros [= <-].
  - destruct (Parse.step st p) as [st1|e] eqn:E; [|discriminate].
    cbn [mbind result_bind]. apply IH.
    unfold Parse.step, Parse.decodeURIComponent in E.
    destruct (negb (nonempty p)); [now injection E as <-|].
    destruct (JS.indexOf "=" p) as [i|]; [|now injection E as <-].
    destruct (JS.decodeURIComponent (JS.slice_to i p)) as [key|]; [|discriminate].
    destruct (JS.decodeURIComponent (JS.slice_from (S i) p)) as [val|]; [|discriminate].
    cbn [mbind result_bind] in E. now apply (dispatch_deferring key val st).
Qed.

(** The filter dictionary [finish] builds from the collected columns. *)
Definition entries (fm : list (string * list string)) : list (string * param_value) :=
  map (fun e => (fst e, B.filter_entry None (Many (snd e)))) fm.

Lemma filter_fold_frame (fm : list (string * list string)) (b : B.t) :
  fold_left (fun b '(col, values) => B.filter col (Many values) b) fm b
  = with_filter
      (B._filter (fold_left (fun b '(col, values) => B.filter col (Many values) b) fm b))
      b.
Proof.
  revert b. induction fm as [|[c vs] fm IH]; intros b; [now destruct b|].
  cbn [fold_left]. rewrite IH at 1. now destruct b.
Qed.

Lemma finish_spelled (st : Parse.state) :
  collecting st -> deferring st ->
  Parse.finish st
  = with_filter (entries (Parse.filterMap st))
      (B.searchBy (Parse.searchByValues st) (Parse.builder st)).
Proof.
  intros (Hf & Hnd & _) Hs. unfold Parse.finish.
  set (b0 := match Parse.searchByValues st with
             | [] => Parse.builder st
             | _ :: _ => B.searchBy (Parse.searchByValues st) (Parse.builder st)
             end).
  assert (E0 : b0 = B.searchBy (Parse.searchByValues st) (Parse.builder st)).
  { subst b0. unfold deferring in Hs.
    destruct (Parse.searchByValues st); [|reflexivity].
    destruct (Parse.builder st). cbn in Hs. now subst. }
  assert (Hb0 : B._filter b0 = []) by (rewrite E0; exact Hf).
  rewrite filter_fold_frame, finish_filter_entries by (now rewrite Hb0).
  rewrite Hb0, E0. reflexivity.
Qed.

Lemma entries_set (c : string) (vs : list string) (fm : list (string * list string)) :
  entries (Dict.set c vs fm) = Dict.set c (B.filter_entry None (Many vs)) (entries fm).
Proof.
  induction fm as [|[c0 v0] fm IH]; [reflexivity|].
  cbn [Dict.set entries map fst snd]. destruct (String.eqb c0 c); [reflexivity|].
  cbn [map fst snd]. f_equal. exact IH.
Qed.

Lemma get_entries (c : string) (fm : list (string * list string)) :
  Dict.get c (entries fm)
  = option_map (fun vs => B.filter_entry None (Many vs)) (Dict.get c fm).
Proof.
  induction fm as [|[c0 v0] fm IH]; [reflexivity|].
  cbn [Dict.get entries map fst snd]. now destruct (String.eqb c0 c).
Qed.

Lemma tokens_of_finish (c : string) (st : Parse.state) :
  collecting st -> deferring st ->
  tokens_of (Parse.finish st) c
  = match Dict.get c (Parse.filterMap st) with Some vs => vs | None => [] end.
Proof.
  intros Hc Hs. rewrite finish_spelled by assumption.
  unfold tokens_of, with_filter. cbn [B._filter]. rewrite get_entries.
  destruct (Dict.get c (Parse.filterMap st)) as [vs|]; [|reflexivity].
  cbn [option_map]. now destruct vs as [|x [|y vs]].
Qed.

(** X16: pairs of the repeatable keys accumulate: when [qs] parses to
    [b], then [qs] followed by a [searchBy] pair parses to [b] with that
    column added at the end of its [searchBy] list, and [qs] followed by a
    [filter.c] pair parses to [b] with the token added at the end of the
    tokens of column [c] (a new column going last).  The column [c] is
    neither named like a member of [Object.prototype] nor an array index
    (which an object enumerates before the keys it already has). *)
Theorem fromQueryString_append_repeated (qs : string) (b : B.t) (x c v : string) :
  JS.well_formed x = true -> JS.well_formed c = true -> JS.well_formed v = true ->
  Dict.inherited c = false -> Obj.array_index c = None ->
  fromQueryString qs = Ok b ->
  fromQueryString (qs +:+ "&" +:+ QueryString.query_pair "searchBy" x)
  = Ok (B.searchBy (B._searchBy b ++ [x]) b)
  /\ fromQueryString (qs +:+ "&" +:+ QueryString.query_pair ("filter." +:+ c) v)
     = Ok (with_filter
             (Dict.set c (B.filter_entry None (Many (tokens_of b c ++ [v]))) (B._filter b))
             b).
Proof.
  intros Hx Hc Hv Hin _ Hqs. rewrite fromQueryString_loop in Hqs.
  destruct (Parse.loop initial (pieces qs)) as [st|e] eqn:E; [|discriminate].
  injection Hqs as <-.
  assert (Hcol : collecting st).
  { apply (loop_collecting (pieces qs) initial); [repeat split; constructor | exact E]. }
  assert (Hdef : deferring st)
    by (apply (loop_deferring (pieces qs) initial); [reflexivity | exact E]).
  split.
  - rewrite fromQueryString_loop.
    rewrite pieces_app by apply (encode_pair_no_amp ("searchBy", x)).
    rewrite loop_app, E. cbn [mbind result_bind Parse.loop].
    change (QueryString.query_pair "searchBy" x) with (encode_pair ("searchBy", x)).
    rewrite step_encode_pair by (unfold well_formed_pair; cbn [fst snd]; now rewrite Hx).
    cbn [fst snd]. rewrite dispatch_searchBy. cbn [mbind result_bind]. f_equal.
    rewrite !finish_spelled; try assumption.
    cbn [Parse.builder Parse.searchByValues Parse.filterMap].
    unfold with_filter, B.searchBy. cbn. reflexivity.
  - rewrite fromQueryString_loop.
    rewrite pieces_app by apply (encode_pair_no_amp ("filter." +:+ c, v)).
    rewrite loop_app, E. cbn [mbind result_bind Parse.loop].
    change (QueryString.query_pair ("filter." +:+ c) v) with (encode_pair ("filter." +:+ c, v)).
    rewrite step_encode_pair.
    2:{ unfold well_formed_pair. cbn [fst snd]. rewrite Hv, andb_true_r.
        unfold JS.well_formed in *. exact Hc. }
    cbn [fst snd]. rewrite dispatch_filter.
    rewrite (tokens_of_finish c st Hcol Hdef).
    assert (P : Parse.push_filter c v st
                = Ok (Parse.mk_state (Parse.builder st) (Parse.searchByValues st)
                        (Dict.set c (match Dict.get c (Parse.filterMap st) with
                                     | Some vs => vs
                                     | None => []
                                     end ++ [v]) (Parse.filterMap st)))).
    { unfold Parse.push_filter. destruct (Dict.get c (Parse.filterMap st)); [reflexivity|].
      now rewrite Hin. }
    rewrite P. cbn [mbind result_bind]. f_equal.
    destruct Hcol as (Hf & Hnd & Hne).
    rewrite !finish_spelled.
    + cbn [Parse.builder Parse.searchByValues Parse.filterMap].
      rewrite entries_set. unfold with_filter. cbn. reflexivity.
    + repeat split; assumption.
    + exact Hdef.
    + repeat split; cbn [Parse.builder Parse.filterMap]; try assumption.
      * now apply NoDup_keys_set.
      * apply (Forall_set (fun vs => vs <> [])); [|assumption].
        now destruct (match Dict.get c (Parse.filterMap st) with Some vs => vs | None => [] end).
    + exact Hdef.
Qed.

Lemma fromQueryString_append_repeated_witness :
  Dict.inherited "age" = false /\ Obj.array_index "age" = None
  /\ fromQueryString "?searchBy=name&filter.age=%24gte%3A3"
     = Ok (B.filter "age" (Single "$gte:3") (B.searchBy ["name"] B.new))
  /\ fromQueryString "?searchBy=name&filter.age=%24gte%3A3&searchBy=email"
     = Ok (B.filter "age" (Single "$gte:3") (B.searchBy ["name"; "email"] B.new))
  /\ fromQueryString "?searchBy=name&filter.age=%24gte%3A3&filter.age=%24lte%3A9"
     = Ok (B.filter "age" (Single "$lte:9")
             (B.filter "age" (Single "$gte:3") (B.searchBy ["name"] B.new))).
Proof.
  split; [reflexivity|]. split; [reflexivity|]. split; [reflexivity|].
  exact (fromQueryString_append_repeated "?searchBy=name&filter.age=%24gte%3A3"
           (B.filter "age" (Single "$gte:3") (B.searchBy ["name"] B.new))
           "email" "age" "$lte:9" eq_refl eq_refl eq_refl eq_refl eq_refl eq_refl).
Defined.

(** ** The query string is stable under parsing *)

(** What is left of a filter entry in the query string: its non-empty
    tokens, as [fromQueryString] will store them. *)
Definition normal_entry (e : string * param_value) : list (string * param_value) :=
  match List.filter nonempty (values_of (snd e)) with
  | [] => []
  | [x] => [(fst e, Single x)]
  | vs => [(fst e, Many vs)]
  end.

(** The state with everything dropped that [toQueryString] does not
    write. *)
Definition normal (b : B.t) : B.t :=
  B.mk (B._page b) (B._limit b) (B._sortBy b) (B._search b)
       (List.filter nonempty (B._searchBy b))
       (if nonempty (JS.join "," (B._select b)) then B._select b else [])
       (flat_map normal_entry (B._filter b))
       match B._cursor b with
       | Some c => if nonempty c then Some c else None
       | None => None
       end
       (B._withDeleted b).

Lemma all_pairs_app (p q : PaginateParamsRaw) :
  all_pairs (p ++ q) = all_pairs p ++ all_pairs q.
Proof. unfold all_pairs. apply flat_map_app. Qed.

Lemma forallb_nonempty_filter (l : list string) :
  forallb nonempty (List.filter nonempty l) = true.
Proof.
  induction l as [|x l IH]; [reflexivity|]. simpl.
  destruct (nonempty x) eqn:E; [simpl; now rewrite E | exact IH].
Qed.

Lemma filter_filter {A : Type} (P : A -> bool) (l : list A) :
  List.filter P (List.filter P l) = List.filter P l.
Proof.
  induction l as [|x l IH]; [reflexivity|]. simpl.
  destruct (P x) eqn:E; [simpl; now rewrite E, IH | exact IH].
Qed.

Lemma normal_entry_keys (fs : list (string * param_value)) :
  sublist (Dict.keys (flat_map normal_entry fs)) (Dict.keys fs).
Proof.
  induction fs as [|[c v] fs IH]; [constructor|].
  cbn [flat_map]. unfold Dict.keys in *. rewrite map_app. cbn [map fst].
  unfold normal_entry. cbn [fst snd].
  destruct (List.filter nonempty (values_of v)) as [|x [|y l]]; cbn [map fst app];
    [now apply sublist_cons | now apply sublist_skip | now apply sublist_skip].
Qed.

Lemma normal_filter_pairs (fs : list (string * param_value)) :
  all_pairs (filter_params (flat_map normal_entry fs)) = kv_of (filter_params fs).
Proof.
  induction fs as [|[c v] fs IH]; [reflexivity|].
  cbn [flat_map]. unfold filter_params in *. rewrite map_app, all_pairs_app, IH.
  change (map (fun '(c0, v0) => ("filter." +:+ c0, v0)) ((c, v) :: fs))
    with ([("filter." +:+ c, v)] ++ map (fun '(c0, v0) => ("filter." +:+ c0, v0)) fs).
  rewrite kv_of_app. f_equal.
  unfold kv_of, all_pairs at 2. cbn [flat_map]. rewrite app_nil_r, filter_map_pair.
  unfold normal_entry. cbn [fst snd].
  destruct (List.filter nonempty (values_of v)) as [|x [|y l]];
    unfold all_pairs; cbn [map flat_map values_of]; now rewrite ?app_nil_r.
Qed.

Lemma normal_fixed_pairs (b : B.t) :
  all_pairs (fixed_params (normal b)) = kv_of (fixed_params b).
Proof.
  destruct b as [pg lm sb se sby sel fl cu wd]. unfold fixed_params, normal.
  cbn [B._page B._limit B._sortBy B._search B._searchBy B._select B._cursor
       B._withDeleted B._filter].
  rewrite !all_pairs_app, !kv_of_app.
  f_equal; [|f_equal; [|f_equal; [|f_equal; [|f_equal; [|f_equal; [|f_equal]]]]]].
  - destruct pg as [n|]; [|reflexivity]. now rewrite kv_of_single, String_nonempty.
  - destruct lm as [n|]; [|reflexivity]. now rewrite kv_of_single, String_nonempty.
  - destruct sb as [|r sb]; [reflexivity|]. rewrite kv_of_many.
    + unfold all_pairs. cbn [flat_map values_of]. now rewrite app_nil_r.
    + apply forallb_forall. intros x Hx.
      apply in_map_iff in Hx as (r0 & <- & _). apply sort_rule_string_nonempty.
  - destruct se as [s|]; [|reflexivity]. destruct (nonempty s) eqn:E; [|reflexivity].
    now rewrite kv_of_single, E.
  - transitivity (map (pair "searchBy") (List.filter nonempty sby)).
    + destruct (List.filter nonempty sby); [reflexivity|].
      unfold all_pairs. cbn [flat_map values_of]. now rewrite app_nil_r.
    + destruct sby as [|c sby]; [reflexivity|].
      unfold kv_of, all_pairs. cbn [flat_map values_of].
      now rewrite app_nil_r, filter_map_pair.
  - destruct sel as [|s sel]; [reflexivity|].
    rewrite kv_of_single. now destruct (nonempty (JS.join "," (s :: sel))).
  - destruct cu as [c|]; [|reflexivity]. rewrite kv_of_single.
    now destruct (nonempty c).
  - now destruct wd as [[]|].
Qed.

Lemma normal_pairs (b : B.t) :
  NoDup (Dict.keys (B._filter b)) ->
  all_pairs (B.toParams (normal b)) = kv_of (B.toParams b).
Proof.
  intros Hnd. rewrite (toParams_app b) by assumption. rewrite toParams_app.
  - rewrite all_pairs_app, kv_of_app, normal_fixed_pairs. f_equal.
    apply normal_filter_pairs.
  - eapply sublist_NoDup; [eassumption | apply normal_entry_keys].
Qed.

Lemma normal_round_trips (b : B.t) :
  NoDup (Dict.keys (B._filter b)) ->
  forallb (fun e => negb (Dict.inherited (fst e))) (B._filter b) = true ->
  forallb well_formed_pair (B.toURLSearchParams b) = true ->
  round_trips (normal b) = true.
Proof.
  intros Hnd Hin Hwf. unfold round_trips.
  rewrite toURLSearchParams_pairs, normal_pairs by assumption.
  rewrite toURLSearchParams_pairs in Hwf.
  unfold kv_of. rewrite (forallb_filter _ _ _ Hwf), andb_true_r.
  destruct b as [pg lm sb se sby sel fl cu wd]. unfold normal.
  cbn [B._page B._limit B._sortBy B._search B._searchBy B._select B._cursor
       B._withDeleted B._filter] in *.
  rewrite forallb_nonempty_filter, andb_true_r.
  repeat (apply andb_true_iff; split).
  - destruct cu as [c|]; [|reflexivity]. now destruct (nonempty c) eqn:E.
  - destruct (nonempty (JS.join "," sel)) eqn:E; [|reflexivity].
    now destruct sel as [|s [|s' sel]].
  - clear Hnd Hwf. induction fl as [|[c v] fl IH]; [reflexivity|].
    cbn [forallb fst] in Hin. apply andb_true_iff in Hin as [Hc Hfl].
    cbn [flat_map]. rewrite forallb_app, (IH Hfl), andb_true_r.
    unfold normal_entry. cbn [fst snd].
    pose proof (forallb_nonempty_filter (values_of v)) as Hne.
    destruct (List.filter nonempty (values_of v)) as [|x [|y l]]; [reflexivity| |].
    + cbn [forallb] in *. unfold filter_ok. cbn [fst snd entry_round_trips].
      rewrite Hc. exact Hne.
    + cbn [forallb]. unfold filter_ok. cbn [fst snd entry_round_trips].
      rewrite Hc, Hne. reflexivity.
Qed.

Lemma normal_query_string (b : B.t) :
  NoDup (Dict.keys (B._filter b)) ->
  B.toQueryString (normal b) = B.toQueryString b.
Proof.
  intros Hnd. unfold B.toQueryString. rewrite !toQueryString_query_of.
  rewrite normal_pairs by assumption. unfold kv_of. now rewrite filter_filter.
Qed.

(** The page and the limit of a state are safe integers. *)
Definition safe_numbers (b : B.t) : bool :=
  match B._page b with Some n => safe_integer n | None => true end
  && match B._limit b with Some n => safe_integer n | None => true end.

(** A column that is neither named like a member of [Object.prototype]
    nor an array index. *)
Definition ordinary_column (c : string) : bool :=
  negb (Dict.inherited c) && is_none (Obj.array_index c).

(** X17: the query string is stable under parsing.  For a state reached
    through the public methods, with a page and a limit that are safe
    integers, well-formed text and filter columns that are neither named
    like a member of [Object.prototype] nor array indices, parsing its
    query string succeeds and the parsed builder prints the same query
    string, even where values were empty and the param maps differ. *)
Theorem toQueryString_stable (ms : list mutation) :
  safe_numbers (run ms B.new) = true ->
  forallb ordinary_column (Dict.keys (B._filter (run ms B.new))) = true ->
  forallb well_formed_pair (B.toURLSearchParams (run ms B.new)) = true ->
  exists parsed,
    fromQueryString (B.toQueryString (run ms B.new)) = Ok parsed
    /\ B.toQueryString parsed = B.toQueryString (run ms B.new).
Proof.
  intros _ Hcols Hwf. set (b := run ms B.new) in *.
  assert (Hin : forallb (fun e => negb (Dict.inherited (fst e))) (B._filter b) = true).
  { apply forallb_forall. intros e He. rewrite forallb_forall in Hcols.
    assert (Hk : In (fst e) (Dict.keys (B._filter b))) by now apply in_map.
    apply Hcols in Hk. unfold ordinary_column in Hk.
    now apply andb_true_iff in Hk as [Hk _]. }
  assert (Hnd : NoDup (Dict.keys (B._filter b))) by (apply run_filter_keys; constructor).
  assert (Hn : NoDup (Dict.keys (B._filter (normal b)))).
  { eapply sublist_NoDup; [exact Hnd | apply normal_entry_keys]. }
  destruct (round_trip_state (normal b) Hn (normal_round_trips b Hnd Hin Hwf)) as [Hp Ht].
  exists (reparsed (normal b)). split.
  - now rewrite <- (normal_query_string b Hnd).
  - unfold B.toQueryString at 1. rewrite Ht.
    apply (normal_query_string b Hnd).
Qed.

Definition blank_calls : list mutation :=
  [Page 3; Cursor ""; SearchBy ["name"; ""]; Select [""];
   Filter "role" (Many []); Filter "age" (Many ["$gte:3"; ""]); Search "a b"].

Lemma toQueryString_stable_witness :
  safe_numbers (run blank_calls B.new) = true
  /\ forallb ordinary_column (Dict.keys (B._filter (run blank_calls B.new))) = true
  /\ forallb well_formed_pair (B.toURLSearchParams (run blank_calls B.new)) = true
  /\ B.toQueryString (run blank_calls B.new)
     = "?page=3&search=a%20b&searchBy=name&filter.age=%24gte%3A3"
  /\ exists parsed,
       fromQueryString (B.toQueryString (run blank_calls B.new)) = Ok parsed
       /\ B.toQueryString parsed = B.toQueryString (run blank_calls B.new).
Proof.
  split; [reflexivity|]. split; [reflexivity|]. split; [reflexivity|]. split; [reflexivity|].
  apply (toQueryString_stable blank_calls); reflexivity.
Defined.

(** ** The example: the URL of [fetchUsers] *)

Lemma join_three (p1 p2 p3 : string) (more : list string) :
  JS.join "&" (p1 :: p2 :: p3 :: more)
  = p1 +:+ "&" +:+ p2 +:+ "&" +:+ p3
    +:+ match more with [] => "" | _ :: _ => "&" +:+ JS.join "&" more end.
Proof. destruct more; cbn [JS.join]; [now rewrite append_empty | reflexivity]. Qed.

Lemma question_mark_again (params : PaginateParamsRaw) :
  (if nonempty (QueryString.toQueryString params)
   then "?" +:+ JS.slice_from 1 (QueryString.toQueryString params) else "")
  = QueryString.toQueryString params.
Proof.
  rewrite toQueryString_pairs. unfold specified_query_string.
  now destruct (specified_pairs params).
Qed.

Lemma buildUserListParams_head (o : Example.options) :
  exists more,
    B.toParams (Example.buildUserListParams o)
    = [("page", Single (JS.String_ (Example.or_else (Example.page o) 1%Z)));
       ("limit", Single (JS.String_ (Example.or_else (Example.limit o) 10%Z)));
       ("sortBy", Many [Example.or_else (Example.sortBy o) "name" +:+ ":"
                        +:+ Example.or_else (Example.sortDir o) ASC])]
      ++ more.
Proof.
  destruct o as [pg lm se sb sd ro ri]. unfold Example.buildUserListParams.
  cbn [Example.page Example.limit Example.search Example.sortBy Example.sortDir
       Example.role Example.roleIn].
  destruct se as [s|]; [destruct (nonempty (Example.trim s)) eqn:Es|];
    (destruct ro as [r|]; [destruct (nonempty r) eqn:Er|]);
    (destruct ri as [[|x xs]|]);
    eexists; unfold B.toParams; cbn -[JS.String_ Example.trim Filter.eq Filter.inOp];
    rewrite ?Es; cbn -[JS.String_ Example.trim Filter.eq Filter.inOp]; reflexivity.
Qed.

(** X18: for options whose page and limit are safe integers and whose
    text is well formed, the URL of the example's [fetchUsers] is the base
    URL without its final slash, then [/users], then the query string of
    [buildUserListParams] unchanged (taking the [?] off and putting it back
    is the identity); that query string is never empty: it starts with
    [page], [limit] and [sortBy], defaulting to [1], [10] and
    [name:ASC]. *)
Theorem fetchUsers_url_shape (baseUrl : string) (o : Example.options) :
  safe_numbers (Example.buildUserListParams o) = true ->
  forallb well_formed_pair (B.toURLSearchParams (Example.buildUserListParams o)) = true ->
  Example.fetchUsers_url baseUrl o
  = Example.strip_final_slash baseUrl +:+ "/users"
    +:+ B.toQueryString (Example.buildUserListParams o)
  /\ exists rest,
       B.toQueryString (Example.buildUserListParams o)
       = "?page=" +:+ JS.String_ (Example.or_else (Example.page o) 1%Z)
         +:+ "&limit=" +:+ JS.String_ (Example.or_else (Example.limit o) 10%Z)
         +:+ "&sortBy="
         +:+ JS.encodeURIComponent
               (Example.or_else (Example.sortBy o) "name" +:+ ":"
                +:+ Example.or_else (Example.sortDir o) ASC)
         +:+ rest.
Proof.
  intros _ _. split.
  - unfold Example.fetchUsers_url, B.toQueryString. now rewrite question_mark_again.
  - unfold B.toQueryString. destruct (buildUserListParams_head o) as [more ->].
    rewrite toQueryString_pairs. unfold specified_query_string.
    rewrite specified_pairs_app.
    set (pg := Example.or_else (Example.page o) 1%Z).
    set (lm := Example.or_else (Example.limit o) 10%Z).
    set (rule := Example.or_else (Example.sortBy o) "name" +:+ ":"
                 +:+ Example.or_else (Example.sortDir o) ASC).
    assert (E : specified_pairs
                  [("page", Single (JS.String_ pg)); ("limit", Single (JS.String_ lm));
                   ("sortBy", Many [rule])]
                = ["page=" +:+ JS.String_ pg; "limit=" +:+ JS.String_ lm;
                   "sortBy=" +:+ JS.encodeURIComponent rule]).
    { unfold specified_pairs. cbn [flat_map values_of List.filter].
      rewrite !String_nonempty.
      assert (Hr : nonempty rule = true).
      { subst rule. destruct (Example.or_else (Example.sortBy o) "name"); reflexivity. }
      rewrite Hr. cbn [map app]. unfold QueryString.query_pair.
      rewrite !(encode_unreserved (JS.String_ _)) by apply String_unreserved.
      reflexivity. }
    rewrite E. cbn [app]. rewrite join_three.
    eexists. cbn [String.append]. rewrite !append_assoc. reflexivity.
Qed.

Definition sample_options : Example.options :=
  Example.mk_options (Some 2%Z) None (Some " ann ") None (Some DESC) (Some "admin") None.

Lemma fetchUsers_url_shape_witness :
  safe_numbers (Example.buildUserListParams sample_options) = true
  /\ forallb well_formed_pair
       (B.toURLSearchParams (Example.buildUserListParams sample_options)) = true
  /\ Example.fetchUsers_url "https://api.example.com/" sample_options
     = "https://api.example.com/users?page=2&limit=10&sortBy=name%3ADESC"
       +:+ "&search=ann&searchBy=name&searchBy=email&filter.role=%24eq%3Aadmin".
Proof.
  split; [reflexivity|]. split; [reflexivity|].
  destruct (fetchUsers_url_shape "https://api.example.com/" sample_options eq_refl eq_refl)
    as [-> _].
  reflexivity.
Defined.

(** ** The Angular service against the core example *)

(** The options of the core example that a state of the service stands
    for. *)
Definition options_of (state : UserPaginateService.UserListState) : Example.options :=
  Example.mk_options (UserPaginateService.page state) (UserPaginateService.limit state)
    (UserPaginateService.search state) (UserPaginateService.sortBy state)
    (UserPaginateService.sortDir state) (UserPaginateService.role state)
    (UserPaginateService.roles state).

(** X19: the Angular service is consistent with itself and with the core
    example: [getQueryString(state)] is the serialisation of
    [getQueryParams(state)], the param map is the one of
    [buildUserListParams] on the same options, and after [setBaseUrl(url)]
    the URL of [loadUsers] is the URL of the example's [fetchUsers]. *)
Theorem service_agrees (url : string) (state : UserPaginateService.UserListState) :
  UserPaginateService.getQueryString state
  = QueryString.toQueryString (UserPaginateService.getQueryParams state)
  /\ UserPaginateService.getQueryParams state
     = B.toParams (Example.buildUserListParams (options_of state))
  /\ UserPaginateService.loadUsers_url
       (UserPaginateService.setBaseUrl url UserPaginateService.new) state
     = Example.fetchUsers_url url (options_of state).
Proof.
  split; [reflexivity|]. split; [reflexivity|].
  unfold UserPaginateService.loadUsers_url, Example.fetchUsers_url.
  change (UserPaginateService.getQueryString state)
    with (B.toQueryString (Example.buildUserListParams (options_of state))).
  cbn [UserPaginateService.baseUrl UserPaginateService.setBaseUrl].
  unfold B.toQueryString. rewrite question_mark_again.
  rewrite toQueryString_pairs. unfold specified_query_string.
  now destruct (specified_pairs _).
Qed.

(** ** Arrays the caller keeps *)

Lemma copy_then_push (g : Heap.loc -> Heap.fields -> Heap.fields)
    (cs t : Heap.loc) (h h1 : Heap.heap) (b b1 : B.t) (f : Heap.fields) (l : list string)
    (x : string) :
  (forall r f0, Heap._filter (g r f0) = Heap._filter f0
                /\ (Heap._searchBy (g r f0) = r /\ Heap._select (g r f0) = Heap._select f0
                    \/ Heap._searchBy (g r f0) = Heap._searchBy f0 /\ Heap._select (g r f0) = r)) ->
  Heap.value_of h t = Some b -> Heap.read_strings h cs = Some l -> not_held h t cs ->
  Heap.read_builder h t = Some f ->
  Heap.read_builder h1 t = Some (g (length h) f) ->
  preserves h h1 (Some t) ->
  Heap.value_of h1 t = Some b1 ->
  exists h2, array_push cs x h1 = Some h2 /\ Heap.value_of h2 t = Some b1.
Proof.
  intros Hg Hv Hcs Hn Hf Hf1 Hp Hv1.
  assert (Hcs1 : Heap.read_strings h1 cs = Some l).
  { apply (read_strings_preserved _ _ _ Hp _ _ Hcs). clear -Hf Hcs. kinds. }
  eexists. split; [apply (array_push_defined _ _ _ _ Hcs1)|].
  apply (array_push_frame h1 _ t cs b1 x); [|assumption | now apply array_push_defined].
  intros f1 es1 Hf1' Hes1. rewrite Hf1 in Hf1'. injection Hf1' as <-.
  apply value_of_parts in Hv as (f0 & rs & sb & sel & es & fl & H1 & H2 & H3 & H4 & H5 & H6 & ->).
  rewrite Hf in H1. injection H1 as <-.
  destruct (Hn f es Hf H5) as (N1 & N2 & N3).
  destruct (Hg (length h) f) as (G1 & G2). rewrite G1 in Hes1.
  assert (Hes : Heap.read_filters h1 (Heap._filter f) = Some es).
  { apply (read_filters_preserved _ _ _ Hp _ _ H5). clear -Hf H5. kinds. }
  rewrite Hes in Hes1. injection Hes1 as <-.
  apply read_strings_valid in Hcs.
  destruct G2 as [[-> ->]|[-> ->]]; (split; [|split]); try assumption; lia.
Qed.

(** X20: [searchBy] and [select] copy their argument: when the caller
    pushes onto the array afterwards, the builder's param map stays what it
    was. *)
Theorem setters_copy_the_array (cs t : Heap.loc) (h : Heap.heap) (b : B.t)
    (l : list string) (x : string) :
  Heap.value_of h t = Some b -> Heap.read_strings h cs = Some l -> not_held h t cs ->
  (exists h1 h2,
      Heap.searchBy cs t h = Some h1 /\ array_push cs x h1 = Some h2
      /\ Heap.toParams t h1 = Some (B.toParams (B.searchBy l b))
      /\ Heap.toParams t h2 = Some (B.toParams (B.searchBy l b)))
  /\ (exists h1 h2,
         Heap.select cs t h = Some h1 /\ array_push cs x h1 = Some h2
         /\ Heap.toParams t h1 = Some (B.toParams (B.select l b))
         /\ Heap.toParams t h2 = Some (B.toParams (B.select l b))).
Proof.
  intros Hv Hcs Hn. split.
  - destruct (step_progress (Heap.SearchBy cs) h t b Hv) as [h1 H1].
    { cbn [denote]. rewrite Hcs. now eexists. }
    cbn [Heap.step] in H1.
    destruct (searchBy_sound cs h h1 t b Hv H1) as (f & l0 & Hf & Hl0 & Hf1 & Hp & Hv1).
    rewrite Hcs in Hl0. injection Hl0 as <-.
    destruct (copy_then_push Heap.set_searchBy cs t h h1 b (B.searchBy l b) f l x)
      as (h2 & Hpush & Hv2); auto.
    exists h1, h2. unfold Heap.toParams. now rewrite Hv1, Hv2.
  - destruct (step_progress (Heap.Select cs) h t b Hv) as [h1 H1].
    { cbn [denote]. rewrite Hcs. now eexists. }
    cbn [Heap.step] in H1.
    destruct (select_sound cs h h1 t b Hv H1) as (f & l0 & Hf & Hl0 & Hf1 & Hp & Hv1).
    rewrite Hcs in Hl0. injection Hl0 as <-.
    destruct (copy_then_push Heap.set_select cs t h h1 b (B.select l b) f l x)
      as (h2 & Hpush & Hv2); auto.
    exists h1, h2. unfold Heap.toParams. now rewrite Hv1, Hv2.
Qed.



Definition callers_store : Heap.heap :=
  [Heap.SortRules []; Heap.Strings []; Heap.Strings []; Heap.Filters [];
   Heap.Builder (Heap.mk_fields (Some 2%Z) None 0 None 1 2 3 None None);
   Heap.Strings ["$gte:3"; "$lte:9"];
   Heap.Strings ["name"; "email"]].


Lemma setters_copy_the_array_witness :
  exists h1 h2,
    Heap.searchBy 6 4 callers_store = Some h1 /\ array_push 6 "id" h1 = Some h2
    /\ Heap.toParams 4 h1 = Some [("page", Single "2"); ("searchBy", Many ["name"; "email"])]
    /\ Heap.toParams 4 h2 = Some [("page", Single "2"); ("searchBy", Many ["name"; "email"])].
Proof.
  apply (setters_copy_the_array 6 4 callers_store (B.page 2 B.new)
           ["name"; "email"] "id").
  - reflexivity.
  - reflexivity.
  - intros f es [= <-] [= <-]. repeat split; try discriminate. intros k [].
Defined.

(** ** When [filter] does not keep the array *)

(** X22: in every other case [filter] keeps no reference to the caller's
    array: when the array has exactly one element, or the column already
    holds a non-empty entry, the builder stores a string or a fresh array,
    and a later push by the caller leaves the param map as it was. *)
Theorem filter_copies_otherwise (c : string) (r t : Heap.loc) (h : Heap.heap) (b : B.t)
    (l : list string) (x : string) :
  Heap.value_of h t = Some b -> Heap.read_strings h r = Some l -> not_held h t r ->
  length l = 1%nat \/ B.truthy (Dict.get c (B._filter b)) = true ->
  exists h1 h2,
    Heap.filter c (Heap.TRef r) t h = Some h1 /\ array_push r x h1 = Some h2
    /\ Heap.toParams t h1 = Some (B.toParams (B.filter c (Many l) b))
    /\ Heap.toParams t h2 = Some (B.toParams (B.filter c (Many l) b)).
Proof.
  intros Hv Hr Hn Hcase.
  destruct (step_progress (Heap.Filter c (Heap.TRef r)) h t b Hv) as [h1 E1].
  { cbn [denote]. rewrite Hr. now eexists. }
  cbn [Heap.step] in E1.
  destruct (filter_sound c (Heap.TRef r) h h1 t b Hv E1)
    as (f & ptok & Hf & Hden & Hf1 & Hp & Hv1).
  cbn [denote] in Hden. rewrite Hr in Hden. cbn [mbind option_bind] in Hden.
  injection Hden as <-.
  pose proof Hv as Hparts.
  apply value_of_parts in Hparts
    as (f0 & rs & sb & sel & es & fl & H1 & H2 & H3 & H4 & H5 & H6 & Hb).
  rewrite Hf in H1. injection H1 as <-.
  destruct (Hn f es Hf H5) as (N1 & N2 & N3).
  assert (Hfl : B._filter b = fl) by now subst b.
  assert (Hrl : (r < length h)%nat) by now apply read_strings_valid in Hr.
  assert (Hfv : (Heap._filter f < length h)%nat) by now apply read_filters_valid in H5.
  assert (Hr1 : Heap.read_strings h1 r = Some l).
  { apply (read_strings_preserved _ _ _ Hp _ _ Hr). clear -Hr H5. kinds. }
  (* the filter object after the call holds no reference to the array *)
  assert (Hes1 : exists es1,
             Heap.read_filters h1 (Heap._filter f) = Some es1
             /\ forall k, ~ In (k, Heap.FRef r) es1).
  { unfold Heap.filter in E1. rewrite Hf in E1. cbn [mbind option_bind] in E1.
    rewrite H5 in E1. cbn [mbind option_bind] in E1. rewrite Hr in E1.
    cbn [mbind option_bind] in E1.
    pose proof (get_deref h es fl c H6) as G.
    assert (Hplain : B.truthy (Dict.get c fl) = false ->
                     Heap.single_or_same (Heap.TRef r) l <> Heap.FRef r).
    { intros Ht. destruct Hcase as [Hlen|Hty]; [|congruence].
      destruct l as [|a [|a' l]]; try discriminate. }
    destruct (Dict.get c es) as [e|] eqn:Ee.
    - destruct G as (pv & Hpv & Hgfl).
      rewrite (truthy_deref h e pv Hpv) in E1. rewrite <- Hgfl in E1.
      destruct (B.truthy (Dict.get c fl)) eqn:Et.
      + rewrite (as_array_deref h e pv Hpv) in E1. cbn [mbind option_bind] in E1.
        cbn [Heap.alloc] in E1. injection E1 as <-.
        eexists. split.
        * apply read_filters_insert. rewrite length_app. cbn [length]. lia.
        * intros k Hin. apply in_set in Hin as [[_ [= ->]]|Hin]; [lia|].
          now apply (N3 k).
      + injection E1 as <-. eexists. split; [now apply read_filters_insert|].
        intros k Hin. apply in_set in Hin as [[_ Hsame]|Hin]; [|now apply (N3 k)].
        symmetry in Hsame. now apply Hplain in Hsame.
    - rewrite G in Hplain. injection E1 as <-.
      eexists. split; [now apply read_filters_insert|].
      intros k Hin. apply in_set in Hin as [[_ Hsame]|Hin]; [|now apply (N3 k)].
      symmetry in Hsame. now apply Hplain in Hsame. }
  destruct Hes1 as (es1 & Hes1 & Hno).
  assert (Hn1 : not_held h1 t r).
  { intros f1 es1' Hf1' Hes1'. rewrite Hf1 in Hf1'. injection Hf1' as <-.
    rewrite Hes1 in Hes1'. injection Hes1' as <-. repeat split; assumption. }
  exists h1, (<[r := Heap.Strings (l ++ [x])]> h1).
  split; [exact E1|]. split; [now apply array_push_defined|].
  unfold Heap.toParams. rewrite Hv1. split; [reflexivity|].
  rewrite (array_push_frame h1 _ t r (B.filter c (Many l) b) x Hn1 Hv1);
    [reflexivity | now apply array_push_defined].
Qed.

Definition held_store : Heap.heap :=
  [Heap.SortRules []; Heap.Strings []; Heap.Strings [];
   Heap.Filters [("age", Heap.FStr "$gte:3")];
   Heap.Builder (Heap.mk_fields None None 0 None 1 2 3 None None);
   Heap.Strings ["$lte:9"; "$null"]].

Lemma filter_copies_otherwise_witness :
  exists h1 h2,
    Heap.filter "age" (Heap.TRef 5) 4 held_store = Some h1
    /\ array_push 5 "$eq:7" h1 = Some h2
    /\ Heap.toParams 4 h1 = Some [("filter.age", Many ["$gte:3"; "$lte:9"; "$null"])]
    /\ Heap.toParams 4 h2 = Some [("filter.age", Many ["$gte:3"; "$lte:9"; "$null"])].
Proof.
  apply (filter_copies_otherwise "age" 5 4 held_store
           (B.filter "age" (Single "$gte:3") B.new) ["$lte:9"; "$null"] "$eq:7").
  - reflexivity.
  - reflexivity.
  - intros f es [= <-] [= <-]. repeat split; try discriminate.
    intros k [[=]|[]].
  - right. reflexivity.
Defined.
